(** * A shallow embedding of the music-player backend (backend/server.js)

    The server keeps its whole state in one JSON document (db.json) and in
    a directory of uploaded files.  Every route handler reads the document,
    mutates the value in memory, writes it back and answers.  This file
    models the helpers (readDB, writeDB, parseFromFilename), the route
    handlers and the JavaScript string primitives they rely on, and proves
    the properties the specification states about them. *)

From Stdlib Require Import ZArith NArith QArith_base Ascii String List Lia.
From stdpp Require Import base option list gmap strings.

Local Open Scope Z_scope.

(* ===================================================================== *)
(** ** JavaScript strings and numbers *)
(* ===================================================================== *)

(** Strings are sequences of 8-bit code units (the Latin-1 range of the
    UTF-16 code units of a JavaScript string; HTTP header values are
    decoded that way by Node).  Numbers are the doubles the range code of
    the server can meet: those that hold an integer, the two infinities
    and [NaN]. *)
Module JS.

Definition code (c : ascii) : N := N_of_ascii c.

Definition chr (n : N) : ascii := ascii_of_N n.

(** LineTerminator: LF and CR (U+2028 and U+2029 are out of range). *)
Definition is_line_terminator (c : ascii) : bool :=
  (code c =? 10)%N || (code c =? 13)%N.

(** WhiteSpace and LineTerminator: TAB, LF, VT, FF, CR, SP, NBSP.  This is
    the set that [trim], [parseInt] and the regex class [\s] use. *)
Definition is_whitespace (c : ascii) : bool :=
  ((9 <=? code c)%N && (code c <=? 13)%N)
  || (code c =? 32)%N || (code c =? 160)%N.

(** The regex atom [.]: any unit but a line terminator. *)
Definition is_dot (c : ascii) : bool := negb (is_line_terminator c).

Definition is_digit (c : ascii) : bool :=
  (48 <=? code c)%N && (code c <=? 57)%N.

Definition digit_val (c : ascii) : Z := Z.of_N (code c) - 48.

Definition digit_char (d : Z) : ascii := chr (Z.to_N (48 + d)).

(** Truthiness of a string: every string but the empty one. *)
Definition truthy (s : string) : bool :=
  match s with EmptyString => false | String _ _ => true end.

(** [a || b] on strings. *)
Definition or_else (a b : string) : string := if truthy a then a else b.

(** Truthiness of a value that may be [undefined]. *)
Definition truthy_opt (o : option string) : bool :=
  match o with Some s => truthy s | None => false end.

Fixpoint all_chars (p : ascii -> bool) (s : string) : bool :=
  match s with
  | EmptyString => true
  | String c r => p c && all_chars p r
  end.

Fixpoint has_char (x : ascii) (s : string) : bool :=
  match s with
  | EmptyString => false
  | String c r => Ascii.eqb c x || has_char x r
  end.

(** [String.prototype.trimStart], [trimEnd] and [trim]. *)
Fixpoint trim_start (s : string) : string :=
  match s with
  | EmptyString => EmptyString
  | String c r => if is_whitespace c then trim_start r else s
  end.

Fixpoint trim_end (s : string) : string :=
  match s with
  | EmptyString => EmptyString
  | String c r =>
      match trim_end r with
      | EmptyString => if is_whitespace c then EmptyString
                       else String c EmptyString
      | r' => String c r'
      end
  end.

Definition trim (s : string) : string := trim_end (trim_start s).

(** [s.split(sep)] for a one-character separator: never empty. *)
Fixpoint split (sep : ascii) (s : string) : list string :=
  match s with
  | EmptyString => [EmptyString]
  | String c r =>
      if Ascii.eqb c sep then EmptyString :: split sep r
      else match split sep r with
           | h :: t => String c h :: t
           | [] => [String c EmptyString]
           end
  end.

(** [arr.pop()] read as a value: the last element, if any. *)
Definition pop (l : list string) : option string := last l.

Fixpoint strip_prefix (p s : string) : option string :=
  match p, s with
  | EmptyString, _ => Some s
  | String a p', String b s' =>
      if Ascii.eqb a b then strip_prefix p' s' else None
  | String _ _, EmptyString => None
  end.

(** [s.replace(/pat/, repl)] for a regex that is a literal: the leftmost
    occurrence is replaced, the rest is kept. *)
Fixpoint replace_first (pat repl s : string) : string :=
  match strip_prefix pat s with
  | Some rest => repl +:+ rest
  | None =>
      match s with
      | EmptyString => EmptyString
      | String c r => String c (replace_first pat repl r)
      end
  end.

(** A number as the range code sees it: a double that holds the integer
    [z] (the two zeros are not told apart: both print as 0), an infinity,
    or [NaN]. *)
Inductive number : Type :=
| NaN
| Int (z : Z)
| Inf
| NegInf.

(** [Number.MAX_SAFE_INTEGER] *)
Definition MAX_SAFE_INTEGER : Z := 2 ^ 53 - 1.

(** The double nearest to the integer [z]: up to 2^53 in magnitude the
    integer itself; beyond, the mantissa is rounded to 53 bits (a tie goes
    to the even mantissa), and what is rounded to 2^1024 or more is an
    infinity. *)
Definition to_double (z : Z) : number :=
  let a := Z.abs z in
  let e := Z.log2 a - 52 in
  if e <=? 0 then Int z
  else
    let q := Z.shiftr a e in
    let r := a - Z.shiftl q e in
    let half := Z.shiftl 1 (e - 1) in
    let q' := if (r <? half) || ((r =? half) && Z.even q) then q else q + 1 in
    let m := Z.shiftl q' e in
    if Z.shiftl 1 1024 <=? m then (if z <? 0 then NegInf else Inf)
    else Int (Z.sgn z * m).

(** [a - b] and [a + b] *)
Definition sub (a b : number) : number :=
  match a, b with
  | Int x, Int y => to_double (x - y)
  | Inf, (Int _ | NegInf) | Int _, NegInf => Inf
  | NegInf, (Int _ | Inf) | Int _, Inf => NegInf
  | _, _ => NaN
  end.

Definition add (a b : number) : number :=
  match a, b with
  | Int x, Int y => to_double (x + y)
  | Inf, (Int _ | Inf) | Int _, Inf => Inf
  | NegInf, (Int _ | NegInf) | Int _, NegInf => NegInf
  | _, _ => NaN
  end.

(** The longest run of decimal digits at the head of [s], read in base
    ten on top of [acc]. *)
Fixpoint parse_digits (acc : Z) (s : string) : Z :=
  match s with
  | EmptyString => acc
  | String c r =>
      if is_digit c then parse_digits (10 * acc + digit_val c) r else acc
  end.

(** [parseInt(s, 10)]: leading white space is skipped, one sign is read,
    then the longest prefix of digits; no digit gives [NaN].  The result
    is the double nearest to the numeral. *)
Definition parseInt (s : string) : number :=
  let s1 := trim_start s in
  let '(sign, s2) :=
    match s1 with
    | String c r =>
        if Ascii.eqb c "-"%char then (-1, r)
        else if Ascii.eqb c "+"%char then (1, r)
        else (1, s1)
    | EmptyString => (1, s1)
    end in
  match s2 with
  | String c _ => if is_digit c then to_double (sign * parse_digits 0 s2) else NaN
  | EmptyString => NaN
  end.

(** Decimal digits of [n], most significant first, in front of [acc]. *)
Fixpoint show_digits (fuel : nat) (n : Z) (acc : string) : string :=
  let acc' := String (digit_char (n mod 10)) acc in
  match fuel with
  | O => acc'
  | S f => if n <? 10 then acc' else show_digits f (n / 10) acc'
  end.

(** Number-to-string conversion of an integer of at most 2^53 in
    magnitude, as a template literal does it.  (A greater double is
    printed with the fewest digits that tell it from its neighbours; no
    bound of a range that is streamed is that great.) *)
Definition show_Z (z : Z) : string :=
  if z <? 0
  then String "-"%char (show_digits (Z.to_nat (Z.log2 (- z))) (- z) EmptyString)
  else show_digits (Z.to_nat (Z.log2 z)) z EmptyString.

Definition show (n : number) : string :=
  match n with
  | NaN => "NaN"
  | Int z => show_Z z
  | Inf => "Infinity"
  | NegInf => "-Infinity"
  end.

End JS.

(* ===================================================================== *)
(** ** The filename-hint parser *)
(* ===================================================================== *)

(** The three values [parseFromFilename] returns. *)
Record Hints : Type := mkHints {
  hint_artist : string;
  hint_title : string;
  hint_genre : string
}.

(** The tail [[^/.]+$] of the extension regex: what is left of the input
    is not empty and holds neither a slash nor a dot. *)
Definition ext_tail (s : string) : bool :=
  JS.truthy s
  && JS.all_chars (fun c => negb (Ascii.eqb c "/"%char) && negb (Ascii.eqb c "."%char)) s.

(** [name.replace(/\.[^/.]+$/, '')]: the leftmost dot from which the regex
    matches up to the end of the input is where the name is cut. *)
Fixpoint strip_ext (name : string) : string :=
  match name with
  | EmptyString => EmptyString
  | String c r =>
      if Ascii.eqb c "."%char && ext_tail r then EmptyString
      else String c (strip_ext r)
  end.

(** The match of [/(.*?)-(.*?)(?:\s*\[(.*?)\])?$/], written piece by piece
    in the order the backtracking matcher tries the alternatives. *)

(** [(.*?)\]$] : the lazy third group ends at a closing bracket that is
    the last unit of the input. *)
Fixpoint genre_close (s : string) : option string :=
  match s with
  | EmptyString => None
  | String c r =>
      if Ascii.eqb c "]"%char && negb (JS.truthy r) then Some EmptyString
      else if JS.is_dot c then String c <$> genre_close r
      else None
  end.

(** [\s*\[(.*?)\]$] : the greedy white space stops in front of a unit that
    is not white space, so giving some of it back never finds a bracket. *)
Definition genre_group (s : string) : option string :=
  match JS.trim_start s with
  | String c r => if Ascii.eqb c "["%char then genre_close r else None
  | EmptyString => None
  end.

(** [(.*?)(?:\s*\[(.*?)\])?$] : at each length of the lazy second group the
    bracket group is tried first, then the end of the input without it. *)
Fixpoint title_tail (s : string) : option (string * option string) :=
  match genre_group s with
  | Some g => Some (EmptyString, Some g)
  | None =>
      match s with
      | EmptyString => Some (EmptyString, None)
      | String c r =>
          if JS.is_dot c
          then (fun '(t, g) => (String c t, g)) <$> title_tail r
          else None
      end
  end.

(** The whole regex from a fixed start: the lazy first group stops at the
    first hyphen from which the rest matches. *)
Fixpoint match_from (s : string) : option (string * string * option string) :=
  match s with
  | EmptyString => None
  | String c r =>
      let longer :=
        if JS.is_dot c
        then (fun '(a, t, g) => (String c a, t, g)) <$> match_from r
        else None in
      if Ascii.eqb c "-"%char
      then match title_tail r with
           | Some (t, g) => Some (EmptyString, t, g)
           | None => longer
           end
      else longer
  end.

(** [s.match(re)] for the regex above, which is not anchored at the start:
    the leftmost start that matches wins.  The result is the groups
    g[1], g[2] and g[3] ([None] for an unmatched group). *)
Fixpoint regex_match (s : string) : option (string * string * option string) :=
  match match_from s with
  | Some m => Some m
  | None =>
      match s with
      | EmptyString => None
      | String _ r => regex_match r
      end
  end.

Definition parseFromFilename (name : string) : Hints :=
  let withoutExt := strip_ext name in
  match regex_match withoutExt with
  | Some (g1, g2, g3) =>
      {| hint_artist := JS.trim g1;
         hint_title := JS.trim g2;
         hint_genre := JS.trim (default EmptyString g3) |}
  | None =>
      {| hint_title := withoutExt;
         hint_artist := EmptyString;
         hint_genre := EmptyString |}
  end.

(* ===================================================================== *)
(** ** The data model: tracks, playlists, the store *)
(* ===================================================================== *)

(** The [type] field of a track: ['file'] or ['url']. *)
Inductive kind : Type := TFile | TUrl.

Definition kind_eqb (a b : kind) : bool :=
  match a, b with
  | TFile, TFile | TUrl, TUrl => true
  | _, _ => false
  end.

(** A track object.  An uploaded track has [path] and no [src]; a remote
    one has [src] and no [path]; an absent field reads as [undefined].
    [duration] is a number of seconds. *)
Module Track.
Record t : Type := mk {
  id : string;
  type : kind;
  path : option string;
  src : option string;
  title : string;
  artist : string;
  album : string;
  genre : string;
  duration : Q
}.
End Track.

Module Playlist.
Record t : Type := mk {
  id : string;
  name : string;
  trackIds : list string
}.
End Playlist.

(** The value kept in db.json: [{ tracks: [...], playlists: {...} }].
    [playlists] is an object used as a map from playlist id to playlist;
    the map holds the properties the object itself has, which are the ones
    [JSON.stringify] writes and [Object.values] lists.  The lookup
    [db.playlists[id]] goes on to [Object.prototype] when the object has
    no property [id]: see [get_property]. *)
Record Store : Type := mkStore {
  tracks : list Track.t;
  playlists : gmap string Playlist.t
}.

Definition empty_store : Store := {| tracks := []; playlists := ∅ |}.

(** What a lookup in an object finds on [Object.prototype]: one of its
    methods, the prototype object itself (through the accessor
    [__proto__]), or the string that was assigned to its property [name]. *)
Inductive Inherited : Type :=
| ProtoFunction
| ProtoObject
| ProtoName (s : string).

(** The methods of [Object.prototype]. *)
Definition Object_prototype_methods : list string :=
  ["constructor"; "hasOwnProperty"; "isPrototypeOf"; "propertyIsEnumerable";
   "toLocaleString"; "toString"; "valueOf"; "__defineGetter__";
   "__defineSetter__"; "__lookupGetter__"; "__lookupSetter__"].

(** [Object.prototype[key]], where [inherited_name] is the present value of
    [Object.prototype.name] ([None] for [undefined]). *)
Definition inherited_property (inherited_name : option string) (key : string)
  : option Inherited :=
  if String.eqb key "__proto__" then Some ProtoObject
  else if bool_decide (key ∈ Object_prototype_methods) then Some ProtoFunction
  else if String.eqb key "name" then ProtoName <$> inherited_name
  else None.

(** [o[key]] for an object [o] made by [JSON.parse] or an object literal:
    a property of the object itself, else what [Object.prototype] has
    under that name, else [undefined]. *)
Definition get_property (inherited_name : option string)
    (o : gmap string Playlist.t) (key : string)
  : option (Playlist.t + Inherited) :=
  match o !! key with
  | Some pl => Some (inl pl)
  | None => inr <$> inherited_property inherited_name key
  end.

(** Truthiness of what a lookup gives: objects and functions are truthy,
    a string unless it is empty, [undefined] is not. *)
Definition truthy_property (v : option (Playlist.t + Inherited)) : bool :=
  match v with
  | Some (inr (ProtoName s)) => JS.truthy s
  | Some _ => true
  | None => false
  end.

(* ===================================================================== *)
(** ** The world a handler runs in, and the monad of handlers *)
(* ===================================================================== *)

(** The text of db.json, known by what [JSON.parse] makes of it: a text
    it rejects, or the text [JSON.stringify] gives for a store, which it
    parses back to that store. *)
Inductive Document : Type :=
| Malformed (raw : string)
| Json (db : Store).

(** The disk: db.json (absent before the first write), the files of the
    uploads directory by name, and the stores [writeDB] was called with,
    the latest first.  And of the server process the one thing a handler
    can change for the requests that follow: the property [name] of
    [Object.prototype], [undefined] ([None]) when the process starts. *)
Record World : Type := mkWorld {
  data_file : option Document;
  uploads : gmap string (list Byte.byte);
  written : list Store;
  proto_name : option string
}.

(** The outcome of a computation that may throw. *)
Inductive result (A : Type) : Type :=
| Ok (a : A)
| Throw (e : string).
Arguments Ok {A} a.
Arguments Throw {A} e.

(** Handlers read and write the world and may throw. *)
Definition M (A : Type) : Type := World -> result A * World.

Definition ret {A} (a : A) : M A := fun w => (Ok a, w).

Definition throw {A} (e : string) : M A := fun w => (Throw e, w).

Definition bind {A B} (m : M A) (k : A -> M B) : M B :=
  fun w =>
    match m w with
    | (Ok a, w') => k a w'
    | (Throw e, w') => (Throw e, w')
    end.

(** [try { m } catch (e) { h e }] *)
Definition try_catch {A} (m : M A) (h : string -> M A) : M A :=
  fun w =>
    match m w with
    | (Ok a, w') => (Ok a, w')
    | (Throw e, w') => h e w'
    end.

Notation "x <- c1 ;; c2" := (bind c1 (fun x => c2))
  (at level 100, c1 at next level, c2 at level 200, right associativity,
   only parsing).
Notation "c1 ;; c2" := (bind c1 (fun _ => c2))
  (at level 100, c2 at level 200, right associativity, only parsing).

(** [fs.readFile(DATA_FILE, 'utf-8')] *)
Definition fs_readFile : M Document :=
  fun w =>
    match data_file w with
    | Some d => (Ok d, w)
    | None => (Throw "ENOENT", w)
    end.

(** [JSON.parse(raw)] *)
Definition JSON_parse (raw : Document) : M Store :=
  match raw with
  | Json db => ret db
  | Malformed _ => throw "SyntaxError"
  end.

(** [JSON.stringify(db, null, 2)] *)
Definition JSON_stringify (db : Store) : Document := Json db.

(** [fs.writeFile(DATA_FILE, text, 'utf-8')] *)
Definition fs_writeFile (text : Document) : M unit :=
  fun w =>
    (Ok tt, {| data_file := Some text; uploads := uploads w; written := written w; proto_name := proto_name w |}).

(** [fs.unlink(full)] for a file of the uploads directory. *)
Definition fs_unlink (full : string) : M unit :=
  fun w =>
    match uploads w !! full with
    | Some _ =>
        (Ok tt, {| data_file := data_file w;
                   uploads := delete full (uploads w);
                   written := written w; proto_name := proto_name w |})
    | None => (Throw "ENOENT", w)
    end.

(** [statSync(full).size]: the length of the file, files being shorter
    than 2^53 bytes. *)
Definition statSync_size (full : string) : M Z :=
  fun w =>
    match uploads w !! full with
    | Some content => (Ok (Z.of_nat (length content)), w)
    | None => (Throw "ENOENT", w)
    end.

(** [path.join(UPLOAD_DIR, p)]: files of the uploads directory are named
    by their path relative to it; joining [undefined] throws. *)
Definition path_join_uploads (p : option string) : M string :=
  match p with
  | Some rel => ret rel
  | None => throw "ERR_INVALID_ARG_TYPE"
  end.

Definition readDB : M Store :=
  try_catch
    (raw <- fs_readFile ;; JSON_parse raw)
    (fun _ => ret empty_store).

(** Bookkeeping that the source does not have: the store [writeDB] was
    called with is put on the list [written], so that a handler that
    returns before the write can be told from one that writes the store
    back unchanged. *)
Definition record_write (db : Store) : M unit :=
  fun w =>
    (Ok tt, {| data_file := data_file w;
               uploads := uploads w;
               written := db :: written w; proto_name := proto_name w |}).

Definition writeDB (db : Store) : M unit :=
  fs_writeFile (JSON_stringify db) ;;
  record_write db.

(** [Object.prototype.name], read and assigned. *)
Definition Object_prototype_name : M (option string) :=
  fun w => (Ok (proto_name w), w).

Definition set_Object_prototype_name (s : string) : M unit :=
  fun w =>
    (Ok tt, {| data_file := data_file w;
               uploads := uploads w;
               written := written w;
               proto_name := Some s |}).

(** [db.playlists[id]], as the test [if (!pl) return ...] that follows it
    in every handler lets it through: [None] when the handler returns
    there. *)
Definition playlists_get (db : Store) (id : string)
  : M (option (Playlist.t + Inherited)) :=
  inherited_name <- Object_prototype_name ;;
  let pl := get_property inherited_name (playlists db) id in
  ret (if truthy_property pl then pl else None).

(** [const { name } = req.body || {}], where [own] is the property [name]
    of the parsed body itself ([None] when the body has none): a body
    without the property inherits it from [Object.prototype]. *)
Definition body_name (own : option string) : M (option string) :=
  match own with
  | Some s => ret (Some s)
  | None => Object_prototype_name
  end.

(* ===================================================================== *)
(** ** Requests and responses *)
(* ===================================================================== *)

(** What a handler sends.  [res.json(v)] is recorded by the shape of [v],
    [res.status(n).end()] as [EndEmpty], and
    [createReadStream(full, range).pipe(res)] by the arguments of the
    stream. *)
Inductive Body : Type :=
| EndEmpty
| JsonError (error : string)                (* { ok: false, error } *)
| JsonOk                                    (* { ok: true } *)
| JsonOkTracks (created : list Track.t)     (* { ok: true, tracks } *)
| JsonOkTrack (track : Track.t)             (* { ok: true, track } *)
| JsonTracks (all : list Track.t)           (* { tracks } *)
| JsonPlaylists (all : gmap string Playlist.t)  (* { playlists } *)
| JsonOkPlaylist (playlist : Playlist.t)    (* { ok: true, playlist } *)
| JsonOkInherited (playlist : Inherited)    (* the same, with what the
                                               lookup found on
                                               Object.prototype *)
| FileStream (full : string) (range : option (JS.number * JS.number)).

Inductive HeaderValue : Type :=
| HStr (s : string)
| HNum (n : JS.number).

(** Status, the headers the handler itself sets (in [writeHead]), body. *)
Record Response : Type := mkResponse {
  status : Z;
  headers : list (string * HeaderValue);
  body : Body
}.

(** [res.status(code).json(v)] and [res.json(v)] (status 200). *)
Definition json (code : Z) (v : Body) : Response :=
  {| status := code; headers := []; body := v |}.

(** [res.status(code).end()] *)
Definition end_ (code : Z) : Response :=
  {| status := code; headers := []; body := EndEmpty |}.

(** What [mm.parseFile] found: [metadata.common] and [metadata.format]. *)
Record Metadata : Type := mkMetadata {
  common_title : option string;
  common_artist : option string;
  common_album : option string;
  common_genre : option (list string);
  format_duration : option Q
}.

(** One entry of [req.files], with what the environment supplies while it
    is handled: the clock multer names the stored file with, the uuid
    drawn for the track, and the outcome of the metadata extraction. *)
Record UploadedFile : Type := mkUploadedFile {
  originalname : string;
  content : list Byte.byte;
  date_now : Z;
  file_uuid : string;
  parsed : result Metadata
}.

(** multer's [filename] callback: [`${Date.now()}-${file.originalname}`]. *)
Definition filename (f : UploadedFile) : string :=
  JS.show_Z (date_now f) +:+ "-" +:+ originalname f.

(** The JSON body of POST /api/music/url. *)
Record UrlBody : Type := mkUrlBody {
  body_url : option string;
  body_title : option string;
  body_artist : option string;
  body_album : option string;
  body_genre : option string
}.

(** The requests of the API.  A parameter named [uuid] is the value
    [uuidv4()] returns while the request is handled: hexadecimal digits
    and hyphens, never the name of a property of [Object.prototype].  A
    [name] is the property [name] of the parsed body, [None] when the body
    has no such property. *)
Inductive Request : Type :=
| PostMusicUpload (files : list UploadedFile)
| PostMusicUrl (b : UrlBody) (uuid : string)
| GetMusic
| DeleteMusic (id : string)
| GetMusicStream (id : string) (range : option string)
| GetPlaylists
| PostPlaylists (name : option string) (uuid : string)
| PutPlaylist (id : string) (name : option string)
| DeletePlaylist (id : string)
| PostPlaylistTracks (id : string) (trackId : option string)
| DeletePlaylistTracks (id : string) (trackId : string).

(** [arr.findIndex(p)], with [None] for -1. *)
Fixpoint findIndex {A} (p : A -> bool) (l : list A) : option nat :=
  match l with
  | [] => None
  | x :: r => if p x then Some O else S <$> findIndex p r
  end.

(** [x => x.id === id] *)
Definition has_id (id : string) (x : Track.t) : bool :=
  String.eqb (Track.id x) id.

(** [pl.trackIds.filter(x => x !== id)] *)
Definition unlink_track (id : string) (pl : Playlist.t) : Playlist.t :=
  {| Playlist.id := Playlist.id pl;
     Playlist.name := Playlist.name pl;
     Playlist.trackIds := filter (fun x => x ≠ id) (Playlist.trackIds pl) |}.

(** [arr.includes(x)] *)
Definition includes (x : string) (l : list string) : bool :=
  existsb (String.eqb x) l.

(** The bytes [createReadStream(full, { start, end })] delivers: from
    offset [start] to offset [end] inclusive, as far as the file goes. *)
Definition read_span (content : list Byte.byte) (start end' : Z) : list Byte.byte :=
  take (Z.to_nat (end' - start + 1)) (drop (Z.to_nat start) content).

(** The options [{ start, end }] that [createReadStream] accepts: [start]
    is an integer from 0 to [Number.MAX_SAFE_INTEGER]; [end] is
    [Infinity], or such an integer that is not below [start]. *)
Definition valid_span (start end' : JS.number) : bool :=
  match start with
  | JS.Int s =>
      (0 <=? s) && (s <=? JS.MAX_SAFE_INTEGER)
      && match end' with
         | JS.Inf => true
         | JS.Int e => (0 <=? e) && (e <=? JS.MAX_SAFE_INTEGER) && (s <=? e)
         | _ => false
         end
  | _ => false
  end.

(** The bytes a [FileStream] body pipes to the client from the disk [w]:
    the file, or the part of it between the two offsets. *)
Definition stream_bytes (w : World) (b : Body) : option (list Byte.byte) :=
  match b with
  | FileStream full None => uploads w !! full
  | FileStream full (Some (start, end')) =>
      if valid_span start end'
      then match start, end' with
           | JS.Int s, JS.Int e => (fun c => read_span c s e) <$> uploads w !! full
           | JS.Int s, _ => drop (Z.to_nat s) <$> uploads w !! full
           | _, _ => None
           end
      else None
  | _ => None
  end.

(* ===================================================================== *)
(** ** The route handlers *)
(* ===================================================================== *)

Section Handlers.

(** [mime.getType(path)] of the mime package: the media type it knows
    for the extension of [path], or [null]. *)
Context (mime_getType : string -> option string).

(** *** Music *)

(** The track the upload loop builds for one file: the hints of the file
    name, replaced by the embedded tags when the extraction succeeds. *)
Definition track_of_upload (f : UploadedFile) : Track.t :=
  let hints := parseFromFilename (originalname f) in
  let '(title, artist, album, genre, duration) :=
    match parsed f with
    | Ok metadata =>
        (JS.or_else (JS.or_else (default EmptyString (common_title metadata))
                                (hint_title hints))
                    (originalname f),
         JS.or_else (default EmptyString (common_artist metadata)) (hint_artist hints),
         JS.or_else (default EmptyString (common_album metadata)) EmptyString,
         match common_genre metadata with
         | Some g => JS.or_else (default EmptyString (head g)) EmptyString
         | None => JS.or_else (hint_genre hints) EmptyString
         end,
         default 0%Q (format_duration metadata))
    | Throw _ =>
        (hint_title hints, hint_artist hints, EmptyString, hint_genre hints, 0%Q)
    end in
  {| Track.id := file_uuid f;
     Track.type := TFile;
     Track.path := Some (filename f);
     Track.src := None;
     Track.title := JS.or_else title (originalname f);
     Track.artist := JS.or_else artist EmptyString;
     Track.album := JS.or_else album EmptyString;
     Track.genre := JS.or_else genre EmptyString;
     Track.duration := duration |}.

(** multer's disk storage: every file is written to the uploads
    directory under its [filename]. *)
Definition multer_store (files : list UploadedFile) : M unit :=
  fun w =>
    (Ok tt,
     {| data_file := data_file w;
        uploads := foldl (fun m f => <[filename f := content f]> m) (uploads w) files;
        written := written w; proto_name := proto_name w |}).

(** [upload.array('files', maxCount)] *)
Definition upload_array (maxCount : nat) (files : list UploadedFile) : M unit :=
  if (maxCount <? length files)%nat then throw "LIMIT_UNEXPECTED_FILE"
  else multer_store files.

(** POST /api/music/upload *)
Definition post_music_upload (files : list UploadedFile) : M Response :=
  db <- readDB ;;
  let created := track_of_upload <$> files in
  writeDB {| tracks := tracks db ++ created; playlists := playlists db |} ;;
  ret (json 200 (JsonOkTracks created)).

(** POST /api/music/url *)
Definition post_music_url (b : UrlBody) (uuid : string) : M Response :=
  match body_url b with
  | Some url =>
      if negb (JS.truthy url) then ret (json 400 (JsonError "url required"))
      else
        let title := default EmptyString (body_title b) in
        let artist := default EmptyString (body_artist b) in
        let album := default EmptyString (body_album b) in
        let genre := default EmptyString (body_genre b) in
        db <- readDB ;;
        let name :=
          JS.or_else (default EmptyString (JS.pop (JS.split "/" url))) "Stream" in
        let hints := parseFromFilename name in
        let track :=
          {| Track.id := uuid;
             Track.type := TUrl;
             Track.path := None;
             Track.src := Some url;
             Track.title := JS.or_else title (JS.or_else (hint_title hints) name);
             Track.artist := JS.or_else artist (JS.or_else (hint_artist hints) EmptyString);
             Track.album := JS.or_else album EmptyString;
             Track.genre := JS.or_else genre (JS.or_else (hint_genre hints) EmptyString);
             Track.duration := 0%Q |} in
        writeDB {| tracks := tracks db ++ [track]; playlists := playlists db |} ;;
        ret (json 200 (JsonOkTrack track))
  | None => ret (json 400 (JsonError "url required"))
  end.

(** GET /api/music *)
Definition get_music : M Response :=
  db <- readDB ;;
  ret (json 200 (JsonTracks (tracks db))).

(** DELETE /api/music/:id *)
Definition delete_music (id : string) : M Response :=
  db <- readDB ;;
  match findIndex (has_id id) (tracks db) with
  | None => ret (json 404 (JsonError "not found"))
  | Some idx =>
      match tracks db !! idx with
      | None => throw "TypeError"
      | Some t =>
          let tracks' := delete idx (tracks db) in
          let playlists' := unlink_track id <$> playlists db in
          (if kind_eqb (Track.type t) TFile && JS.truthy_opt (Track.path t)
           then full <- path_join_uploads (Track.path t) ;;
                try_catch (fs_unlink full) (fun _ => ret tt)
           else ret tt) ;;
          writeDB {| tracks := tracks'; playlists := playlists' |} ;;
          ret (json 200 JsonOk)
      end
  end.

(** [createReadStream(full, options)] for a file that exists: the
    options are checked when the stream is made, and the call throws on
    those that are not accepted. *)
Definition createReadStream (full : string) (options : option (JS.number * JS.number))
  : M Body :=
  match options with
  | Some (start, end') =>
      if valid_span start end' then ret (FileStream full options)
      else throw "ERR_OUT_OF_RANGE"
  | None => ret (FileStream full None)
  end.

(** The streaming route once the file is known to exist with [total]
    bytes: the two branches of [if (range)].  [res.writeHead] only keeps
    the head, which goes out with the first bytes of the stream: when
    [createReadStream] throws, the handler has sent nothing. *)
Definition stream_file (full : string) (total : Z) (range : option string) : M Response :=
  let contentType := default "audio/mpeg" (mime_getType full) in
  match range with
  | Some (String _ _ as range) =>
      let parts := JS.split "-" (JS.replace_first "bytes=" "" range) in
      let start := JS.parseInt (default EmptyString (parts !! 0%nat)) in
      let end' :=
        if JS.truthy_opt (parts !! 1%nat)
        then JS.parseInt (default EmptyString (parts !! 1%nat))
        else JS.Int (total - 1) in
      let chunk := JS.add (JS.sub end' start) (JS.Int 1) in
      let head :=
        [("Content-Range",
          HStr ("bytes " +:+ JS.show start +:+ "-" +:+ JS.show end'
                +:+ "/" +:+ JS.show_Z total));
         ("Accept-Ranges", HStr "bytes");
         ("Content-Length", HNum chunk);
         ("Content-Type", HStr contentType)] in
      stream <- createReadStream full (Some (start, end')) ;;
      ret {| status := 206; headers := head; body := stream |}
  | _ =>
      let head :=
        [("Content-Length", HNum (JS.Int total));
         ("Content-Type", HStr contentType)] in
      stream <- createReadStream full None ;;
      ret {| status := 200; headers := head; body := stream |}
  end.

(** GET /api/music/stream/:id, with the [Range] header of the request. *)
Definition get_music_stream (id : string) (range : option string) : M Response :=
  db <- readDB ;;
  match find (has_id id) (tracks db) with
  | None => ret (end_ 404)
  | Some t =>
      if negb (kind_eqb (Track.type t) TFile) then ret (end_ 400)
      else
        full <- path_join_uploads (Track.path t) ;;
        stats <- try_catch (size <- statSync_size full ;; ret (Some size))
                           (fun _ => ret None) ;;
        match stats with
        | None => ret (end_ 404)
        | Some total => stream_file full total range
        end
  end.

(** *** Playlists *)

(** GET /api/playlists *)
Definition get_playlists : M Response :=
  db <- readDB ;;
  ret (json 200 (JsonPlaylists (playlists db))).

(** [!name || !name.trim()] for a name that may be missing. *)
Definition name_missing (name : option string) : bool :=
  negb (JS.truthy_opt name)
  || negb (JS.truthy (JS.trim (default EmptyString name))).

(** POST /api/playlists *)
Definition post_playlists (name : option string) (uuid : string) : M Response :=
  name <- body_name name ;;
  if name_missing name then ret (json 400 (JsonError "name required"))
  else
    db <- readDB ;;
    let id := uuid in
    let pl := {| Playlist.id := id;
                 Playlist.name := JS.trim (default EmptyString name);
                 Playlist.trackIds := [] |} in
    let db' := {| tracks := tracks db; playlists := <[id := pl]> (playlists db) |} in
    writeDB db' ;;
    match playlists db' !! id with
    | Some created => ret (json 200 (JsonOkPlaylist created))
    | None => throw "TypeError"
    end.

(** PUT /api/playlists/:id.  What the lookup finds on [Object.prototype]
    passes the test [!pl] like a playlist.  The module is in strict mode,
    so the assignment [pl.name = ...] throws on a function (whose [name]
    cannot be written) and on a string; on [Object.prototype] itself it
    gives every object of the process the property. *)
Definition put_playlist (id : string) (name : option string) : M Response :=
  name <- body_name name ;;
  db <- readDB ;;
  pl <- playlists_get db id ;;
  match pl with
  | None => ret (json 404 (JsonError "not found"))
  | Some (inl pl) =>
      let pl' :=
        if negb (name_missing name)
        then {| Playlist.id := Playlist.id pl;
                Playlist.name := JS.trim (default EmptyString name);
                Playlist.trackIds := Playlist.trackIds pl |}
        else pl in
      writeDB {| tracks := tracks db; playlists := <[id := pl']> (playlists db) |} ;;
      ret (json 200 (JsonOkPlaylist pl'))
  | Some (inr v) =>
      (if negb (name_missing name)
       then match v with
            | ProtoObject =>
                set_Object_prototype_name (JS.trim (default EmptyString name))
            | _ => throw "TypeError"
            end
       else ret tt) ;;
      writeDB db ;;
      ret (json 200 (JsonOkInherited v))
  end.

(** DELETE /api/playlists/:id.  [delete] of a property the object does
    not have itself does nothing. *)
Definition delete_playlist (id : string) : M Response :=
  db <- readDB ;;
  pl <- playlists_get db id ;;
  match pl with
  | None => ret (json 404 (JsonError "not found"))
  | Some _ =>
      writeDB {| tracks := tracks db; playlists := delete id (playlists db) |} ;;
      ret (json 200 JsonOk)
  end.

(** POST /api/playlists/:id/tracks.  A missing [trackId] is
    [undefined], which is the id of no track.  What the lookup finds on
    [Object.prototype] has no [trackIds]: [pl.trackIds.includes] throws. *)
Definition post_playlist_tracks (id : string) (trackId : option string) : M Response :=
  db <- readDB ;;
  pl <- playlists_get db id ;;
  match pl with
  | None => ret (json 404 (JsonError "playlist not found"))
  | Some pl =>
      match trackId with
      | None => ret (json 400 (JsonError "track not found"))
      | Some tid =>
          match find (has_id tid) (tracks db) with
          | None => ret (json 400 (JsonError "track not found"))
          | Some _ =>
              match pl with
              | inl pl =>
                  let pl' :=
                    if negb (includes tid (Playlist.trackIds pl))
                    then {| Playlist.id := Playlist.id pl;
                            Playlist.name := Playlist.name pl;
                            Playlist.trackIds := Playlist.trackIds pl ++ [tid] |}
                    else pl in
                  writeDB {| tracks := tracks db;
                             playlists := <[id := pl']> (playlists db) |} ;;
                  ret (json 200 (JsonOkPlaylist pl'))
              | inr _ => throw "TypeError"
              end
          end
      end
  end.

(** DELETE /api/playlists/:id/tracks/:trackId.  What the lookup finds on
    [Object.prototype] has no [trackIds]: [pl.trackIds.filter] throws. *)
Definition delete_playlist_tracks (id trackId : string) : M Response :=
  db <- readDB ;;
  pl <- playlists_get db id ;;
  match pl with
  | None => ret (json 404 (JsonError "playlist not found"))
  | Some (inl pl) =>
      let pl' := unlink_track trackId pl in
      writeDB {| tracks := tracks db; playlists := <[id := pl']> (playlists db) |} ;;
      ret (json 200 (JsonOkPlaylist pl'))
  | Some (inr _) => throw "TypeError"
  end.

(** *** The server *)

(** The route table. *)
Definition handle (req : Request) : M Response :=
  match req with
  | PostMusicUpload files => upload_array 20 files ;; post_music_upload files
  | PostMusicUrl b uuid => post_music_url b uuid
  | GetMusic => get_music
  | DeleteMusic id => delete_music id
  | GetMusicStream id range => get_music_stream id range
  | GetPlaylists => get_playlists
  | PostPlaylists name uuid => post_playlists name uuid
  | PutPlaylist id name => put_playlist id name
  | DeletePlaylist id => delete_playlist id
  | PostPlaylistTracks id trackId => post_playlist_tracks id trackId
  | DeletePlaylistTracks id trackId => delete_playlist_tracks id trackId
  end.

(** The requests that can write: all but the three GET routes. *)
Definition mutating (req : Request) : bool :=
  match req with
  | GetMusic | GetMusicStream _ _ | GetPlaylists => false
  | _ => true
  end.

(** The world after one request, and after a sequence of them served
    one after the other. *)
Definition step (w : World) (req : Request) : World := snd (handle req w).

Definition run (w : World) (reqs : list Request) : World := foldl step w reqs.

(** The store a request finds: what [readDB] returns on the disk [w]. *)
Definition current (w : World) : Store :=
  match fst (readDB w) with
  | Ok db => db
  | Throw _ => empty_store
  end.

(** The status the handler answers with, if it answers.  When it throws
    it has sent nothing; what the client then gets is up to the error
    handling of Express. *)
Definition status_of (req : Request) (w : World) : option Z :=
  match fst (handle req w) with
  | Ok res => Some (status res)
  | Throw _ => None
  end.

End Handlers.

(** Referential integrity: every id in a playlist's sequence is the id of
    a track of the store. *)
Definition ref_integrity (db : Store) : Prop :=
  map_Forall (fun _ pl =>
                Forall (fun tid => tid ∈ Track.id <$> tracks db) (Playlist.trackIds pl))
             (playlists db).

(** The two other rules of the data model: a playlist holds an id at
    most once, and no two tracks share an id. *)
Definition playlists_nodup (db : Store) : Prop :=
  map_Forall (fun _ pl => NoDup (Playlist.trackIds pl)) (playlists db).

Definition unique_ids (db : Store) : Prop := NoDup (Track.id <$> tracks db).

(** The uuids a request draws are fresh for the store [db]: they differ
    from the ids of its tracks and from each other. *)
Definition fresh_uuids (db : Store) (req : Request) : Prop :=
  match req with
  | PostMusicUpload files =>
      NoDup (file_uuid <$> files)
      /\ forall f, f ∈ files -> file_uuid f ∉ Track.id <$> tracks db
  | PostMusicUrl _ uuid => uuid ∉ Track.id <$> tracks db
  | _ => True
  end.

(** The uuids drawn along a sequence of requests are fresh, each for the
    store its request finds. *)
Fixpoint run_fresh (mime_getType : string -> option string) (w : World)
    (reqs : list Request) : Prop :=
  match reqs with
  | [] => True
  | req :: rest =>
      fresh_uuids (current w) req
      /\ run_fresh mime_getType (step mime_getType w req) rest
  end.

(* ===================================================================== *)
(** ** The player of the browser (public/app.js): queue and playback *)
(* ===================================================================== *)

(** The audio element as the queue code uses it: its source, whether it
    is paused, and its position in seconds.  Assigning [audio.src] loads
    the new source, which pauses the element and puts the position back
    to 0; [play()] and [pause()] set [paused]. *)
Module Audio.
Record t : Type := mk {
  src : string;
  paused : bool;
  currentTime : Q
}.
End Audio.

Definition audio_set_src (a : Audio.t) (src : string) : Audio.t :=
  {| Audio.src := src; Audio.paused := true; Audio.currentTime := 0%Q |}.

Definition audio_play (a : Audio.t) : Audio.t :=
  {| Audio.src := Audio.src a; Audio.paused := false;
     Audio.currentTime := Audio.currentTime a |}.

Definition audio_pause (a : Audio.t) : Audio.t :=
  {| Audio.src := Audio.src a; Audio.paused := true;
     Audio.currentTime := Audio.currentTime a |}.

Definition audio_rewind (a : Audio.t) : Audio.t :=
  {| Audio.src := Audio.src a; Audio.paused := Audio.paused a;
     Audio.currentTime := 0%Q |}.

(** The [state] object of the page, the audio element, and the track
    [updateNowPlaying] was last called with ([None] for [null]), which is
    what the now-playing labels show. *)
Module Player.
Record t : Type := mk {
  tracks : list Track.t;
  queue : list string;
  currentIndex : Z;
  audio : Audio.t;
  nowPlaying : option Track.t
}.
End Player.

(** The page when it is loaded. *)
Definition initial_player : Player.t :=
  {| Player.tracks := []; Player.queue := []; Player.currentIndex := -1;
     Player.audio := {| Audio.src := EmptyString; Audio.paused := true;
                        Audio.currentTime := 0%Q |};
     Player.nowPlaying := None |}.

Definition getTrackById (st : Player.t) (id : string) : option Track.t :=
  find (has_id id) (Player.tracks st).

(** [trackToSrc]: the streaming route for a file, the source of a remote
    track ([undefined] when the track has none). *)
Definition trackToSrc (t : Track.t) : option string :=
  match Track.type t with
  | TFile => Some ("/api/music/stream/" +:+ Track.id t)
  | TUrl => Track.src t
  end.

(** [audio.src = trackToSrc(track); audio.play(); updateNowPlaying(track)];
    assigning [undefined] to [audio.src] assigns the string "undefined". *)
Definition start_track (st : Player.t) (i : Z) (track : Track.t) : Player.t :=
  {| Player.tracks := Player.tracks st;
     Player.queue := Player.queue st;
     Player.currentIndex := i;
     Player.audio :=
       audio_play (audio_set_src (Player.audio st)
                     (default "undefined" (trackToSrc track)));
     Player.nowPlaying := Some track |}.

(** [audio.pause()] with the index at [i]. *)
Definition stop_at (st : Player.t) (i : Z) : Player.t :=
  {| Player.tracks := Player.tracks st;
     Player.queue := Player.queue st;
     Player.currentIndex := i;
     Player.audio := audio_pause (Player.audio st);
     Player.nowPlaying := Player.nowPlaying st |}.

(** [playCurrent] and [next] call each other: [playCurrent] on an entry
    whose track is gone calls [next], which moves the index on and calls
    [playCurrent], or pauses at the last entry.  [play_scan] is that loop
    over the entries from index [i] on, [rest] being the queue from [i]. *)
Fixpoint play_scan (st : Player.t) (rest : list string) (i : Z) : Player.t :=
  match rest with
  | [] => st
  | id :: rest' =>
      match getTrackById st id with
      | Some track => start_track st i track
      | None =>
          match rest' with
          | [] => stop_at st i
          | _ :: _ => play_scan st rest' (i + 1)
          end
      end
  end.

Definition playCurrent (st : Player.t) : Player.t :=
  if (Player.currentIndex st <? 0)
     || (Z.of_nat (length (Player.queue st)) <=? Player.currentIndex st)
  then {| Player.tracks := Player.tracks st;
          Player.queue := Player.queue st;
          Player.currentIndex := Player.currentIndex st;
          Player.audio := audio_pause (Player.audio st);
          Player.nowPlaying := None |}
  else play_scan st (drop (Z.to_nat (Player.currentIndex st)) (Player.queue st))
         (Player.currentIndex st).

Definition set_index (st : Player.t) (i : Z) : Player.t :=
  {| Player.tracks := Player.tracks st;
     Player.queue := Player.queue st;
     Player.currentIndex := i;
     Player.audio := Player.audio st;
     Player.nowPlaying := Player.nowPlaying st |}.

Definition set_queue (st : Player.t) (q : list string) : Player.t :=
  {| Player.tracks := Player.tracks st;
     Player.queue := q;
     Player.currentIndex := Player.currentIndex st;
     Player.audio := Player.audio st;
     Player.nowPlaying := Player.nowPlaying st |}.

(** [next], also the handler of the [ended] event. *)
Definition next (st : Player.t) : Player.t :=
  if Player.currentIndex st <? Z.of_nat (length (Player.queue st)) - 1
  then playCurrent (set_index st (Player.currentIndex st + 1))
  else stop_at st (Player.currentIndex st).

(** [prev]: more than three seconds into a track it goes back to the
    start of the track, otherwise to the entry before, if there is one. *)
Definition prev (st : Player.t) : Player.t :=
  if Qlt_le_dec 3 (Audio.currentTime (Player.audio st))
  then {| Player.tracks := Player.tracks st;
          Player.queue := Player.queue st;
          Player.currentIndex := Player.currentIndex st;
          Player.audio := audio_rewind (Player.audio st);
          Player.nowPlaying := Player.nowPlaying st |}
  else if 0 <? Player.currentIndex st
       then playCurrent (set_index st (Player.currentIndex st - 1))
       else st.

(** [arr.splice(start, 0, x)]: a start beyond the end inserts at the end,
    a negative start counts from the end. *)
Definition splice_insert (start : Z) (x : string) (l : list string) : list string :=
  let len := Z.of_nat (length l) in
  let at' := if start <? 0 then Z.max (len + start) 0 else Z.min start len in
  take (Z.to_nat at') l ++ x :: drop (Z.to_nat at') l.

(** [enqueueTrack(id, { playNow })] *)
Definition enqueueTrack (st : Player.t) (id : string) (playNow : bool) : Player.t :=
  if playNow then
    if Player.currentIndex st =? -1
    then playCurrent (set_index (set_queue st [id]) 0)
    else playCurrent
           (set_index
              (set_queue st (splice_insert (Player.currentIndex st + 1) id
                               (Player.queue st)))
              (Player.currentIndex st + 1))
  else
    let st1 := set_queue st (Player.queue st ++ [id]) in
    if Player.currentIndex st =? -1
    then playCurrent (set_index st1 0)
    else st1.

(** The entries [renderQueue] draws, each with its buttons: the indexes of
    the queue whose track is known. *)
Definition rendered (st : Player.t) (idx : nat) : bool :=
  match Player.queue st !! idx with
  | Some id => bool_decide (is_Some (getTrackById st id))
  | None => false
  end.

(** The Play button of entry [idx]. *)
Definition click_play (st : Player.t) (idx : nat) : Player.t :=
  if rendered st idx then playCurrent (set_index st (Z.of_nat idx)) else st.

(** The Remove button of entry [idx]. *)
Definition click_remove (st : Player.t) (idx : nat) : Player.t :=
  if rendered st idx then
    let st1 := set_queue st (delete idx (Player.queue st)) in
    if Z.of_nat idx =? Player.currentIndex st
    then {| Player.tracks := Player.tracks st1;
            Player.queue := Player.queue st1;
            Player.currentIndex := -1;
            Player.audio := audio_rewind (audio_pause (Player.audio st1));
            Player.nowPlaying := None |}
    else if Z.of_nat idx <? Player.currentIndex st
         then set_index st1 (Player.currentIndex st - 1)
         else st1
  else st.

(** The Play button of a playlist. *)
Definition play_playlist (st : Player.t) (pl : Playlist.t) : Player.t :=
  playCurrent (set_index (set_queue st (Playlist.trackIds pl)) 0).

(** The Clear button of the queue. *)
Definition clear_queue (st : Player.t) : Player.t :=
  {| Player.tracks := Player.tracks st;
     Player.queue := [];
     Player.currentIndex := -1;
     Player.audio := audio_pause (Player.audio st);
     Player.nowPlaying := None |}.

(** The play/pause button. *)
Definition toggle_play (st : Player.t) : Player.t :=
  {| Player.tracks := Player.tracks st;
     Player.queue := Player.queue st;
     Player.currentIndex := Player.currentIndex st;
     Player.audio := if Audio.paused (Player.audio st)
                     then audio_play (Player.audio st)
                     else audio_pause (Player.audio st);
     Player.nowPlaying := Player.nowPlaying st |}.

(** [refreshTracks] with the list the server answered. *)
Definition refreshTracks (st : Player.t) (l : list Track.t) : Player.t :=
  {| Player.tracks := l;
     Player.queue := Player.queue st;
     Player.currentIndex := Player.currentIndex st;
     Player.audio := Player.audio st;
     Player.nowPlaying := Player.nowPlaying st |}.

(** What the user and the page can do to the player. *)
Inductive Action : Type :=
| Enqueue (id : string) (playNow : bool)
| ClickPlay (idx : nat)
| ClickRemove (idx : nat)
| PlayPlaylist (pl : Playlist.t)
| ClearQueue
| Next
| Prev
| Ended
| TogglePlay
| Elapsed (seconds : Q)
| Refresh (l : list Track.t).

Definition act (st : Player.t) (a : Action) : Player.t :=
  match a with
  | Enqueue id playNow => enqueueTrack st id playNow
  | ClickPlay idx => click_play st idx
  | ClickRemove idx => click_remove st idx
  | PlayPlaylist pl => play_playlist st pl
  | ClearQueue => clear_queue st
  | Next | Ended => next st
  | Prev => prev st
  | TogglePlay => toggle_play st
  | Elapsed seconds =>
      {| Player.tracks := Player.tracks st;
         Player.queue := Player.queue st;
         Player.currentIndex := Player.currentIndex st;
         Player.audio := {| Audio.src := Audio.src (Player.audio st);
                            Audio.paused := Audio.paused (Player.audio st);
                            Audio.currentTime := seconds |};
         Player.nowPlaying := Player.nowPlaying st |}
  | Refresh l => refreshTracks st l
  end.

Definition acts (st : Player.t) (l : list Action) : Player.t := foldl act st l.

(* ===================================================================== *)
(** ** The page and the server: adding a track to a playlist by name *)
(* ===================================================================== *)

(** [c.toLowerCase()] on one code unit of the Latin-1 range: the letters
    A to Z and the accented capitals (all of 192..222 but the
    multiplication sign, 215) move 32 places up. *)
Definition lower_char (c : ascii) : ascii :=
  let n := JS.code c in
  if ((65 <=? n)%N && (n <=? 90)%N)
     || ((192 <=? n)%N && (n <=? 222)%N && negb (n =? 215)%N)
  then JS.chr (n + 32)%N
  else c.

Fixpoint toLowerCase (s : string) : string :=
  match s with
  | EmptyString => EmptyString
  | String c r => String (lower_char c) (toLowerCase r)
  end.

(** [ensurePlaylist(name)]: POST /api/playlists with the trimmed name,
    then [res.playlist] ([undefined] unless the server sent one). *)
Definition ensurePlaylist (name uuid : string) : M (option Playlist.t) :=
  res <- post_playlists (Some (JS.trim name)) uuid ;;
  ret (match body res with
       | JsonOkPlaylist pl => Some pl
       | _ => None
       end).

(** [p => p.name.toLowerCase() === choice.trim().toLowerCase()] *)
Definition same_name (choice : string) (p : Playlist.t) : bool :=
  String.eqb (toLowerCase (Playlist.name p)) (toLowerCase (JS.trim choice)).

(** [addTrackToPlaylistFlow(trackId)].  [known] is
    [Object.values(state.playlists)], [choice] what the user typed into
    the prompt ([None] when the prompt was cancelled), [uuid] the id the
    server draws if it is asked for a new playlist.  The requests are
    served by the handlers.  The result is [None] when the flow returns
    without a request; otherwise the playlist whose name the final alert
    shows ("Added to ...") and the playlists the page holds after
    [refreshPlaylists]. *)
Definition addTrackToPlaylistFlow (known : list Playlist.t) (choice : option string)
    (trackId uuid : string)
  : M (option (Playlist.t * gmap string Playlist.t)) :=
  match choice with
  | None => ret None
  | Some choice =>
      if negb (JS.truthy choice) || negb (JS.truthy (JS.trim choice)) then ret None
      else
        found <- match find (same_name choice) known with
                 | Some pl => ret (Some pl)
                 | None => ensurePlaylist choice uuid
                 end ;;
        match found with
        | None => throw "TypeError"
        | Some pl =>
            post_playlist_tracks (Playlist.id pl) (Some trackId) ;;
            res <- get_playlists ;;
            ret (Some (pl, match body res with
                           | JsonPlaylists all => all
                           | _ => ∅
                           end))
        end
  end.

(* ===================================================================== *)
(** ** A sample disk *)
(* ===================================================================== *)

(** A disk the statements below are tried on: one uploaded track of 300
    bytes, one remote track, one playlist that holds the uploaded one. *)
Definition sample_content : list Byte.byte :=
  (fun n => default Byte.x00 (Byte.of_N (N.of_nat (n mod 256)))) <$> seq 0 300.

Definition sample_file_track : Track.t :=
  {| Track.id := "t1"; Track.type := TFile;
     Track.path := Some "1700000000000-song.mp3"; Track.src := None;
     Track.title := "song"; Track.artist := ""; Track.album := "";
     Track.genre := ""; Track.duration := 0%Q |}.

Definition sample_url_track : Track.t :=
  {| Track.id := "t2"; Track.type := TUrl;
     Track.path := None; Track.src := Some "http://radio.example/live";
     Track.title := "live"; Track.artist := ""; Track.album := "";
     Track.genre := ""; Track.duration := 0%Q |}.

(** A track whose file has gone from the uploads directory. *)
Definition sample_lost_track : Track.t :=
  {| Track.id := "t3"; Track.type := TFile;
     Track.path := Some "1700000000001-gone.mp3"; Track.src := None;
     Track.title := "gone"; Track.artist := ""; Track.album := "";
     Track.genre := ""; Track.duration := 0%Q |}.

Definition sample_store : Store :=
  {| tracks := [sample_file_track; sample_url_track; sample_lost_track];
     playlists := {[ "p1" := Playlist.mk "p1" "Mix" ["t1"] ]} |}.

Definition sample_world : World :=
  {| data_file := Some (Json sample_store);
     uploads := {[ "1700000000000-song.mp3" := sample_content ]};
     written := []; proto_name := None |}.

Definition sample_absent : World :=
  {| data_file := None; uploads := ∅; written := []; proto_name := None |}.

Definition sample_broken : World :=
  {| data_file := Some (Malformed "{ tracks: "); uploads := ∅; written := []; proto_name := None |}.

Definition sample_mime (full : string) : option string := Some "audio/mpeg".

(** A player that plays the first of three queue entries; the track of
    the second entry is not among the tracks. *)
Definition sample_player : Player.t :=
  {| Player.tracks := [sample_file_track; sample_url_track];
     Player.queue := ["t1"; "gone"; "t2"];
     Player.currentIndex := 0;
     Player.audio := {| Audio.src := "/api/music/stream/t1";
                        Audio.paused := false;
                        Audio.currentTime := 1%Q |};
     Player.nowPlaying := Some sample_file_track |}.

(** Two files as multer hands them to the upload route: one whose tags
    cannot be read, one with tags. *)
Definition sample_upload_a : UploadedFile :=
  {| originalname := "Daft Punk - One More Time [Dance].mp3";
     content := [Byte.x49; Byte.x44; Byte.x33];
     date_now := 1700000000500;
     file_uuid := "u-1";
     parsed := Throw "no tags" |}.

Definition sample_upload_b : UploadedFile :=
  {| originalname := "track02.flac";
     content := [Byte.x66; Byte.x4c; Byte.x61; Byte.x43];
     date_now := 1700000000501;
     file_uuid := "u-2";
     parsed := Ok {| common_title := Some "Veridis Quo";
                     common_artist := None;
                     common_album := Some "Discovery";
                     common_genre := Some ["House"];
                     format_duration := Some 345%Q |} |}.

Example show_199 : JS.show_Z 199 = "199". Proof. reflexivity. Qed.
Example show_neg : JS.show_Z (-1200) = "-1200". Proof. reflexivity. Qed.
Example show_0 : JS.show_Z 0 = "0". Proof. reflexivity. Qed.
Example parse_1 : JS.parseInt " 12ab" = JS.Int 12. Proof. reflexivity. Qed.
Example parse_2 : JS.parseInt "" = JS.NaN. Proof. reflexivity. Qed.
Example parse_3 : JS.parseInt "-7" = JS.Int (-7). Proof. reflexivity. Qed.
Example parse_4 : JS.parseInt "9007199254740993" = JS.Int 9007199254740992.
Proof. reflexivity. Qed.
Example parse_5 : JS.parseInt "9007199254740995" = JS.Int 9007199254740996.
Proof. reflexivity. Qed.
Example double_1 : JS.to_double (10 ^ 308) <> JS.Inf /\ JS.to_double (10 ^ 309) = JS.Inf.
Proof. split; [vm_compute; discriminate | vm_compute; reflexivity]. Qed.
Example split_1 : JS.split "-" "100-199" = ["100"; "199"]. Proof. reflexivity. Qed.
Example split_2 : JS.split "-" "-5" = [""; "5"]. Proof. reflexivity. Qed.
Example split_3 : JS.split "-" "100-" = ["100"; ""]. Proof. reflexivity. Qed.
Example split_4 : JS.split "/" "" = [""]. Proof. reflexivity. Qed.
Example repl_1 : JS.replace_first "bytes=" "" "bytes=0-1" = "0-1". Proof. reflexivity. Qed.
Example trim_1 : JS.trim "  a b  " = "a b". Proof. reflexivity. Qed.

Example pf_1 : parseFromFilename "Daft Punk - One More Time [Dance].mp3"
  = mkHints "Daft Punk" "One More Time" "Dance". Proof. reflexivity. Qed.
Example pf_2 : parseFromFilename "song.mp3" = mkHints "" "song" "". Proof. reflexivity. Qed.
Example pf_3 : parseFromFilename "a-b-c.mp3" = mkHints "a" "b-c" "". Proof. reflexivity. Qed.
Example pf_4 : parseFromFilename "a - b [x] [y].tar.gz" = mkHints "a" "b [x] [y].tar" "". Proof. vm_compute. reflexivity. Qed.

(** The routes on the sample disk. *)
Example stream_sample :
  fst (get_music_stream sample_mime "t1" (Some "bytes=100-199") sample_world)
  = Ok {| status := 206;
          headers := [("Content-Range", HStr "bytes 100-199/300");
                      ("Accept-Ranges", HStr "bytes");
                      ("Content-Length", HNum (JS.Int 100));
                      ("Content-Type", HStr "audio/mpeg")];
          body := FileStream "1700000000000-song.mp3"
                    (Some (JS.Int 100, JS.Int 199)) |}.
Proof. vm_compute. reflexivity. Qed.

Example stream_sample_whole :
  fst (get_music_stream sample_mime "t1" None sample_world)
  = Ok {| status := 200;
          headers := [("Content-Length", HNum (JS.Int 300));
                      ("Content-Type", HStr "audio/mpeg")];
          body := FileStream "1700000000000-song.mp3" None |}.
Proof. vm_compute. reflexivity. Qed.

(** Ranges that [createReadStream] refuses: no start, a start after the
    last byte, an end that is no safe integer. *)
Example stream_sample_refused :
  fst (get_music_stream sample_mime "t1" (Some "bytes=-50") sample_world)
  = Throw "ERR_OUT_OF_RANGE"
  /\ fst (get_music_stream sample_mime "t1" (Some "bytes=300-") sample_world)
     = Throw "ERR_OUT_OF_RANGE"
  /\ fst (get_music_stream sample_mime "t1" (Some "bytes=0-9007199254740993")
            sample_world)
     = Throw "ERR_OUT_OF_RANGE".
Proof. repeat split; vm_compute; reflexivity. Qed.

Example stream_sample_bytes :
  stream_bytes sample_world
    (FileStream "1700000000000-song.mp3" (Some (JS.Int 254, JS.Int 257)))
  = Some [Byte.xfe; Byte.xff; Byte.x00; Byte.x01].
Proof. vm_compute. reflexivity. Qed.

Example delete_sample :
  current (run sample_mime sample_world [DeleteMusic "t1"])
  = {| tracks := [sample_url_track; sample_lost_track];
       playlists := {[ "p1" := Playlist.mk "p1" "Mix" [] ]} |}
  /\ uploads (run sample_mime sample_world [DeleteMusic "t1"]) = ∅.
Proof. split; vm_compute; reflexivity. Qed.

Example upload_sample :
  tracks (current (run sample_mime sample_absent
            [PostMusicUpload
               [{| originalname := "Daft Punk - One More Time [Dance].mp3";
                   content := [Byte.x49; Byte.x44; Byte.x33];
                   date_now := 1700000000000;
                   file_uuid := "u-1";
                   parsed := Throw "no tags" |}]]))
  = [{| Track.id := "u-1"; Track.type := TFile;
        Track.path := Some "1700000000000-Daft Punk - One More Time [Dance].mp3";
        Track.src := None;
        Track.title := "One More Time"; Track.artist := "Daft Punk";
        Track.album := ""; Track.genre := "Dance"; Track.duration := 0%Q |}].
Proof. vm_compute. reflexivity. Qed.

Example url_sample :
  fst (post_music_url
         (mkUrlBody (Some "http://radio.example/streams/") None None None None)
         "u-2" sample_absent)
  = Ok (json 200 (JsonOkTrack
          {| Track.id := "u-2"; Track.type := TUrl; Track.path := None;
             Track.src := Some "http://radio.example/streams/";
             Track.title := "Stream"; Track.artist := "";
             Track.album := ""; Track.genre := ""; Track.duration := 0%Q |})).
Proof. vm_compute. reflexivity. Qed.

(** Ids that only [Object.prototype] knows. *)
Example inherited_sample :
  fst (post_playlist_tracks "constructor" (Some "t1") sample_world) = Throw "TypeError"
  /\ fst (delete_playlist "constructor" sample_world) = Ok (json 200 JsonOk)
  /\ fst (delete_playlist_tracks "toString" "t1" sample_world) = Throw "TypeError"
  /\ fst (put_playlist "__proto__" (Some "x") sample_world)
     = Ok (json 200 (JsonOkInherited ProtoObject))
  /\ fst (handle sample_mime (PostPlaylists None "u1")
            (run sample_mime sample_world [PutPlaylist "__proto__" (Some "x")]))
     = Ok (json 200 (JsonOkPlaylist (Playlist.mk "u1" "x" []))).
Proof. repeat split; vm_compute; reflexivity. Qed.

Example rename_sample :
  playlists (current (run sample_mime sample_world [PutPlaylist "p1" (Some "  ")]))
  = {[ "p1" := Playlist.mk "p1" "Mix" ["t1"] ]}.
Proof. vm_compute. reflexivity. Qed.


(* ===================================================================== *)
(** ** Lemmas on the string primitives *)
(* ===================================================================== *)

Section StringLemmas.

Lemma append_String c a b : String c a +:+ b = String c (a +:+ b).
Proof. reflexivity. Qed.

Lemma has_char_app x a b :
  JS.has_char x (a +:+ b) = JS.has_char x a || JS.has_char x b.
Proof.
  induction a as [|c a IH]; simpl; [reflexivity|].
  rewrite IH. apply orb_assoc.
Qed.

(** A separator-free head is the first part of a split. *)
Lemma split_app sep a b :
  JS.has_char sep a = false ->
  JS.split sep (a +:+ String sep b) = a :: JS.split sep b.
Proof.
  induction a as [|c a IH]; simpl; intros H.
  - rewrite Ascii.eqb_refl. reflexivity.
  - apply orb_false_iff in H as [Hc Ha].
    rewrite Hc, (IH Ha). reflexivity.
Qed.

Lemma split_none sep a :
  JS.has_char sep a = false -> JS.split sep a = [a].
Proof.
  induction a as [|c a IH]; simpl; intros H; [reflexivity|].
  apply orb_false_iff in H as [Hc Ha].
  rewrite Hc, (IH Ha). reflexivity.
Qed.

(** White space only trims to nothing. *)
Lemma trim_start_ws s :
  JS.all_chars JS.is_whitespace s = true -> JS.trim_start s = EmptyString.
Proof.
  induction s as [|c s IH]; simpl; intros H; [reflexivity|].
  apply andb_true_iff in H as [Hc Hs]. rewrite Hc. auto.
Qed.

Lemma trim_ws s :
  JS.all_chars JS.is_whitespace s = true -> JS.trim s = EmptyString.
Proof. intros H. unfold JS.trim. rewrite (trim_start_ws _ H). reflexivity. Qed.

End StringLemmas.

(* ===================================================================== *)
(** ** Printing and reading back a number *)
(* ===================================================================== *)

Section Decimal.

Ltac each_digit d :=
  let H := fresh in
  assert (H : d = 0 \/ d = 1 \/ d = 2 \/ d = 3 \/ d = 4 \/ d = 5 \/ d = 6
              \/ d = 7 \/ d = 8 \/ d = 9) by lia;
  repeat (destruct H as [-> | H]); [..| subst d].

Lemma digit_char_spec d :
  0 <= d <= 9 ->
  JS.is_digit (JS.digit_char d) = true
  /\ JS.digit_val (JS.digit_char d) = d
  /\ Ascii.eqb (JS.digit_char d) "-"%char = false
  /\ JS.is_whitespace (JS.digit_char d) = false
  /\ Ascii.eqb (JS.digit_char d) "+"%char = false.
Proof. intros Hd. each_digit d; vm_compute; auto. Qed.

Lemma mod10_range n : 0 <= n mod 10 <= 9.
Proof. pose proof (Z.mod_pos_bound n 10); lia. Qed.

(** The printed digits start with a digit. *)
Lemma show_digits_head fuel n acc :
  exists c r, JS.show_digits fuel n acc = String c r /\ JS.is_digit c = true
              /\ Ascii.eqb c "-"%char = false
              /\ Ascii.eqb c "+"%char = false
              /\ JS.is_whitespace c = false.
Proof.
  revert n acc. induction fuel as [|f IH]; intros n acc; simpl.
  - destruct (digit_char_spec (n mod 10) (mod10_range n)) as (?&?&?&?&?).
    eauto 10.
  - destruct (n <? 10); [|apply IH].
    destruct (digit_char_spec (n mod 10) (mod10_range n)) as (?&?&?&?&?).
    eauto 10.
Qed.

(** They hold no hyphen. *)
Lemma show_digits_no_hyphen fuel n acc :
  JS.has_char "-" (JS.show_digits fuel n acc) = JS.has_char "-" acc.
Proof.
  revert n acc. induction fuel as [|f IH]; intros n acc;
    cbn [JS.show_digits JS.has_char];
    destruct (digit_char_spec (n mod 10) (mod10_range n)) as (_&_&Hm&_).
  - cbn [JS.has_char]. rewrite Hm. reflexivity.
  - destruct (n <? 10).
    + cbn [JS.has_char]. rewrite Hm. reflexivity.
    + rewrite IH. cbn [JS.has_char]. rewrite Hm. reflexivity.
Qed.

(** Reading the printed digits of [n] shifts the accumulator and adds
    [n], when the fuel covers the digits of [n]. *)
Lemma parse_show_digits fuel :
  forall n a acc,
    0 <= n < 10 ^ (Z.of_nat fuel + 1) ->
    exists k, 0 <= k /\
      JS.parse_digits a (JS.show_digits fuel n acc)
      = JS.parse_digits (a * 10 ^ k + n) acc.
Proof.
  induction fuel as [|f IH]; intros n a acc Hn.
  - exists 1. split; [lia|]. simpl.
    assert (n mod 10 = n) as -> by (apply Z.mod_small; simpl in Hn; lia).
    destruct (digit_char_spec n ltac:(simpl in Hn; lia)) as (->&->&_).
    f_equal. lia.
  - simpl JS.show_digits. destruct (Z.ltb_spec n 10) as [Hlt|Hge].
    + exists 1. split; [lia|]. simpl.
      assert (n mod 10 = n) as -> by (apply Z.mod_small; lia).
      destruct (digit_char_spec n ltac:(lia)) as (->&->&_).
      f_equal. lia.
    + assert (Hpow : 10 ^ (Z.of_nat (S f) + 1) = 10 * 10 ^ (Z.of_nat f + 1)).
      { rewrite <- Z.pow_succ_r by lia. f_equal. lia. }
      destruct (IH (n / 10) a (String (JS.digit_char (n mod 10)) acc))
        as (k & Hk & Heq).
      { split; [apply Z.div_pos; lia|].
        apply Z.div_lt_upper_bound; lia. }
      exists (k + 1). split; [lia|]. rewrite Heq. simpl.
      destruct (digit_char_spec (n mod 10) (mod10_range n)) as (->&->&_).
      f_equal. rewrite Z.pow_add_r by lia.
      pose proof (Z.div_mod n 10 ltac:(lia)). lia.
Qed.

Lemma log2_fuel z : 0 <= z -> z < 10 ^ (Z.of_nat (Z.to_nat (Z.log2 z)) + 1).
Proof.
  intros Hz. rewrite Z2Nat.id by apply Z.log2_nonneg.
  destruct (Z.eq_dec z 0) as [->|Hnz]; [reflexivity|].
  pose proof (Z.log2_spec z ltac:(lia)) as [_ Hlt].
  eapply Z.lt_le_trans; [exact Hlt|].
  unfold Z.succ. apply Z.pow_le_mono_l. lia.
Qed.

(** An integer of at most 2^53 in magnitude is a double. *)
Lemma to_double_safe z : - 2 ^ 53 <= z <= 2 ^ 53 -> JS.to_double z = JS.Int z.
Proof.
  intros Hz.
  destruct (Z.eq_dec z (2 ^ 53)) as [->|Hhi]; [vm_compute; reflexivity|].
  destruct (Z.eq_dec z (- 2 ^ 53)) as [->|Hlo]; [vm_compute; reflexivity|].
  unfold JS.to_double. cbv zeta.
  destruct (Z.leb_spec (Z.log2 (Z.abs z) - 52) 0) as [_|Hlog]; [reflexivity|].
  exfalso.
  destruct (Z.eq_dec (Z.abs z) 0) as [H0|H0]; [rewrite H0 in Hlog; simpl in Hlog; lia|].
  assert (Hlt : Z.log2 (Z.abs z) < 53) by (apply Z.log2_lt_pow2; lia).
  lia.
Qed.

(** [parseInt] reads back what the number-to-string conversion prints. *)
Lemma parseInt_show z : 0 <= z <= 2 ^ 53 -> JS.parseInt (JS.show_Z z) = JS.Int z.
Proof.
  intros [Hz Hmax]. unfold JS.show_Z.
  destruct (Z.ltb_spec z 0) as [?|_]; [lia|].
  destruct (parse_show_digits _ z 0 EmptyString (conj Hz (log2_fuel z Hz)))
    as (k & _ & Hparse).
  destruct (show_digits_head (Z.to_nat (Z.log2 z)) z EmptyString)
    as (c & r & Hshow & Hdig & Hminus & Hplus & Hws).
  unfold JS.parseInt. rewrite Hshow in *. simpl JS.trim_start.
  rewrite Hws, Hminus, Hplus, Hdig, Hparse.
  cbn [JS.parse_digits]. rewrite <- (to_double_safe z) by lia. f_equal. lia.
Qed.

Lemma show_no_hyphen z : 0 <= z -> JS.has_char "-" (JS.show_Z z) = false.
Proof.
  intros Hz. unfold JS.show_Z.
  destruct (Z.ltb_spec z 0) as [?|_]; [lia|].
  apply show_digits_no_hyphen.
Qed.

Lemma show_truthy z : JS.truthy (JS.show_Z z) = true.
Proof.
  unfold JS.show_Z. destruct (z <? 0); [reflexivity|].
  destruct (show_digits_head (Z.to_nat (Z.log2 z)) z EmptyString)
    as (c & r & -> & _). reflexivity.
Qed.

End Decimal.

(* ===================================================================== *)
(** ** The filename-hint parser *)
(* ===================================================================== *)

Section HintParser.

(** The regex holds a literal hyphen: a match needs one in the input. *)
Lemma match_from_hyphen s m :
  match_from s = Some m -> JS.has_char "-" s = true.
Proof.
  revert m. induction s as [|c s IH]; intros m; cbn [match_from JS.has_char].
  - discriminate.
  - destruct (Ascii.eqb c "-"); [reflexivity|].
    destruct (JS.is_dot c); [|discriminate].
    destruct (match_from s) as [m'|] eqn:E; [|discriminate].
    intros _. apply (IH m' eq_refl).
Qed.

Lemma regex_match_hyphen s m :
  regex_match s = Some m -> JS.has_char "-" s = true.
Proof.
  revert m. induction s as [|c s IH]; intros m; cbn [regex_match].
  - simpl. discriminate.
  - destruct (match_from (String c s)) as [m'|] eqn:E.
    + intros _. apply (match_from_hyphen _ _ E).
    + intros H. cbn [JS.has_char]. rewrite (IH _ H). apply orb_true_r.
Qed.

Lemma regex_match_none s :
  JS.has_char "-" s = false -> regex_match s = None.
Proof.
  intros H. destruct (regex_match s) as [m|] eqn:E; [|reflexivity].
  rewrite (regex_match_hyphen _ _ E) in H. discriminate.
Qed.

End HintParser.

(** C4. The hint parser turns "Daft Punk - One More Time [Dance].mp3" into
    artist "Daft Punk", title "One More Time" and genre "Dance"; and for
    every file name whose stem (the name without its extension) holds no
    hyphen, the whole stem is the title and artist and genre are empty. *)
Theorem parseFromFilename_hints :
  parseFromFilename "Daft Punk - One More Time [Dance].mp3"
  = {| hint_artist := "Daft Punk";
       hint_title := "One More Time";
       hint_genre := "Dance" |}
  /\ forall name,
       JS.has_char "-" (strip_ext name) = false ->
       parseFromFilename name
       = {| hint_artist := EmptyString;
            hint_title := strip_ext name;
            hint_genre := EmptyString |}.
Proof.
  split; [vm_compute; reflexivity|].
  intros name H. unfold parseFromFilename.
  rewrite (regex_match_none _ H). reflexivity.
Qed.

(** The second half of C4 at the name "01 Intro.flac". *)
Lemma parseFromFilename_hints_witness :
  JS.has_char "-" (strip_ext "01 Intro.flac") = false
  /\ parseFromFilename "01 Intro.flac"
     = {| hint_artist := EmptyString;
          hint_title := "01 Intro";
          hint_genre := EmptyString |}.
Proof.
  split; [reflexivity|].
  exact (proj2 parseFromFilename_hints "01 Intro.flac" eq_refl).
Defined.

(* ===================================================================== *)
(** ** The persistence helpers *)
(* ===================================================================== *)

Section Persistence.

(** [readDB] always returns, leaves the disk alone, and what it returns
    is the store [current] names. *)
Lemma readDB_current w : readDB w = (Ok (current w), w).
Proof.
  unfold current, readDB, try_catch, bind, fs_readFile.
  destruct (data_file w) as [[raw|db]|]; reflexivity.
Qed.

Lemma writeDB_run db w :
  writeDB db w
  = (Ok tt, {| data_file := Some (Json db);
               uploads := uploads w;
               written := db :: written w; proto_name := proto_name w |}).
Proof. reflexivity. Qed.

Lemma current_Json db u l n :
  current {| data_file := Some (Json db); uploads := u; written := l; proto_name := n |} = db.
Proof. reflexivity. Qed.

(** [current] looks at db.json only. *)
Lemma current_data_file w w' :
  data_file w = data_file w' -> current w = current w'.
Proof.
  unfold current, readDB, try_catch, bind, fs_readFile.
  intros ->. destruct (data_file w') as [[raw|db]|]; reflexivity.
Qed.

End Persistence.

(** C6. Loading the store never raises: when db.json is absent (reading
    it throws) or its text does not parse (JSON.parse throws), [readDB]
    returns the empty store; when the file is there and parses, it
    returns the parsed store.  The disk is left as it was. *)
Theorem readDB_silent_recovery (w : World) :
  (exists db, readDB w = (Ok db, w))
  /\ (forall e, fst (fs_readFile w) = Throw e ->
        readDB w = (Ok {| tracks := []; playlists := ∅ |}, w))
  /\ (forall raw e,
        fst (fs_readFile w) = Ok raw -> fst (JSON_parse raw w) = Throw e ->
        readDB w = (Ok {| tracks := []; playlists := ∅ |}, w))
  /\ (forall raw db,
        fst (fs_readFile w) = Ok raw -> fst (JSON_parse raw w) = Ok db ->
        readDB w = (Ok db, w)).
Proof.
  unfold readDB, try_catch, bind, fs_readFile.
  destruct (data_file w) as [[raw|db]|]; cbn;
    (split; [eauto|]); repeat split; intros; simplify_eq/=; try reflexivity;
    match goal with
    | H : fst (JSON_parse ?r w) = _ |- _ => destruct r; cbn in H; simplify_eq
    end; reflexivity.
Qed.

(** C6 on three disks: no db.json, a db.json that is not JSON, and a
    db.json that holds a store with one playlist. *)
Lemma readDB_silent_recovery_witness :
  readDB sample_absent = (Ok empty_store, sample_absent)
  /\ readDB sample_broken = (Ok empty_store, sample_broken)
  /\ readDB sample_world = (Ok sample_store, sample_world).
Proof.
  refine (conj _ (conj _ _)).
  - exact (proj1 (proj2 (readDB_silent_recovery sample_absent)) "ENOENT" eq_refl).
  - exact (proj1 (proj2 (proj2 (readDB_silent_recovery sample_broken)))
             (Malformed "{ tracks: ") "SyntaxError" eq_refl eq_refl).
  - exact (proj2 (proj2 (proj2 (readDB_silent_recovery sample_world)))
             (Json sample_store) sample_store eq_refl eq_refl).
Defined.

(* ===================================================================== *)
(** ** The streaming route *)
(* ===================================================================== *)

Section Streaming.

Context (mime_getType : string -> option string).

(** The route when the three preconditions hold. *)
Lemma get_music_stream_found w id range t p content :
  find (has_id id) (tracks (current w)) = Some t ->
  Track.type t = TFile ->
  Track.path t = Some p ->
  uploads w !! p = Some content ->
  get_music_stream mime_getType id range w
  = stream_file mime_getType p (Z.of_nat (length content)) range w.
Proof.
  intros Hfind Htype Hpath Hfile.
  unfold get_music_stream, bind. rewrite readDB_current, Hfind, Htype, Hpath.
  cbn. unfold try_catch, bind, statSync_size. rewrite Hfile. reflexivity.
Qed.

Lemma replace_bytes x : JS.replace_first "bytes=" "" ("bytes=" +:+ x) = x.
Proof. reflexivity. Qed.

Lemma valid_span_safe s e :
  0 <= s < 2 ^ 53 -> 0 <= e < 2 ^ 53 ->
  valid_span (JS.Int s) (JS.Int e) = (s <=? e).
Proof.
  intros Hs He. unfold valid_span, JS.MAX_SAFE_INTEGER.
  destruct (Z.leb_spec 0 s); [|lia].
  destruct (Z.leb_spec s (2 ^ 53 - 1)); [|lia].
  destruct (Z.leb_spec 0 e); [|lia].
  destruct (Z.leb_spec e (2 ^ 53 - 1)); [|lia].
  reflexivity.
Qed.

(** The length of a span between two safe offsets is computed exactly. *)
Lemma chunk_safe s e :
  0 <= s < 2 ^ 53 -> -1 <= e < 2 ^ 53 ->
  JS.add (JS.sub (JS.Int e) (JS.Int s)) (JS.Int 1) = JS.Int (e - s + 1).
Proof.
  intros Hs He. cbn [JS.sub]. rewrite to_double_safe by lia.
  cbn [JS.add]. apply to_double_safe. lia.
Qed.

(** [bytes=s-e]: both bounds are echoed as they were sent, and the stream
    is made when the start is not after the end. *)
Lemma stream_file_closed full total s e w :
  0 <= s < 2 ^ 53 -> 0 <= e < 2 ^ 53 ->
  stream_file mime_getType full total
    (Some ("bytes=" +:+ JS.show_Z s +:+ "-" +:+ JS.show_Z e)) w
  = if s <=? e
    then (Ok {| status := 206;
                headers :=
                  [("Content-Range",
                    HStr ("bytes " +:+ JS.show_Z s +:+ "-" +:+ JS.show_Z e
                          +:+ "/" +:+ JS.show_Z total));
                   ("Accept-Ranges", HStr "bytes");
                   ("Content-Length", HNum (JS.Int (e - s + 1)));
                   ("Content-Type", HStr (default "audio/mpeg" (mime_getType full)))];
                body := FileStream full (Some (JS.Int s, JS.Int e)) |}, w)
    else (Throw "ERR_OUT_OF_RANGE", w).
Proof.
  intros Hs He.
  change ("bytes=" +:+ JS.show_Z s +:+ "-" +:+ JS.show_Z e)
    with (String "b" ("ytes=" +:+ JS.show_Z s +:+ "-" +:+ JS.show_Z e)).
  cbv beta iota delta [stream_file].
  change (String "b" ("ytes=" +:+ JS.show_Z s +:+ "-" +:+ JS.show_Z e))
    with ("bytes=" +:+ (JS.show_Z s +:+ String "-" (JS.show_Z e))).
  rewrite replace_bytes, (split_app _ _ _ (show_no_hyphen s (proj1 Hs))).
  rewrite (split_none _ _ (show_no_hyphen e (proj1 He))).
  cbn [lookup list_lookup default from_option JS.truthy_opt id].
  rewrite (show_truthy e), !parseInt_show by lia.
  rewrite chunk_safe by lia.
  unfold createReadStream, bind. rewrite valid_span_safe by assumption.
  destruct (s <=? e); reflexivity.
Qed.

(** [bytes=s-]: the end is the last byte of the file. *)
Lemma stream_file_open full total s w :
  0 <= s < 2 ^ 53 -> 0 <= total <= 2 ^ 53 ->
  stream_file mime_getType full total (Some ("bytes=" +:+ JS.show_Z s +:+ "-")) w
  = if s <? total
    then (Ok {| status := 206;
                headers :=
                  [("Content-Range",
                    HStr ("bytes " +:+ JS.show_Z s +:+ "-" +:+ JS.show_Z (total - 1)
                          +:+ "/" +:+ JS.show_Z total));
                   ("Accept-Ranges", HStr "bytes");
                   ("Content-Length", HNum (JS.Int (total - s)));
                   ("Content-Type", HStr (default "audio/mpeg" (mime_getType full)))];
                body := FileStream full (Some (JS.Int s, JS.Int (total - 1))) |}, w)
    else (Throw "ERR_OUT_OF_RANGE", w).
Proof.
  intros Hs Ht.
  change ("bytes=" +:+ JS.show_Z s +:+ "-")
    with (String "b" ("ytes=" +:+ JS.show_Z s +:+ "-")).
  cbv beta iota delta [stream_file].
  change (String "b" ("ytes=" +:+ JS.show_Z s +:+ "-"))
    with ("bytes=" +:+ (JS.show_Z s +:+ String "-" EmptyString)).
  rewrite replace_bytes, (split_app _ _ _ (show_no_hyphen s (proj1 Hs))).
  cbn [JS.split lookup list_lookup default from_option JS.truthy_opt JS.truthy id].
  rewrite parseInt_show by lia.
  rewrite chunk_safe by lia.
  replace (total - 1 - s + 1) with (total - s) by lia.
  unfold createReadStream, bind.
  destruct (Z.ltb_spec s total) as [Hlt|Hge].
  - rewrite valid_span_safe by lia.
    destruct (Z.leb_spec s (total - 1)); [reflexivity|lia].
  - assert (Hbad : valid_span (JS.Int s) (JS.Int (total - 1)) = false).
    { unfold valid_span.
      destruct (Z.leb_spec s (total - 1)); [lia|].
      rewrite !andb_false_r. reflexivity. }
    rewrite Hbad. reflexivity.
Qed.


(** However the range reads, the route either makes a stream that
    [createReadStream] accepts, or throws there; the disk stays. *)
Lemma stream_file_cases full total range w :
  (exists head,
      stream_file mime_getType full total range w
      = (Ok {| status := 200; headers := head; body := FileStream full None |}, w)
      /\ (range = None \/ range = Some EmptyString))
  \/ (exists head start end',
         stream_file mime_getType full total range w
         = (Ok {| status := 206; headers := head;
                  body := FileStream full (Some (start, end')) |}, w)
         /\ valid_span start end' = true)
  \/ (stream_file mime_getType full total range w = (Throw "ERR_OUT_OF_RANGE", w)
      /\ exists c r, range = Some (String c r)).
Proof.
  destruct range as [[|c r]|]; [left; eexists; split; [reflexivity|auto]| |
                                left; eexists; split; [reflexivity|auto]].
  right. cbv beta iota delta [stream_file].
  unfold createReadStream, bind.
  match goal with
  | |- context [valid_span ?s ?e] => destruct (valid_span s e) eqn:Hvalid
  end.
  - left. eexists _, _, _. split; [reflexivity|exact Hvalid].
  - right. split; [reflexivity|eauto].
Qed.

(** A stream that was made delivers bytes when the file is there. *)
Lemma stream_bytes_valid w full start end' content :
  uploads w !! full = Some content ->
  valid_span start end' = true ->
  is_Some (stream_bytes w (FileStream full (Some (start, end')))).
Proof.
  intros Hfile Hvalid. cbn [stream_bytes]. rewrite Hvalid, Hfile.
  destruct start as [|s| |]; try discriminate Hvalid.
  destruct end' as [|e| |]; cbn; eauto.
Qed.

End Streaming.

(** C1. For a track of kind file whose file is on disk with T >= 200
    bytes, the request with [Range: bytes=100-199] is answered 206 with
    Content-Range [bytes 100-199/T], Content-Length 100 and a stream of
    exactly the bytes 100 to 199 of the file; and with the end left out
    ([bytes=start-], for a start inside a file of at most 2^53 bytes) the
    range ends at the last byte, T-1, and the stream delivers the file
    from the start on. *)
Theorem stream_range_partial_content
    (mime_getType : string -> option string) (w : World) (id : string)
    (t : Track.t) (p : string) (content : list Byte.byte) :
  find (has_id id) (tracks (current w)) = Some t ->
  Track.type t = TFile ->
  Track.path t = Some p ->
  uploads w !! p = Some content ->
  (200 <= length content)%nat ->
  (exists res bytes,
      get_music_stream mime_getType id (Some "bytes=100-199") w = (Ok res, w)
      /\ status res = 206
      /\ headers res
         = [("Content-Range",
             HStr ("bytes 100-199/" +:+ JS.show_Z (Z.of_nat (length content))));
            ("Accept-Ranges", HStr "bytes");
            ("Content-Length", HNum (JS.Int 100));
            ("Content-Type", HStr (default "audio/mpeg" (mime_getType p)))]
      /\ stream_bytes w (body res) = Some bytes
      /\ length bytes = 100%nat
      /\ forall i, (i < 100)%nat -> bytes !! i = content !! (100 + i)%nat)
  /\ forall start,
      0 <= start < Z.of_nat (length content) ->
      Z.of_nat (length content) <= 2 ^ 53 ->
      exists res,
        get_music_stream mime_getType id
          (Some ("bytes=" +:+ JS.show_Z start +:+ "-")) w = (Ok res, w)
        /\ status res = 206
        /\ headers res
           = [("Content-Range",
               HStr ("bytes " +:+ JS.show_Z start +:+ "-"
                     +:+ JS.show_Z (Z.of_nat (length content) - 1)
                     +:+ "/" +:+ JS.show_Z (Z.of_nat (length content))));
              ("Accept-Ranges", HStr "bytes");
              ("Content-Length", HNum (JS.Int (Z.of_nat (length content) - start)));
              ("Content-Type", HStr (default "audio/mpeg" (mime_getType p)))]
        /\ body res
           = FileStream p (Some (JS.Int start, JS.Int (Z.of_nat (length content) - 1)))
        /\ stream_bytes w (body res) = Some (drop (Z.to_nat start) content).
Proof.
  intros Hfind Htype Hpath Hfile Hlen.
  pose proof (fun r => get_music_stream_found mime_getType w id r t p content
                         Hfind Htype Hpath Hfile) as Hrun.
  split.
  - pose proof (stream_file_closed mime_getType p (Z.of_nat (length content))
                  100 199 w ltac:(lia) ltac:(lia)) as Hres.
    change ("bytes=" +:+ JS.show_Z 100 +:+ "-" +:+ JS.show_Z 199)
      with "bytes=100-199" in Hres.
    change (100 <=? 199) with true in Hres. cbv iota in Hres.
    eexists _, (take 100 (drop 100 content)).
    split; [rewrite Hrun; exact Hres|].
    cbn [status headers body].
    repeat split.
    + cbn [stream_bytes]. rewrite Hfile. reflexivity.
    + rewrite length_take_le; [reflexivity|]. rewrite length_drop. lia.
    + intros i Hi. rewrite lookup_take_lt by assumption. apply lookup_drop.
  - intros start Hs Hmax.
    pose proof (stream_file_open mime_getType p (Z.of_nat (length content))
                  start w ltac:(lia) ltac:(lia)) as Hres.
    destruct (Z.ltb_spec start (Z.of_nat (length content))) as [_|?]; [|lia].
    eexists. split; [rewrite Hrun; exact Hres|].
    cbn [status headers body].
    repeat split.
    cbn [stream_bytes]. rewrite valid_span_safe by lia.
    destruct (Z.leb_spec start (Z.of_nat (length content) - 1)); [|lia].
    rewrite Hfile. cbn. f_equal. unfold read_span.
    apply take_ge. rewrite length_drop. lia.
Qed.

(** C1 on the sample disk: the uploaded track, 300 bytes long, asked for
    with [bytes=100-199] and with [bytes=120-]. *)
Lemma stream_range_partial_content_witness :
  (exists res bytes,
    get_music_stream sample_mime "t1" (Some "bytes=100-199") sample_world
    = (Ok res, sample_world)
    /\ status res = 206
    /\ headers res
       = [("Content-Range", HStr "bytes 100-199/300");
          ("Accept-Ranges", HStr "bytes");
          ("Content-Length", HNum (JS.Int 100));
          ("Content-Type", HStr "audio/mpeg")]
    /\ stream_bytes sample_world (body res) = Some bytes
    /\ length bytes = 100%nat
    /\ forall i, (i < 100)%nat -> bytes !! i = sample_content !! (100 + i)%nat)
  /\ exists res,
       get_music_stream sample_mime "t1" (Some "bytes=120-") sample_world
       = (Ok res, sample_world)
       /\ status res = 206
       /\ headers res
          = [("Content-Range", HStr "bytes 120-299/300");
             ("Accept-Ranges", HStr "bytes");
             ("Content-Length", HNum (JS.Int 180));
             ("Content-Type", HStr "audio/mpeg")]
       /\ body res
          = FileStream "1700000000000-song.mp3" (Some (JS.Int 120, JS.Int 299))
       /\ stream_bytes sample_world (body res) = Some (drop 120 sample_content).
Proof.
  pose proof (stream_range_partial_content sample_mime sample_world "t1"
                sample_file_track "1700000000000-song.mp3" sample_content
                eq_refl eq_refl eq_refl eq_refl
                (proj1 (Nat.leb_le 200 (length sample_content)) eq_refl))
    as [Hclosed Hopen].
  split; [exact Hclosed|].
  exact (Hopen 120 ltac:(split; [discriminate | reflexivity]) ltac:(discriminate)).
Defined.

Section StreamingStatus.

Context (mime_getType : string -> option string).


(** Every way the streaming route can end. *)
Lemma get_music_stream_cases w id range :
  let out := get_music_stream mime_getType id range w in
  (find (has_id id) (tracks (current w)) = None /\ out = (Ok (end_ 404), w))
  \/ (exists t, find (has_id id) (tracks (current w)) = Some t
                /\ Track.type t <> TFile /\ out = (Ok (end_ 400), w))
  \/ (exists t, find (has_id id) (tracks (current w)) = Some t
                /\ Track.type t = TFile /\ Track.path t = None
                /\ out = (Throw "ERR_INVALID_ARG_TYPE", w))
  \/ (exists t p, find (has_id id) (tracks (current w)) = Some t
                  /\ Track.type t = TFile /\ Track.path t = Some p
                  /\ uploads w !! p = None /\ out = (Ok (end_ 404), w))
  \/ (exists t p content,
         find (has_id id) (tracks (current w)) = Some t
         /\ Track.type t = TFile /\ Track.path t = Some p
         /\ uploads w !! p = Some content
         /\ out = stream_file mime_getType p (Z.of_nat (length content)) range w).
Proof.
  cbv zeta. unfold get_music_stream, bind. rewrite readDB_current.
  destruct (find (has_id id) (tracks (current w))) as [t|] eqn:Hfind; [|auto].
  right. destruct (Track.type t) eqn:Htype; cbn.
  2: { left. exists t. repeat split; congruence. }
  right. destruct (Track.path t) as [p|] eqn:Hpath; cbn.
  2: { left. exists t. auto. }
  right. unfold try_catch, bind, statSync_size.
  destruct (uploads w !! p) as [content|] eqn:Hfile; cbn.
  - right. exists t, p, content. auto.
  - left. exists t, p. auto.
Qed.

(** The route never changes the disk. *)
Lemma get_music_stream_world w id range :
  snd (get_music_stream mime_getType id range w) = w.
Proof.
  pose proof (get_music_stream_cases w id range) as Hcases. cbv zeta in Hcases.
  destruct Hcases as [[_ ->]|[(?&_&_&->)|[(?&_&_&_&->)|[(?&?&_&_&_&_&->)|(?&p&c&_&_&_&_&->)]]]];
    try reflexivity.
  destruct (stream_file_cases mime_getType p (Z.of_nat (length c)) range w)
    as [(h & -> & _)|[(h & s & e & -> & _)|[-> _]]]; reflexivity.
Qed.

End StreamingStatus.

(** C8. The streaming route answers 404 when the id is the id of no
    track, 400 when the track is not of kind file, and 404 when the track
    is a file whose file is not on disk (the failure of the stat call is
    caught: the route answers, it does not throw).  When the three
    preconditions hold it gets past these answers: without a range it
    streams the file with status 200; with a range it streams the span
    that was asked for with status 206, unless [createReadStream] refuses
    the span and throws.  And it streams bytes only when the three
    preconditions hold. *)
Theorem stream_preconditions
    (mime_getType : string -> option string) (w : World) (id : string)
    (range : option string) :
  (find (has_id id) (tracks (current w)) = None ->
   get_music_stream mime_getType id range w = (Ok (end_ 404), w))
  /\ (forall t,
        find (has_id id) (tracks (current w)) = Some t ->
        Track.type t <> TFile ->
        get_music_stream mime_getType id range w = (Ok (end_ 400), w))
  /\ (forall t p,
        find (has_id id) (tracks (current w)) = Some t ->
        Track.type t = TFile -> Track.path t = Some p ->
        uploads w !! p = None ->
        get_music_stream mime_getType id range w = (Ok (end_ 404), w))
  /\ (forall t p content,
        find (has_id id) (tracks (current w)) = Some t ->
        Track.type t = TFile -> Track.path t = Some p ->
        uploads w !! p = Some content ->
        (range = None \/ range = Some EmptyString ->
         exists res,
           get_music_stream mime_getType id range w = (Ok res, w)
           /\ status res = 200
           /\ body res = FileStream p None
           /\ stream_bytes w (body res) = Some content)
        /\ ((exists res span,
               get_music_stream mime_getType id range w = (Ok res, w)
               /\ (status res = 200 \/ status res = 206)
               /\ body res = FileStream p span
               /\ is_Some (stream_bytes w (body res)))
            \/ (get_music_stream mime_getType id range w
                = (Throw "ERR_OUT_OF_RANGE", w)
                /\ exists c r, range = Some (String c r))))
  /\ (forall res w' full span,
        get_music_stream mime_getType id range w = (Ok res, w') ->
        body res = FileStream full span ->
        exists t content,
          find (has_id id) (tracks (current w)) = Some t
          /\ Track.type t = TFile /\ Track.path t = Some full
          /\ uploads w !! full = Some content).
Proof.
  pose proof (get_music_stream_cases mime_getType w id range) as Hcases.
  cbv zeta in Hcases.
  repeat apply conj.
  - intros Hnone.
    destruct Hcases as [[_ ->]|[(t&H&_)|[(t&H&_)|[(t&p&H&_)|(t&p&c&H&_)]]]];
      congruence.
  - intros t Hfind Hkind.
    destruct Hcases as [[H _]|[(t'&_&_&->)|[(t'&H&?&_)|[(t'&p&H&?&_)|(t'&p&c&H&?&_)]]]];
      congruence.
  - intros t p Hfind Hkind Hpath Hfile.
    destruct Hcases as [[H _]|[(t'&H&?&_)|[(t'&H&?&?&_)|[(t'&p'&H&?&?&?&->)|(t'&p'&c&H&?&?&?&_)]]]];
      congruence.
  - intros t p content Hfind Hkind Hpath Hfile.
    rewrite (get_music_stream_found _ _ _ _ _ _ _ Hfind Hkind Hpath Hfile).
    split.
    + intros [-> | ->]; eexists; (split; [reflexivity|]); cbn; auto.
    + destruct (stream_file_cases mime_getType p (Z.of_nat (length content)) range w)
        as [(h & -> & _)|[(h & s & e & -> & Hvalid)|[-> Hrange]]].
      * left. eexists _, _. split; [reflexivity|]. cbn. rewrite Hfile. eauto.
      * left. eexists _, _. split; [reflexivity|]. cbn [status body].
        repeat split; [auto|]. by eapply stream_bytes_valid.
      * right. auto.
  - intros res w' full span Hrun Hbody.
    destruct Hcases as [[_ H]|[(t&_&_&H)|[(t&_&_&_&H)|[(t&p&_&_&_&_&H)|(t&p&c&Hf&Hk&Hp&Hu&H)]]]];
      rewrite H in Hrun; simplify_eq; try discriminate Hbody.
    exists t, c.
    assert (p = full) as <-.
    { destruct (stream_file_cases mime_getType p (Z.of_nat (length c)) range w)
        as [(h & Hs & _)|[(h & s & e & Hs & _)|[Hs _]]];
        rewrite Hs in Hrun; simplify_eq; cbn in Hbody; congruence. }
    auto.
Qed.

(** C8 on the sample disk: an unknown id, the remote track, the track
    whose file is gone, and the uploaded track. *)
Lemma stream_preconditions_witness :
  status_of sample_mime (GetMusicStream "nope" None) sample_world = Some 404
  /\ status_of sample_mime (GetMusicStream "t2" None) sample_world = Some 400
  /\ status_of sample_mime (GetMusicStream "t3" None) sample_world = Some 404
  /\ exists res,
       get_music_stream sample_mime "t1" None sample_world = (Ok res, sample_world)
       /\ status res = 200
       /\ body res = FileStream "1700000000000-song.mp3" None
       /\ stream_bytes sample_world (body res) = Some sample_content.
Proof.
  pose proof (stream_preconditions sample_mime sample_world) as H.
  refine (conj _ (conj _ (conj _ _))).
  - unfold status_of, handle.
    rewrite (proj1 (H "nope" None) eq_refl). reflexivity.
  - unfold status_of, handle.
    rewrite (proj1 (proj2 (H "t2" None)) sample_url_track eq_refl
               ltac:(discriminate)).
    reflexivity.
  - unfold status_of, handle.
    rewrite (proj1 (proj2 (proj2 (H "t3" None))) sample_lost_track
               "1700000000001-gone.mp3" eq_refl eq_refl eq_refl eq_refl).
    reflexivity.
  - exact (proj1 (proj1 (proj2 (proj2 (proj2 (H "t1" None)))) sample_file_track
                    "1700000000000-song.mp3" sample_content
                    eq_refl eq_refl eq_refl eq_refl)
                 (or_introl eq_refl)).
Defined.




(* ===================================================================== *)
(** ** Searching and deleting in the track list *)
(* ===================================================================== *)

Section TrackList.

Lemma has_id_true id x : has_id id x = true <-> Track.id x = id.
Proof. unfold has_id. apply String.eqb_eq. Qed.

Lemma has_id_false id x : has_id id x = false <-> Track.id x <> id.
Proof. unfold has_id. apply String.eqb_neq. Qed.

(** [findIndex] returns the first index whose track has the id. *)
Lemma findIndex_Some id l idx :
  findIndex (has_id id) l = Some idx ->
  exists t, l !! idx = Some t /\ Track.id t = id.
Proof.
  revert idx. induction l as [|x l IH]; intros idx; cbn; [discriminate|].
  destruct (has_id id x) eqn:Hx.
  - intros [= <-]. exists x. split; [reflexivity|]. by apply has_id_true.
  - destruct (findIndex (has_id id) l) as [j|]; [|discriminate].
    intros [= <-]. apply (IH j eq_refl).
Qed.

Lemma findIndex_None id l :
  findIndex (has_id id) l = None <-> id ∉ Track.id <$> l.
Proof.
  induction l as [|x l IH]; cbn.
  - split; [intros _; apply not_elem_of_nil | reflexivity].
  - rewrite not_elem_of_cons. destruct (has_id id x) eqn:Hx.
    + apply has_id_true in Hx. split; [discriminate|]. intros [Hne _]. congruence.
    + apply has_id_false in Hx.
      destruct (findIndex (has_id id) l) as [j|]; cbn.
      * split; [discriminate|]. intros [_ Hnot]. by apply IH in Hnot.
      * split; [|reflexivity]. intros _. split; [congruence|]. by apply IH.
Qed.

Lemma find_Some_id id l t :
  find (has_id id) l = Some t -> t ∈ l /\ Track.id t = id.
Proof.
  induction l as [|x l IH]; cbn; [discriminate|].
  destruct (has_id id x) eqn:Hx.
  - intros [= <-]. split; [left|]. by apply has_id_true.
  - intros H. destruct (IH H). split; [by right | assumption].
Qed.

Lemma find_None_id id l :
  find (has_id id) l = None <-> id ∉ Track.id <$> l.
Proof.
  induction l as [|x l IH]; cbn.
  - split; [intros _; apply not_elem_of_nil | reflexivity].
  - rewrite not_elem_of_cons. destruct (has_id id x) eqn:Hx.
    + apply has_id_true in Hx. split; [discriminate|]. intros [Hne _]. congruence.
    + apply has_id_false in Hx. rewrite IH. split; [|tauto].
      intros Hnot. split; [congruence | assumption].
Qed.

Lemma find_is_Some_id id l :
  id ∈ Track.id <$> l -> exists t, find (has_id id) l = Some t.
Proof.
  intros Hin. destruct (find (has_id id) l) as [t|] eqn:E; [eauto|].
  apply find_None_id in E. contradiction.
Qed.

Lemma findIndex_is_Some id l :
  id ∈ Track.id <$> l -> exists idx, findIndex (has_id id) l = Some idx.
Proof.
  intros Hin. destruct (findIndex (has_id id) l) as [i|] eqn:E; [eauto|].
  apply findIndex_None in E. contradiction.
Qed.

(** Deleting one track keeps every track with another id. *)
Lemma elem_of_delete_other (l : list Track.t) idx t x :
  l !! idx = Some t -> x ∈ l -> Track.id x <> Track.id t -> x ∈ delete idx l.
Proof.
  revert idx. induction l as [|y l IH]; intros [|idx] Hlook Hin Hne; cbn in *;
    try discriminate.
  - simplify_eq. apply elem_of_cons in Hin as [->|Hin]; [congruence | assumption].
  - apply elem_of_cons in Hin as [->|Hin]; [left|right; eauto].
Qed.

(** With unique ids, the id of the deleted track is gone. *)
Lemma id_gone_after_delete (l : list Track.t) idx t :
  NoDup (Track.id <$> l) -> l !! idx = Some t ->
  Track.id t ∉ Track.id <$> delete idx l.
Proof.
  revert idx. induction l as [|y l IH]; intros [|idx] Hnd Hlook; cbn in *;
    try discriminate; apply NoDup_cons in Hnd as [Hy Hnd].
  - by simplify_eq.
  - rewrite not_elem_of_cons. split; [|eauto].
    intros Heq. apply Hy. rewrite <- Heq.
    apply list_elem_of_fmap_2, list_elem_of_lookup. eauto.
Qed.

(** With unique ids, deleting at the index found is filtering by id. *)
Lemma delete_findIndex_filter id (l : list Track.t) idx :
  NoDup (Track.id <$> l) ->
  findIndex (has_id id) l = Some idx ->
  delete idx l = filter (fun x => Track.id x <> id) l.
Proof.
  revert idx. induction l as [|y l IH]; intros idx Hnd; cbn [findIndex];
    [discriminate|].
  rewrite fmap_cons in Hnd. apply NoDup_cons in Hnd as [Hy Hnd].
  destruct (has_id id y) eqn:Hid.
  - intros [= <-]. change (delete 0%nat (y :: l)) with l.
    apply has_id_true in Hid.
    rewrite filter_cons_False by tauto.
    symmetry. clear IH Hnd. induction l as [|z l IHl]; [reflexivity|].
    rewrite fmap_cons in Hy. apply not_elem_of_cons in Hy as [Hz Hy].
    rewrite filter_cons_True by congruence. f_equal. auto.
  - apply has_id_false in Hid.
    destruct (findIndex (has_id id) l) as [j|]; [|discriminate].
    intros [= <-]. change (delete (S j) (y :: l)) with (y :: delete j l).
    rewrite filter_cons_True by assumption.
    f_equal. auto.
Qed.

End TrackList.

(* ===================================================================== *)
(** ** Deleting a track *)
(* ===================================================================== *)

Section DeleteTrack.

(** The route on an id that is in the store: the store written and the
    uploads directory afterwards. *)
Lemma delete_music_run w id idx t :
  findIndex (has_id id) (tracks (current w)) = Some idx ->
  tracks (current w) !! idx = Some t ->
  let db' := {| tracks := delete idx (tracks (current w));
                playlists := unlink_track id <$> playlists (current w) |} in
  delete_music id w
  = (Ok (json 200 JsonOk),
     {| data_file := Some (Json db');
        uploads :=
          match Track.type t, Track.path t with
          | TFile, Some (String _ _ as p) => delete p (uploads w)
          | _, _ => uploads w
          end;
        written := db' :: written w; proto_name := proto_name w |}).
Proof.
  intros Hidx Ht. cbv zeta. unfold delete_music, bind.
  rewrite readDB_current, Hidx, Ht.
  destruct (Track.type t); [|reflexivity].
  destruct (Track.path t) as [[|c r]|]; [reflexivity| |reflexivity].
  cbn. unfold try_catch, fs_unlink.
  destruct (uploads w !! String c r) eqn:Hfile; cbn; [reflexivity|].
  rewrite (delete_id _ _ Hfile). reflexivity.
Qed.

Lemma delete_music_absent w id :
  id ∉ Track.id <$> tracks (current w) ->
  delete_music id w = (Ok (json 404 (JsonError "not found")), w).
Proof.
  intros Hnot. apply findIndex_None in Hnot.
  unfold delete_music, bind. rewrite readDB_current, Hnot. reflexivity.
Qed.

Lemma unlink_track_ids id pl : id ∉ Playlist.trackIds (unlink_track id pl).
Proof. cbn. rewrite list_elem_of_filter. tauto. Qed.

End DeleteTrack.

(** C3. Deleting a track whose id is in the store answers ok, takes the
    track out of the tracks collection (the first track with that id; with
    the unique ids of the data model no track with the id is left, so the
    listing of GET /api/music no longer shows it, and every other track
    stays) and takes the id out of the sequence of every playlist:
    no playlist holds it afterwards.  An id that is not in the store is
    answered 404. *)
Theorem delete_music_cascade (w : World) (id : string) :
  (id ∈ (Track.id <$> tracks (current w)) ->
   exists w' idx t,
     delete_music id w = (Ok (json 200 JsonOk), w')
     /\ findIndex (has_id id) (tracks (current w)) = Some idx
     /\ tracks (current w) !! idx = Some t /\ Track.id t = id
     /\ tracks (current w') = delete idx (tracks (current w))
     /\ get_music w' = (Ok (json 200 (JsonTracks (tracks (current w')))), w')
     /\ (NoDup (Track.id <$> tracks (current w)) ->
         (id ∉ Track.id <$> tracks (current w'))
         /\ tracks (current w')
            = filter (fun x => Track.id x <> id) (tracks (current w)))
     /\ playlists (current w') = unlink_track id <$> playlists (current w)
     /\ (forall pid pl, playlists (current w') !! pid = Some pl ->
           id ∉ Playlist.trackIds pl)
     /\ (forall pid,
           playlists (current w') !! pid
           = (fun pl => {| Playlist.id := Playlist.id pl;
                           Playlist.name := Playlist.name pl;
                           Playlist.trackIds :=
                             filter (fun x => x <> id) (Playlist.trackIds pl) |})
               <$> playlists (current w) !! pid))
  /\ (id ∉ (Track.id <$> tracks (current w)) ->
      delete_music id w = (Ok (json 404 (JsonError "not found")), w)).
Proof.
  split; [|apply delete_music_absent].
  intros Hin.
  destruct (findIndex_is_Some _ _ Hin) as [idx Hidx].
  destruct (findIndex_Some _ _ _ Hidx) as (t & Ht & Hid).
  pose proof (delete_music_run w id idx t Hidx Ht) as Hrun. cbv zeta in Hrun.
  eexists _, idx, t. split; [exact Hrun|].
  rewrite current_Json. cbn [tracks playlists].
  repeat apply conj; try assumption; try reflexivity.
  - intros Hnd. split.
    + rewrite <- Hid. by apply id_gone_after_delete.
    + by apply delete_findIndex_filter.
  - intros pid pl. rewrite lookup_fmap.
    destruct (playlists (current w) !! pid) as [pl0|]; cbn; [|discriminate].
    intros [= <-]. apply unlink_track_ids.
  - intros pid. apply lookup_fmap.
Qed.

(** C3 on the sample disk: deleting the uploaded track, which the playlist
    holds, and deleting an id that is not there. *)
Lemma delete_music_cascade_witness :
  (exists w',
      delete_music "t1" sample_world = (Ok (json 200 JsonOk), w')
      /\ ("t1" ∉ Track.id <$> tracks (current w'))
      /\ (forall pid pl, playlists (current w') !! pid = Some pl ->
            "t1" ∉ Playlist.trackIds pl))
  /\ delete_music "zz" sample_world
     = (Ok (json 404 (JsonError "not found")), sample_world).
Proof.
  split.
  - destruct (proj1 (delete_music_cascade sample_world "t1")
                ltac:(vm_compute; left))
      as (w' & idx & t & Hrun & _ & _ & _ & _ & _ & Hgone & _ & Hpl & _).
    exists w'. split; [exact Hrun|]. split; [|exact Hpl].
    apply Hgone. apply (bool_decide_unpack _). vm_compute. exact I.
  - apply (proj2 (delete_music_cascade sample_world "zz")).
    apply (bool_decide_unpack _). vm_compute. exact I.
Defined.

(* ===================================================================== *)
(** ** Playlists *)
(* ===================================================================== *)

Section Playlists.

Lemma includes_true x l : includes x l = true <-> x ∈ l.
Proof.
  unfold includes. rewrite existsb_exists. split.
  - intros (y & Hin & Heq). apply String.eqb_eq in Heq as ->.
    by apply list_elem_of_In.
  - intros Hin. exists x. split; [by apply list_elem_of_In | apply String.eqb_refl].
Qed.

Lemma includes_false x l : includes x l = false <-> x ∉ l.
Proof.
  rewrite <- includes_true. destruct (includes x l); split; congruence.
Qed.

Lemma store_eta db : {| tracks := tracks db; playlists := playlists db |} = db.
Proof. by destruct db. Qed.

(** Occurrences of an id in a sequence. *)
Lemma occurrences_absent (x : string) l :
  x ∉ l -> filter (fun y => y = x) l = [].
Proof.
  induction l as [|y l IH]; intros Hnot; [reflexivity|].
  apply not_elem_of_cons in Hnot as [Hne Hnot].
  rewrite filter_cons_False by congruence. auto.
Qed.

Lemma occurrences_present (x : string) l :
  x ∈ l -> (1 <= length (filter (fun y => y = x) l))%nat.
Proof.
  induction l as [|y l IH]; intros Hin; [by apply elem_of_nil in Hin|].
  destruct (decide (y = x)) as [->|Hne].
  - rewrite filter_cons_True by reflexivity. cbn. lia.
  - rewrite filter_cons_False by assumption.
    apply elem_of_cons in Hin as [->|Hin]; [congruence | auto].
Qed.

Lemma occurrences_NoDup (x : string) l :
  NoDup l -> (length (filter (fun y => y = x) l) <= 1)%nat.
Proof.
  induction l as [|y l IH]; intros Hnd; [cbn; lia|].
  apply NoDup_cons in Hnd as [Hy Hnd].
  destruct (decide (y = x)) as [->|Hne].
  - rewrite filter_cons_True by reflexivity.
    rewrite (occurrences_absent _ _ Hy). cbn. lia.
  - rewrite filter_cons_False by assumption. auto.
Qed.

(** The lookup [db.playlists[id]]: a playlist of the store is found
    first; an id of no playlist is looked up on [Object.prototype]. *)
Lemma playlists_get_own db id pl w :
  playlists db !! id = Some pl ->
  playlists_get db id w = (Ok (Some (inl pl)), w).
Proof.
  intros Hpl. unfold playlists_get, Object_prototype_name, bind, ret, get_property.
  rewrite Hpl. reflexivity.
Qed.

Lemma playlists_get_absent db id w :
  playlists db !! id = None ->
  inherited_property (proto_name w) id = None ->
  playlists_get db id w = (Ok None, w).
Proof.
  intros Hpl Hproto.
  unfold playlists_get, Object_prototype_name, bind, ret, get_property.
  rewrite Hpl, Hproto. reflexivity.
Qed.

Lemma playlists_get_inherited db id v w :
  playlists db !! id = None ->
  inherited_property (proto_name w) id = Some v ->
  truthy_property (Some (inr v)) = true ->
  playlists_get db id w = (Ok (Some (inr v)), w).
Proof.
  intros Hpl Hproto Htruthy.
  unfold playlists_get, Object_prototype_name, bind, ret, get_property.
  rewrite Hpl, Hproto. cbn [fmap option_fmap option_map]. rewrite Htruthy.
  reflexivity.
Qed.

(** Whatever the lookup lets through is a playlist of the store or comes
    from [Object.prototype]; it never changes the world. *)
Lemma playlists_get_cases db id w :
  (exists pl, playlists db !! id = Some pl
              /\ playlists_get db id w = (Ok (Some (inl pl)), w))
  \/ (playlists db !! id = None
      /\ exists v, playlists_get db id w = (Ok (inr <$> v), w)).
Proof.
  unfold playlists_get, Object_prototype_name, bind, ret, get_property.
  destruct (playlists db !! id) as [pl|]; [left; eauto|].
  right. split; [reflexivity|].
  destruct (inherited_property (proto_name w) id) as [v|]; cbn;
    [|exists None; reflexivity].
  change (truthy_property (Some (inr v))) with
    (match v with ProtoName s => JS.truthy s | _ => true end).
  destruct (match v with ProtoName s => JS.truthy s | _ => true end);
    [exists (Some v)|exists None]; reflexivity.
Qed.

(** The add route on a playlist and a track that are both there. *)
Lemma post_playlist_tracks_run w pid pl tid :
  playlists (current w) !! pid = Some pl ->
  tid ∈ Track.id <$> tracks (current w) ->
  let pl' := if negb (includes tid (Playlist.trackIds pl))
             then {| Playlist.id := Playlist.id pl;
                     Playlist.name := Playlist.name pl;
                     Playlist.trackIds := Playlist.trackIds pl ++ [tid] |}
             else pl in
  let db' := {| tracks := tracks (current w);
                playlists := <[pid := pl']> (playlists (current w)) |} in
  post_playlist_tracks pid (Some tid) w
  = (Ok (json 200 (JsonOkPlaylist pl')),
     {| data_file := Some (Json db'); uploads := uploads w;
        written := db' :: written w; proto_name := proto_name w |}).
Proof.
  intros Hpl Htid. cbv zeta. unfold post_playlist_tracks, bind.
  rewrite readDB_current, (playlists_get_own _ _ _ _ Hpl).
  destruct (find_is_Some_id _ _ Htid) as [t ->]. reflexivity.
Qed.

Lemma post_playlist_tracks_no_playlist w pid trackId :
  playlists (current w) !! pid = None ->
  inherited_property (proto_name w) pid = None ->
  post_playlist_tracks pid trackId w
  = (Ok (json 404 (JsonError "playlist not found")), w).
Proof.
  intros Hpl Hproto. unfold post_playlist_tracks, bind.
  rewrite readDB_current, (playlists_get_absent _ _ _ Hpl Hproto). reflexivity.
Qed.

(** The add route on an id that only [Object.prototype] knows. *)
Lemma post_playlist_tracks_inherited w pid v trackId :
  playlists (current w) !! pid = None ->
  inherited_property (proto_name w) pid = Some v ->
  truthy_property (Some (inr v)) = true ->
  post_playlist_tracks pid trackId w
  = (match trackId with
     | Some tid =>
         if bool_decide (tid ∈ Track.id <$> tracks (current w))
         then Throw "TypeError"
         else Ok (json 400 (JsonError "track not found"))
     | None => Ok (json 400 (JsonError "track not found"))
     end, w).
Proof.
  intros Hpl Hproto Htruthy. unfold post_playlist_tracks, bind.
  rewrite readDB_current, (playlists_get_inherited _ _ _ _ Hpl Hproto Htruthy).
  destruct trackId as [tid|]; [|reflexivity].
  destruct (decide (tid ∈ Track.id <$> tracks (current w))) as [Hin|Hnot].
  - rewrite (bool_decide_eq_true_2 _ Hin).
    destruct (find_is_Some_id _ _ Hin) as [t ->]. reflexivity.
  - rewrite (bool_decide_eq_false_2 _ Hnot).
    apply find_None_id in Hnot. rewrite Hnot. reflexivity.
Qed.

Lemma post_playlist_tracks_no_track w pid pl trackId :
  playlists (current w) !! pid = Some pl ->
  (forall tid, trackId = Some tid -> tid ∉ Track.id <$> tracks (current w)) ->
  post_playlist_tracks pid trackId w
  = (Ok (json 400 (JsonError "track not found")), w).
Proof.
  intros Hpl Hno. unfold post_playlist_tracks, bind.
  rewrite readDB_current, (playlists_get_own _ _ _ _ Hpl).
  destruct trackId as [tid|]; [|reflexivity].
  specialize (Hno tid eq_refl). apply find_None_id in Hno. rewrite Hno.
  reflexivity.
Qed.

(** A name that holds a unit that is not white space does not trim to
    nothing. *)
Lemma trim_start_nonempty s :
  JS.all_chars JS.is_whitespace s = false ->
  exists c r, JS.trim_start s = String c r /\ JS.is_whitespace c = false.
Proof.
  induction s as [|c s IH]; cbn; [discriminate|].
  destruct (JS.is_whitespace c) eqn:Hc; cbn; eauto.
Qed.

Lemma trim_nonempty s :
  JS.all_chars JS.is_whitespace s = false -> JS.truthy (JS.trim s) = true.
Proof.
  intros H. destruct (trim_start_nonempty s H) as (c & r & Heq & Hc).
  unfold JS.trim. rewrite Heq. cbn. rewrite Hc.
  destruct (JS.trim_end r); reflexivity.
Qed.

Lemma name_missing_ws name :
  name = None \/ (exists s, name = Some s /\ JS.all_chars JS.is_whitespace s = true) ->
  name_missing name = true.
Proof.
  intros [->|(s & -> & Hws)]; [reflexivity|].
  unfold name_missing. cbn [default from_option JS.truthy_opt id].
  rewrite (trim_ws s Hws). apply orb_true_r.
Qed.

Lemma name_missing_named s :
  JS.all_chars JS.is_whitespace s = false -> name_missing (Some s) = false.
Proof.
  intros H. pose proof (trim_nonempty s H) as Htrim.
  unfold name_missing. cbn [default from_option JS.truthy_opt id].
  rewrite Htrim. destruct s; [discriminate H | reflexivity].
Qed.

End Playlists.

(** C5.  Adding a track to a playlist is idempotent.  For a playlist of the
    store and the id of a track of the store, the add answers ok; adding
    again answers the same and leaves the store as the first add left it;
    an id the sequence already holds leaves the store as it was; an id it
    does not hold is appended; nothing else in the store changes; and the
    sequence, which held the id at most once (it holds no duplicates),
    holds it exactly once afterwards.  The add answers 400 when the
    playlist is there and the id is the id of no track, and 404 when the
    playlist is absent and its id is no property of [Object.prototype].
    For an absent playlist whose id is such a property ("constructor",
    "__proto__", ...) the lookup finds that property and the 404 is passed
    over: the add answers 400 when the track is unknown and throws when
    the track is there; nothing is written. *)
Theorem add_track_idempotent (w : World) (pid : string) (trackId : option string) :
  (playlists (current w) !! pid = None ->
   inherited_property (proto_name w) pid = None ->
   post_playlist_tracks pid trackId w
   = (Ok (json 404 (JsonError "playlist not found")), w))
  /\ (forall v,
        playlists (current w) !! pid = None ->
        inherited_property (proto_name w) pid = Some v ->
        truthy_property (Some (inr v)) = true ->
        ((forall tid, trackId = Some tid -> tid ∉ Track.id <$> tracks (current w)) ->
         post_playlist_tracks pid trackId w
         = (Ok (json 400 (JsonError "track not found")), w))
        /\ (forall tid, trackId = Some tid -> tid ∈ Track.id <$> tracks (current w) ->
              post_playlist_tracks pid trackId w = (Throw "TypeError", w)))
  /\ (forall pl,
        playlists (current w) !! pid = Some pl ->
        (forall tid, trackId = Some tid -> tid ∉ Track.id <$> tracks (current w)) ->
        post_playlist_tracks pid trackId w
        = (Ok (json 400 (JsonError "track not found")), w))
  /\ (forall pl tid,
        playlists (current w) !! pid = Some pl ->
        trackId = Some tid ->
        tid ∈ Track.id <$> tracks (current w) ->
        exists pl1 w1 w2,
          post_playlist_tracks pid trackId w = (Ok (json 200 (JsonOkPlaylist pl1)), w1)
          /\ post_playlist_tracks pid trackId w1
             = (Ok (json 200 (JsonOkPlaylist pl1)), w2)
          /\ current w2 = current w1
          /\ tracks (current w1) = tracks (current w)
          /\ playlists (current w1) = <[pid := pl1]> (playlists (current w))
          /\ Playlist.id pl1 = Playlist.id pl
          /\ Playlist.name pl1 = Playlist.name pl
          /\ (tid ∈ Playlist.trackIds pl -> pl1 = pl /\ current w1 = current w)
          /\ (tid ∉ Playlist.trackIds pl ->
              Playlist.trackIds pl1 = Playlist.trackIds pl ++ [tid])
          /\ ((length (filter (fun x => x = tid) (Playlist.trackIds pl)) <= 1)%nat ->
              length (filter (fun x => x = tid) (Playlist.trackIds pl1)) = 1%nat)
          /\ (NoDup (Playlist.trackIds pl) ->
              NoDup (Playlist.trackIds pl1)
              /\ length (filter (fun x => x = tid) (Playlist.trackIds pl1)) = 1%nat)).
Proof.
  split; [apply post_playlist_tracks_no_playlist|].
  split.
  { intros v Hpl Hproto Htruthy.
    rewrite (post_playlist_tracks_inherited _ _ _ _ Hpl Hproto Htruthy).
    split.
    - intros Hno. destruct trackId as [tid|]; [|reflexivity].
      rewrite (bool_decide_eq_false_2 _ (Hno tid eq_refl)). reflexivity.
    - intros tid -> Hin. rewrite (bool_decide_eq_true_2 _ Hin). reflexivity. }
  split; [intros pl; apply post_playlist_tracks_no_track|].
  intros pl tid Hpl -> Htid.
  pose proof (post_playlist_tracks_run w pid pl tid Hpl Htid) as Hrun1.
  cbv zeta in Hrun1.
  set (pl1 := if negb (includes tid (Playlist.trackIds pl))
              then {| Playlist.id := Playlist.id pl;
                      Playlist.name := Playlist.name pl;
                      Playlist.trackIds := Playlist.trackIds pl ++ [tid] |}
              else pl) in *.
  set (db1 := {| tracks := tracks (current w);
                 playlists := <[pid := pl1]> (playlists (current w)) |}) in *.
  set (w1 := {| data_file := Some (Json db1); uploads := uploads w;
                written := db1 :: written w; proto_name := proto_name w |}) in *.
  assert (Hin1 : tid ∈ Playlist.trackIds pl1).
  { subst pl1. destruct (includes tid (Playlist.trackIds pl)) eqn:Hinc; cbn.
    - by apply includes_true.
    - apply elem_of_app. right. by left. }
  assert (Hpl1 : playlists (current w1) !! pid = Some pl1)
    by apply lookup_insert_eq.
  pose proof (post_playlist_tracks_run w1 pid pl1 tid Hpl1 Htid) as Hrun2.
  cbv zeta in Hrun2.
  apply includes_true in Hin1 as Hinc1. rewrite Hinc1 in Hrun2. cbn [negb] in Hrun2.
  eexists pl1, w1, _. split; [exact Hrun1|]. split; [exact Hrun2|].
  subst w1 db1. rewrite !current_Json. cbn [tracks playlists].
  repeat apply conj; try reflexivity.
  - by rewrite insert_insert_eq.
  - subst pl1. by destruct (negb _).
  - subst pl1. by destruct (negb _).
  - intros Hin. apply includes_true in Hin. subst pl1. rewrite Hin. cbn [negb].
    split; [reflexivity|]. rewrite (insert_id _ _ _ Hpl). apply store_eta.
  - intros Hnot. apply includes_false in Hnot. subst pl1. rewrite Hnot.
    reflexivity.
  - intros Hle. subst pl1.
    destruct (includes tid (Playlist.trackIds pl)) eqn:Hinc; cbn [negb].
    + apply includes_true, occurrences_present in Hinc. lia.
    + apply includes_false in Hinc. cbn [Playlist.trackIds].
      rewrite filter_app, (occurrences_absent _ _ Hinc).
      rewrite filter_cons_True by reflexivity. reflexivity.
  - intros Hnd.
    assert (Hnd1 : NoDup (Playlist.trackIds pl1)).
    { subst pl1. destruct (includes tid (Playlist.trackIds pl)) eqn:Hinc; cbn;
        [assumption|].
      apply includes_false in Hinc. apply NoDup_app. repeat split.
      - assumption.
      - intros x Hx Hx'. apply list_elem_of_singleton in Hx' as ->. contradiction.
      - apply NoDup_singleton. }
    split; [assumption|].
    pose proof (occurrences_NoDup tid _ Hnd1).
    pose proof (occurrences_present tid _ Hin1). lia.
Qed.

(** C5 on the sample disk: the remote track is added twice to the
    playlist, which holds the uploaded one; a playlist id that nothing
    knows; and the id "constructor", which no playlist has, with a track
    of the store and with an unknown one. *)
Lemma add_track_idempotent_witness :
  (exists pl1 w1 w2,
    post_playlist_tracks "p1" (Some "t2") sample_world
    = (Ok (json 200 (JsonOkPlaylist pl1)), w1)
    /\ post_playlist_tracks "p1" (Some "t2") w1
       = (Ok (json 200 (JsonOkPlaylist pl1)), w2)
    /\ current w2 = current w1
    /\ Playlist.trackIds pl1 = ["t1"; "t2"])
  /\ post_playlist_tracks "p9" (Some "t1") sample_world
     = (Ok (json 404 (JsonError "playlist not found")), sample_world)
  /\ post_playlist_tracks "constructor" (Some "t1") sample_world
     = (Throw "TypeError", sample_world)
  /\ post_playlist_tracks "constructor" (Some "zz") sample_world
     = (Ok (json 400 (JsonError "track not found")), sample_world).
Proof.
  refine (conj _ (conj _ (conj _ _))).
  - destruct (proj2 (proj2 (proj2 (add_track_idempotent sample_world "p1" (Some "t2"))))
                (Playlist.mk "p1" "Mix" ["t1"]) "t2" eq_refl eq_refl
                ltac:(apply (bool_decide_unpack _); vm_compute; exact I))
      as (pl1 & w1 & w2 & H1 & H2 & Hsame & _ & _ & _ & _ & _ & Happ & _ & _).
    exists pl1, w1, w2. repeat apply conj; try assumption.
    apply Happ. apply (bool_decide_unpack _). vm_compute. exact I.
  - exact (proj1 (add_track_idempotent sample_world "p9" (Some "t1"))
             eq_refl eq_refl).
  - exact (proj2 (proj1 (proj2 (add_track_idempotent sample_world "constructor"
                                  (Some "t1")))
                    ProtoFunction eq_refl eq_refl eq_refl)
             "t1" eq_refl
             ltac:(apply (bool_decide_unpack _); vm_compute; exact I)).
  - refine (proj1 (proj1 (proj2 (add_track_idempotent sample_world "constructor"
                                   (Some "zz")))
                     ProtoFunction eq_refl eq_refl eq_refl) _).
    intros tid [= <-]. apply (bool_decide_unpack _). vm_compute. exact I.
Defined.

(** C7.  Creating a playlist with an empty name or a name of white space
    only is answered 400 and nothing is written; so is a body without a
    name, as long as [Object.prototype] has no property [name].  With a
    name that holds more than white space, the playlist with the id drawn
    for it, the trimmed name and an empty sequence is written to the store
    and returned, the other playlists and the tracks stay as they were, and
    when the id is fresh (no playlist of the store has it) the store holds
    one playlist more.  But a body without a name inherits the name that
    [Object.prototype] has, and the rename route gives it one: PUT
    /api/playlists/__proto__ with a name is answered ok and assigns the
    trimmed name to [Object.prototype]; from then on a create request
    without a name is answered ok and a playlist of that name is
    written. *)
Theorem create_playlist (w : World) (name : option string) (uuid : string) :
  ((name = None /\ proto_name w = None)
   \/ (exists s, name = Some s /\ JS.all_chars JS.is_whitespace s = true) ->
   post_playlists name uuid w = (Ok (json 400 (JsonError "name required")), w))
  /\ (forall s,
        name = Some s ->
        JS.all_chars JS.is_whitespace s = false ->
        exists w' pl,
          pl = {| Playlist.id := uuid;
                  Playlist.name := JS.trim s;
                  Playlist.trackIds := [] |}
          /\ JS.trim s <> EmptyString
          /\ post_playlists name uuid w = (Ok (json 200 (JsonOkPlaylist pl)), w')
          /\ tracks (current w') = tracks (current w)
          /\ playlists (current w') = <[uuid := pl]> (playlists (current w))
          /\ playlists (current w') !! uuid = Some pl
          /\ (forall pid, pid <> uuid ->
                playlists (current w') !! pid = playlists (current w) !! pid)
          /\ (playlists (current w) !! uuid = None ->
              size (playlists (current w')) = S (size (playlists (current w)))))
  /\ (forall s,
        name = None ->
        proto_name w = Some s ->
        JS.all_chars JS.is_whitespace s = false ->
        exists w' pl,
          pl = {| Playlist.id := uuid;
                  Playlist.name := JS.trim s;
                  Playlist.trackIds := [] |}
          /\ post_playlists name uuid w = (Ok (json 200 (JsonOkPlaylist pl)), w')
          /\ playlists (current w') = <[uuid := pl]> (playlists (current w))
          /\ written w' = current w' :: written w)
  /\ (forall s,
        playlists (current w) !! "__proto__" = None ->
        JS.all_chars JS.is_whitespace s = false ->
        exists w',
          put_playlist "__proto__" (Some s) w
          = (Ok (json 200 (JsonOkInherited ProtoObject)), w')
          /\ proto_name w' = Some (JS.trim s)
          /\ current w' = current w).
Proof.
  refine (conj _ (conj _ (conj _ _))).
  - intros [[-> Hproto]|(s & -> & Hs)];
      unfold post_playlists, body_name, Object_prototype_name, bind, ret.
    + rewrite Hproto. reflexivity.
    + rewrite (name_missing_ws (Some s)) by eauto. reflexivity.
  - intros s -> Hs. unfold post_playlists, body_name, bind, ret.
    rewrite (name_missing_named s Hs), readDB_current, writeDB_run.
    cbn [playlists default from_option id].
    rewrite lookup_insert_eq.
    eexists _, _. split; [reflexivity|].
    split; [pose proof (trim_nonempty s Hs); by destruct (JS.trim s)|].
    split; [reflexivity|].
    rewrite current_Json. cbn [tracks playlists].
    repeat apply conj; try reflexivity.
    + apply lookup_insert_eq.
    + intros pid Hne. by apply lookup_insert_ne.
    + intros Hfresh. by apply map_size_insert_None.
  - intros s -> Hproto Hs.
    unfold post_playlists, body_name, Object_prototype_name, bind, ret.
    rewrite Hproto, (name_missing_named s Hs), readDB_current, writeDB_run.
    cbn [playlists default from_option id].
    rewrite lookup_insert_eq.
    eexists _, _. split; [reflexivity|]. split; [reflexivity|].
    rewrite current_Json. cbn [written]. split; reflexivity.
  - intros s Hpl Hs. unfold put_playlist, body_name, bind, ret.
    rewrite readDB_current.
    rewrite (playlists_get_inherited _ _ ProtoObject _ Hpl eq_refl eq_refl).
    rewrite (name_missing_named s Hs). cbn [negb].
    unfold set_Object_prototype_name. rewrite writeDB_run.
    cbn [default from_option id data_file uploads written proto_name].
    eexists. split; [reflexivity|]. split; [reflexivity|]. apply current_Json.
Qed.

(** C7 on the sample disk: an empty name, a blank name, no name, and a
    name between blanks; then the rename of "__proto__" to "x", after
    which a body without a name creates the playlist "x". *)
Lemma create_playlist_witness :
  post_playlists (Some "") "u1" sample_world
  = (Ok (json 400 (JsonError "name required")), sample_world)
  /\ post_playlists (Some "   ") "u1" sample_world
     = (Ok (json 400 (JsonError "name required")), sample_world)
  /\ post_playlists None "u1" sample_world
     = (Ok (json 400 (JsonError "name required")), sample_world)
  /\ (exists w',
       post_playlists (Some "  Road trip ") "u1" sample_world
       = (Ok (json 200 (JsonOkPlaylist (Playlist.mk "u1" "Road trip" []))), w')
       /\ playlists (current w') !! "u1" = Some (Playlist.mk "u1" "Road trip" []))
  /\ (exists w1 w2,
       put_playlist "__proto__" (Some "x") sample_world
       = (Ok (json 200 (JsonOkInherited ProtoObject)), w1)
       /\ post_playlists None "u1" w1
          = (Ok (json 200 (JsonOkPlaylist (Playlist.mk "u1" "x" []))), w2)
       /\ playlists (current w2) !! "u1" = Some (Playlist.mk "u1" "x" [])).
Proof.
  refine (conj _ (conj _ (conj _ (conj _ _)))).
  - apply (proj1 (create_playlist sample_world (Some "") "u1")).
    right. exists "". split; reflexivity.
  - apply (proj1 (create_playlist sample_world (Some "   ") "u1")).
    right. exists "   ". split; reflexivity.
  - apply (proj1 (create_playlist sample_world None "u1")).
    left. split; reflexivity.
  - destruct (proj1 (proj2 (create_playlist sample_world (Some "  Road trip ") "u1"))
                "  Road trip " eq_refl eq_refl)
      as (w' & pl & -> & _ & Hrun & _ & _ & Hlook & _).
    exists w'. split; [exact Hrun | exact Hlook].
  - destruct (proj2 (proj2 (proj2 (create_playlist sample_world None "u1")))
                "x" eq_refl eq_refl)
      as (w1 & Hput & Hname & Hcur).
    destruct (proj1 (proj2 (proj2 (create_playlist w1 None "u1")))
                "x" eq_refl Hname eq_refl)
      as (w2 & pl & -> & Hpost & Hpls & _).
    exists w1, w2. split; [exact Hput|]. split; [exact Hpost|].
    rewrite Hpls. apply lookup_insert_eq.
Defined.

(* ===================================================================== *)
(** ** Requests that fail, and the invariant of the store *)
(* ===================================================================== *)

Ltac unfold_handlers H :=
  unfold upload_array, multer_store, post_music_upload, post_music_url,
    get_music, get_playlists, delete_music, post_playlists, put_playlist,
    delete_playlist, post_playlist_tracks, delete_playlist_tracks,
    playlists_get, body_name, Object_prototype_name, set_Object_prototype_name,
    path_join_uploads, try_catch, fs_unlink, bind, ret, throw in H.

Lemma get_property_own n (o : gmap string Playlist.t) key pl :
  get_property n o key = Some (inl pl) -> o !! key = Some pl.
Proof.
  unfold get_property. destruct (o !! key) as [pl'|]; [congruence|].
  destruct (inherited_property n key); discriminate.
Qed.

Lemma get_property_inherited n (o : gmap string Playlist.t) key v :
  get_property n o key = Some (inr v) -> o !! key = None.
Proof.
  unfold get_property. destruct (o !! key) as [pl'|]; [discriminate|reflexivity].
Qed.

Ltac own_lookups :=
  repeat match goal with
    | H : get_property _ _ _ = Some (inl _) |- _ => apply get_property_own in H
    end.

Ltac step_handler H :=
  repeat first
    [ rewrite readDB_current in H
    | rewrite writeDB_run in H
    | progress cbn beta iota in H
    | match type of H with
      | context [match ?x with _ => _ end] =>
          lazymatch x with
          | context [match _ with _ => _ end] => fail
          | _ => destruct x eqn:?
          end
      end ];
  own_lookups.

(** C10. A mutating request that is answered 400 or 404 has written
    nothing: the handler returned before any call of [writeDB] and before
    any file was removed, so db.json, the uploads directory and the list of
    stores written are what they were before the request. *)
Theorem failed_request_writes_nothing
    (mime_getType : string -> option string) (w w' : World)
    (req : Request) (res : Response) :
  mutating req = true ->
  handle mime_getType req w = (Ok res, w') ->
  status res = 400 \/ status res = 404 ->
  w' = w /\ written w' = written w /\ current w' = current w.
Proof.
  intros Hmut Hrun Hstatus.
  assert (w' = w) as ->; [|auto].
  destruct req; try discriminate Hmut; cbn [handle] in Hrun;
    unfold_handlers Hrun; step_handler Hrun; simplify_eq;
    try reflexivity;
    cbn in Hstatus; destruct Hstatus; discriminate.
Qed.

(** C10 on the sample disk: deleting a track that is not there. *)
Lemma failed_request_writes_nothing_witness :
  step sample_mime sample_world (DeleteMusic "zz") = sample_world
  /\ written (step sample_mime sample_world (DeleteMusic "zz")) = []
  /\ current (step sample_mime sample_world (DeleteMusic "zz")) = sample_store.
Proof.
  exact (failed_request_writes_nothing sample_mime sample_world
           (step sample_mime sample_world (DeleteMusic "zz"))
           (DeleteMusic "zz") (json 404 (JsonError "not found"))
           eq_refl eq_refl (or_intror eq_refl)).
Defined.

Section Integrity.

Context (mime_getType : string -> option string).

Lemma ref_integrity_lookup db :
  ref_integrity db <->
  forall pid pl tid,
    playlists db !! pid = Some pl -> tid ∈ Playlist.trackIds pl ->
    tid ∈ Track.id <$> tracks db.
Proof.
  unfold ref_integrity. rewrite map_Forall_lookup. split.
  - intros H pid pl tid Hpl Htid.
    specialize (H pid pl Hpl). rewrite Forall_forall in H. auto.
  - intros H pid pl Hpl. apply Forall_forall. eauto.
Qed.

Lemma ref_integrity_empty : ref_integrity empty_store.
Proof. apply map_Forall_empty. Qed.

(** More tracks break nothing. *)
Lemma ref_integrity_push db l :
  ref_integrity db ->
  ref_integrity {| tracks := tracks db ++ l; playlists := playlists db |}.
Proof.
  rewrite !ref_integrity_lookup. cbn. intros H pid pl tid Hpl Htid.
  rewrite fmap_app. apply elem_of_app. left. eauto.
Qed.

(** Deleting a track is safe because its id leaves every playlist. *)
Lemma ref_integrity_delete_track db id idx :
  findIndex (has_id id) (tracks db) = Some idx ->
  ref_integrity db ->
  ref_integrity {| tracks := delete idx (tracks db);
                   playlists := unlink_track id <$> playlists db |}.
Proof.
  intros Hidx. rewrite !ref_integrity_lookup. cbn [tracks playlists].
  intros H pid pl tid Hpl Htid.
  rewrite lookup_fmap in Hpl.
  destruct (playlists db !! pid) as [pl0|] eqn:Hpl0; [|discriminate].
  cbn in Hpl. simplify_eq. cbn in Htid.
  apply list_elem_of_filter in Htid as [Hne Htid].
  specialize (H pid pl0 tid Hpl0 Htid).
  apply list_elem_of_fmap in H as (x & -> & Hx).
  destruct (findIndex_Some _ _ _ Hidx) as (t & Ht & Hid).
  apply list_elem_of_fmap_2. eapply elem_of_delete_other; eauto. congruence.
Qed.

(** Writing a playlist is safe when its sequence holds ids of tracks. *)
Lemma ref_integrity_insert db pid pl :
  ref_integrity db ->
  (forall tid, tid ∈ Playlist.trackIds pl -> tid ∈ Track.id <$> tracks db) ->
  ref_integrity {| tracks := tracks db; playlists := <[pid := pl]> (playlists db) |}.
Proof.
  intros H Hpl. unfold ref_integrity in *. cbn [tracks playlists].
  apply map_Forall_insert_2; [by apply Forall_forall | assumption].
Qed.

Lemma ref_integrity_delete_playlist db pid :
  ref_integrity db ->
  ref_integrity {| tracks := tracks db; playlists := delete pid (playlists db) |}.
Proof. intros H. unfold ref_integrity in *. by apply map_Forall_delete. Qed.

(** One request keeps referential integrity. *)
Lemma step_ref_integrity w req :
  ref_integrity (current w) -> ref_integrity (current (step mime_getType w req)).
Proof.
  intros Hinv. unfold step.
  destruct (handle mime_getType req w) as [r w'] eqn:Hrun. cbn [snd].
  destruct req; cbn [handle] in Hrun.
  - (* upload *)
    unfold_handlers Hrun.
    destruct (20 <? length files)%nat; [by simplify_eq|].
    step_handler Hrun. simplify_eq. rewrite current_Json.
    apply ref_integrity_push.
    erewrite current_data_file; [exact Hinv | reflexivity].
  - (* url *)
    unfold_handlers Hrun. step_handler Hrun; simplify_eq; try assumption.
    rewrite current_Json. by apply ref_integrity_push.
  - unfold_handlers Hrun. step_handler Hrun. by simplify_eq.
  - (* delete track *)
    destruct (findIndex (has_id id) (tracks (current w))) as [idx|] eqn:Hidx.
    + destruct (findIndex_Some _ _ _ Hidx) as (t & Ht & _).
      rewrite (delete_music_run w id idx t Hidx Ht) in Hrun. simplify_eq.
      rewrite current_Json. by apply ref_integrity_delete_track.
    + apply findIndex_None in Hidx.
      rewrite (delete_music_absent w id Hidx) in Hrun. by simplify_eq.
  - (* stream *)
    pose proof (get_music_stream_world mime_getType w id range) as Hsame.
    rewrite Hrun in Hsame. cbn [snd] in Hsame. by subst w'.
  - unfold_handlers Hrun. step_handler Hrun. by simplify_eq.
  - (* create playlist *)
    unfold_handlers Hrun. step_handler Hrun; simplify_eq; try assumption;
      rewrite current_Json; apply ref_integrity_insert; try assumption;
      intros tid Htid; by apply elem_of_nil in Htid.
  - (* rename *)
    unfold_handlers Hrun. step_handler Hrun; simplify_eq; try assumption;
      rewrite current_Json; apply ref_integrity_insert; try assumption;
      intros tid Htid; cbn in Htid;
      eapply ref_integrity_lookup; eauto.
  - (* delete playlist *)
    unfold_handlers Hrun. step_handler Hrun; simplify_eq; try assumption.
    rewrite current_Json. by apply ref_integrity_delete_playlist.
  - (* add track *)
    unfold_handlers Hrun. step_handler Hrun; simplify_eq; try assumption;
      rewrite current_Json; apply ref_integrity_insert; try assumption;
      intros tid Htid.
    + cbn in Htid. apply elem_of_app in Htid as [Htid|Htid].
      * eapply ref_integrity_lookup; eauto.
      * apply list_elem_of_singleton in Htid as ->.
        match goal with
        | H : find (has_id _) _ = Some _ |- _ =>
            apply find_Some_id in H as [Hin <-]
        end.
        by apply list_elem_of_fmap_2.
    + eapply ref_integrity_lookup; eauto.
  - (* remove track *)
    unfold_handlers Hrun. step_handler Hrun; simplify_eq; try assumption.
    rewrite current_Json. apply ref_integrity_insert; [assumption|].
    intros tid Htid. cbn in Htid. apply list_elem_of_filter in Htid as [_ Htid].
    eapply ref_integrity_lookup; eauto.
Qed.

End Integrity.

(** C2. Referential integrity is an invariant of the store: from a disk
    whose store satisfies it, the store after any sequence of requests
    satisfies it, that is, every id in the sequence of a playlist is the id
    of a track of the store.  The two routes that could break it do not:
    an add that is answered ok was given the id of a track of the store,
    and after a delete that is answered ok no playlist holds the id. *)
Theorem referential_integrity_invariant
    (mime_getType : string -> option string) (w : World) (reqs : list Request) :
  ref_integrity (current w) ->
  ref_integrity (current (run mime_getType w reqs))
  /\ (forall pid pl tid,
        playlists (current (run mime_getType w reqs)) !! pid = Some pl ->
        tid ∈ Playlist.trackIds pl ->
        exists t, t ∈ tracks (current (run mime_getType w reqs)) /\ Track.id t = tid)
  /\ (forall v pid trackId res v',
        post_playlist_tracks pid trackId v = (Ok res, v') ->
        status res = 200 ->
        exists tid, trackId = Some tid /\ tid ∈ Track.id <$> tracks (current v))
  /\ (forall v id res v',
        delete_music id v = (Ok res, v') ->
        status res = 200 ->
        forall pid pl, playlists (current v') !! pid = Some pl ->
                       id ∉ Playlist.trackIds pl).
Proof.
  intros Hinv.
  assert (Hrun : ref_integrity (current (run mime_getType w reqs))).
  { unfold run. revert w Hinv. induction reqs as [|req reqs IH]; intros w Hinv.
    - exact Hinv.
    - cbn [foldl]. apply IH. by apply step_ref_integrity. }
  repeat apply conj.
  - exact Hrun.
  - intros pid pl tid Hpl Htid.
    pose proof (proj1 (ref_integrity_lookup _) Hrun pid pl tid Hpl Htid) as Hin.
    apply list_elem_of_fmap in Hin as (t & -> & Ht). eauto.
  - intros v pid trackId res v' Hadd Hok.
    unfold_handlers Hadd. step_handler Hadd; simplify_eq; try discriminate Hok.
    all: eexists; split; [reflexivity|].
    all: match goal with
         | H : find (has_id _) _ = Some _ |- _ =>
             apply find_Some_id in H as [Hin <-]
         end.
    all: by apply list_elem_of_fmap_2.
  - intros v id res v' Hdel Hok pid pl Hpl.
    destruct (findIndex (has_id id) (tracks (current v))) as [idx|] eqn:Hidx.
    + destruct (findIndex_Some _ _ _ Hidx) as (t & Ht & _).
      rewrite (delete_music_run v id idx t Hidx Ht) in Hdel. simplify_eq.
      rewrite current_Json in Hpl. cbn [playlists] in Hpl.
      rewrite lookup_fmap in Hpl.
      destruct (playlists (current v) !! pid); cbn in Hpl; simplify_eq.
      apply unlink_track_ids.
    + apply findIndex_None in Hidx.
      rewrite (delete_music_absent v id Hidx) in Hdel. by simplify_eq.
Qed.

(** C2 on the sample disk: the remote track joins the playlist, the
    uploaded track is deleted, a playlist is created, and a track that is
    gone is added in vain. *)
Lemma referential_integrity_invariant_witness :
  ref_integrity
    (current
       (run sample_mime sample_world
          [PostPlaylistTracks "p1" (Some "t2");
           DeleteMusic "t1";
           PostPlaylists (Some "Late") "p2";
           PostPlaylistTracks "p2" (Some "t1")])).
Proof.
  apply (referential_integrity_invariant sample_mime sample_world).
  apply ref_integrity_lookup. intros pid pl tid Hpl Htid.
  destruct (decide (pid = "p1")) as [->|Hne].
  - vm_compute in Hpl. simplify_eq.
    apply list_elem_of_singleton in Htid as ->. vm_compute. left.
  - change (playlists (current sample_world))
      with ({[ "p1" := Playlist.mk "p1" "Mix" ["t1"] ]} : gmap string Playlist.t)
      in Hpl.
    rewrite lookup_singleton_ne in Hpl by congruence. discriminate.
Defined.

(* ===================================================================== *)
(** ** The other rules of the data model are invariants too *)
(* ===================================================================== *)

Section DataModel.

Context (mime_getType : string -> option string).

(** The routes never put an id twice into a playlist. *)
Lemma step_playlists_nodup w req :
  playlists_nodup (current w) ->
  playlists_nodup (current (step mime_getType w req)).
Proof.
  unfold playlists_nodup. intros Hinv. unfold step.
  destruct (handle mime_getType req w) as [r w'] eqn:Hrun. cbn [snd].
  destruct req; cbn [handle] in Hrun.
  - unfold_handlers Hrun.
    destruct (20 <? length files)%nat; [by simplify_eq|].
    step_handler Hrun. simplify_eq. rewrite current_Json. cbn [playlists].
    erewrite current_data_file; [exact Hinv | reflexivity].
  - unfold_handlers Hrun. step_handler Hrun; simplify_eq; assumption.
  - unfold_handlers Hrun. step_handler Hrun. by simplify_eq.
  - destruct (findIndex (has_id id) (tracks (current w))) as [idx|] eqn:Hidx.
    + destruct (findIndex_Some _ _ _ Hidx) as (t & Ht & _).
      rewrite (delete_music_run w id idx t Hidx Ht) in Hrun. simplify_eq.
      rewrite current_Json. cbn [playlists]. apply map_Forall_fmap.
      eapply map_Forall_impl; [exact Hinv|].
      intros pid pl Hnd. cbn. by apply NoDup_filter.
    + apply findIndex_None in Hidx.
      rewrite (delete_music_absent w id Hidx) in Hrun. by simplify_eq.
  - pose proof (get_music_stream_world mime_getType w id range) as Hsame.
    rewrite Hrun in Hsame. cbn [snd] in Hsame. by subst w'.
  - unfold_handlers Hrun. step_handler Hrun. by simplify_eq.
  - unfold_handlers Hrun. step_handler Hrun; simplify_eq; try assumption;
      rewrite current_Json; cbn [playlists];
      (apply map_Forall_insert_2; [apply NoDup_nil_2 | assumption]).
  - unfold_handlers Hrun. step_handler Hrun; simplify_eq; try assumption;
      rewrite current_Json; cbn [playlists];
      (apply map_Forall_insert_2; [|assumption]); cbn;
      eapply (map_Forall_lookup_1 _ _ _ _ Hinv); eassumption.
  - unfold_handlers Hrun. step_handler Hrun; simplify_eq; try assumption.
    rewrite current_Json. cbn [playlists]. by apply map_Forall_delete.
  - unfold_handlers Hrun. step_handler Hrun; simplify_eq; try assumption;
      rewrite current_Json; cbn [playlists];
      (apply map_Forall_insert_2; [|assumption]);
      match goal with
      | H : playlists (current w) !! _ = Some ?pl |- _ =>
          pose proof (map_Forall_lookup_1 _ _ _ _ Hinv H) as Hnd
      end; cbn in Hnd |- *; [|assumption].
    apply NoDup_app. repeat split; [assumption| |apply NoDup_singleton].
    intros x Hx Hx'. apply list_elem_of_singleton in Hx' as ->.
    match goal with
    | H : negb (includes _ _) = true |- _ =>
        apply negb_true_iff, includes_false in H
    end.
    contradiction.
  - unfold_handlers Hrun. step_handler Hrun; simplify_eq; try assumption.
    rewrite current_Json. cbn [playlists].
    apply map_Forall_insert_2; [|assumption]. cbn. apply NoDup_filter.
    eapply (map_Forall_lookup_1 _ _ _ _ Hinv); eassumption.
Qed.

Lemma track_of_upload_id f : Track.id (track_of_upload f) = file_uuid f.
Proof. unfold track_of_upload. by destruct (parsed f). Qed.

Lemma NoDup_delete {A} (l : list A) idx : NoDup l -> NoDup (delete idx l).
Proof.
  revert idx. induction l as [|x l IH]; intros [|idx] Hnd; cbn; try assumption.
  - by apply NoDup_cons in Hnd as [_ Hnd].
  - apply NoDup_cons in Hnd as [Hx Hnd]. apply NoDup_cons. split; [|auto].
    intros Hin. apply Hx. by apply list_elem_of_delete_inv in Hin.
Qed.

(** With fresh uuids the routes never give two tracks the same id. *)
Lemma step_unique_ids w req :
  unique_ids (current w) ->
  fresh_uuids (current w) req ->
  unique_ids (current (step mime_getType w req)).
Proof.
  unfold unique_ids. intros Hinv Hfresh. unfold step.
  destruct (handle mime_getType req w) as [r w'] eqn:Hrun. cbn [snd].
  destruct req; cbn [handle] in Hrun; cbn [fresh_uuids] in Hfresh.
  - unfold_handlers Hrun.
    destruct (20 <? length files)%nat; [by simplify_eq|].
    step_handler Hrun. simplify_eq. rewrite current_Json. cbn [tracks].
    erewrite (current_data_file _ w) by reflexivity.
    destruct Hfresh as [Hnd Hnew].
    rewrite fmap_app, <- list_fmap_compose.
    apply NoDup_app. repeat split; [assumption| |].
    + intros x Hx Hx'. apply list_elem_of_fmap in Hx' as (f & -> & Hf).
      cbn in Hx. rewrite track_of_upload_id in Hx. by apply (Hnew f Hf).
    + erewrite list_fmap_ext; [exact Hnd|].
      intros i f _. apply track_of_upload_id.
  - unfold_handlers Hrun. step_handler Hrun; simplify_eq; try assumption.
    rewrite current_Json. cbn [tracks]. rewrite fmap_app.
    apply NoDup_app. repeat split; [assumption| |apply NoDup_singleton].
    intros x Hx Hx'. apply list_elem_of_singleton in Hx'. cbn in Hx'. by subst.
  - unfold_handlers Hrun. step_handler Hrun. by simplify_eq.
  - destruct (findIndex (has_id id) (tracks (current w))) as [idx|] eqn:Hidx.
    + destruct (findIndex_Some _ _ _ Hidx) as (t & Ht & _).
      rewrite (delete_music_run w id idx t Hidx Ht) in Hrun. simplify_eq.
      rewrite current_Json. cbn [tracks]. rewrite list_fmap_delete.
      by apply NoDup_delete.
    + apply findIndex_None in Hidx.
      rewrite (delete_music_absent w id Hidx) in Hrun. by simplify_eq.
  - pose proof (get_music_stream_world mime_getType w id range) as Hsame.
    rewrite Hrun in Hsame. cbn [snd] in Hsame. by subst w'.
  - unfold_handlers Hrun. step_handler Hrun. by simplify_eq.
  - unfold_handlers Hrun. step_handler Hrun; simplify_eq; try assumption;
      by rewrite current_Json.
  - unfold_handlers Hrun. step_handler Hrun; simplify_eq; try assumption;
      by rewrite current_Json.
  - unfold_handlers Hrun. step_handler Hrun; simplify_eq; try assumption;
      by rewrite current_Json.
  - unfold_handlers Hrun. step_handler Hrun; simplify_eq; try assumption;
      by rewrite current_Json.
  - unfold_handlers Hrun. step_handler Hrun; simplify_eq; try assumption;
      by rewrite current_Json.
Qed.

(** A server that starts without db.json only ever sees playlists without
    duplicates. *)
Lemma run_playlists_nodup w reqs :
  playlists_nodup (current w) ->
  playlists_nodup (current (run mime_getType w reqs)).
Proof.
  unfold run. revert w. induction reqs as [|req reqs IH]; intros w Hinv.
  - exact Hinv.
  - cbn [foldl]. apply IH. by apply step_playlists_nodup.
Qed.

End DataModel.

(* ===================================================================== *)
(** ** Uploading *)
(* ===================================================================== *)

Section Upload.

Context (mime_getType : string -> option string).

(** What multer leaves in the uploads directory. *)
Lemma multer_lookup_other (files : list UploadedFile)
    (u : gmap string (list Byte.byte)) name :
  (forall f, f ∈ files -> filename f <> name) ->
  foldl (fun m f => <[filename f := content f]> m) u files !! name = u !! name.
Proof.
  revert u. induction files as [|f files IH]; intros u Hno; [reflexivity|].
  cbn [foldl]. rewrite IH.
  - apply lookup_insert_ne. apply Hno. left.
  - intros g Hg. apply Hno. by right.
Qed.

Lemma multer_lookup_stored (files : list UploadedFile)
    (u : gmap string (list Byte.byte)) f :
  NoDup (filename <$> files) -> f ∈ files ->
  foldl (fun m f => <[filename f := content f]> m) u files !! filename f
  = Some (content f).
Proof.
  revert u. induction files as [|g files IH]; intros u Hnd Hin;
    [by apply elem_of_nil in Hin|].
  rewrite fmap_cons in Hnd. apply NoDup_cons in Hnd as [Hg Hnd].
  cbn [foldl]. apply elem_of_cons in Hin as [->|Hin]; [|by apply IH].
  rewrite multer_lookup_other; [apply lookup_insert_eq|].
  intros h Hh Heq. apply Hg. rewrite <- Heq. by apply list_elem_of_fmap_2.
Qed.

(** The upload route on at most twenty files. *)
Lemma post_music_upload_run w files :
  (length files <= 20)%nat ->
  let created := track_of_upload <$> files in
  let db' := {| tracks := tracks (current w) ++ created;
                playlists := playlists (current w) |} in
  handle mime_getType (PostMusicUpload files) w
  = (Ok (json 200 (JsonOkTracks created)),
     {| data_file := Some (Json db');
        uploads := foldl (fun m f => <[filename f := content f]> m) (uploads w) files;
        written := db' :: written w; proto_name := proto_name w |}).
Proof.
  intros Hlen. cbv zeta. cbn [handle]. unfold upload_array.
  destruct (Nat.ltb_spec 20 (length files)) as [?|_]; [lia|].
  unfold multer_store, post_music_upload, bind.
  rewrite readDB_current, writeDB_run. cbn [uploads written].
  erewrite (current_data_file _ w) by reflexivity. reflexivity.
Qed.

Lemma track_of_upload_file f :
  Track.type (track_of_upload f) = TFile
  /\ Track.path (track_of_upload f) = Some (filename f)
  /\ Track.src (track_of_upload f) = None.
Proof. unfold track_of_upload. by destruct (parsed f). Qed.

End Upload.

(** X1. An upload of at most twenty files is answered ok with one track
    per file, in the order of the files: the track of a file has the uuid
    drawn for it, is of kind file and points at the name the file was
    stored under.  The tracks are appended to the tracks of the store, the
    playlists stay as they were, the store is written once, and in the
    uploads directory only the names of the stored files change. *)
Theorem upload_appends_tracks
    (mime_getType : string -> option string) (w : World)
    (files : list UploadedFile) :
  (length files <= 20)%nat ->
  exists created w',
    handle mime_getType (PostMusicUpload files) w
    = (Ok (json 200 (JsonOkTracks created)), w')
    /\ length created = length files
    /\ Track.id <$> created = file_uuid <$> files
    /\ Track.path <$> created = (fun f => Some (filename f)) <$> files
    /\ Forall (fun t => Track.type t = TFile /\ Track.src t = None) created
    /\ tracks (current w') = tracks (current w) ++ created
    /\ playlists (current w') = playlists (current w)
    /\ written w' = current w' :: written w
    /\ (forall name, (forall f, f ∈ files -> filename f <> name) ->
          uploads w' !! name = uploads w !! name)
    /\ (NoDup (filename <$> files) ->
        forall f, f ∈ files -> uploads w' !! filename f = Some (content f)).
Proof.
  intros Hlen. eexists _, _.
  split; [apply (post_music_upload_run mime_getType w files Hlen)|].
  rewrite current_Json. cbn [tracks playlists uploads written].
  repeat apply conj; try reflexivity.
  - apply length_fmap.
  - rewrite <- list_fmap_compose. apply list_fmap_ext.
    intros i f _. apply track_of_upload_id.
  - rewrite <- list_fmap_compose. apply list_fmap_ext.
    intros i f _. apply track_of_upload_file.
  - apply Forall_fmap, Forall_forall. intros f _.
    split; apply track_of_upload_file.
  - intros name Hno. by apply multer_lookup_other.
  - intros Hnd f Hf. by apply multer_lookup_stored.
Qed.

(** X1 on the sample disk: two files are uploaded. *)
Lemma upload_appends_tracks_witness :
  exists created w',
    handle sample_mime (PostMusicUpload [sample_upload_a; sample_upload_b]) sample_world
    = (Ok (json 200 (JsonOkTracks created)), w')
    /\ length created = 2%nat
    /\ Track.id <$> created = ["u-1"; "u-2"]
    /\ tracks (current w') = tracks sample_store ++ created.
Proof.
  destruct (upload_appends_tracks sample_mime sample_world
              [sample_upload_a; sample_upload_b]
              (proj1 (Nat.leb_le 2 20) eq_refl))
    as (created & w' & Hrun & Hlen & Hids & _ & _ & Htracks & _).
  exists created, w'. auto.
Defined.

Section UploadThenStream.

Context (mime_getType : string -> option string).

Lemma find_app_fresh id (l1 l2 : list Track.t) :
  id ∉ Track.id <$> l1 ->
  find (has_id id) (l1 ++ l2) = find (has_id id) l2.
Proof.
  induction l1 as [|x l1 IH]; intros Hnot; [reflexivity|].
  rewrite fmap_cons in Hnot. apply not_elem_of_cons in Hnot as [Hne Hnot].
  cbn. assert (has_id id x = false) as -> by (apply has_id_false; congruence).
  auto.
Qed.

(** With unique ids, looking a track up by its id finds that track. *)
Lemma find_unique (l : list Track.t) t :
  NoDup (Track.id <$> l) -> t ∈ l -> find (has_id (Track.id t)) l = Some t.
Proof.
  induction l as [|x l IH]; intros Hnd Hin; [by apply elem_of_nil in Hin|].
  rewrite fmap_cons in Hnd. apply NoDup_cons in Hnd as [Hx Hnd]. cbn.
  destruct (has_id (Track.id t) x) eqn:Hid.
  - apply has_id_true in Hid.
    apply elem_of_cons in Hin as [->|Hin]; [reflexivity|].
    exfalso. apply Hx. rewrite Hid. by apply list_elem_of_fmap_2.
  - apply has_id_false in Hid.
    apply elem_of_cons in Hin as [->|Hin]; [congruence | auto].
Qed.

Lemma created_ids (files : list UploadedFile) :
  Track.id <$> (track_of_upload <$> files) = file_uuid <$> files.
Proof.
  rewrite <- list_fmap_compose. apply list_fmap_ext.
  intros i f _. apply track_of_upload_id.
Qed.

Lemma filename_nonempty f : exists c r, filename f = String c r.
Proof.
  unfold filename. pose proof (show_truthy (date_now f)) as H.
  destruct (JS.show_Z (date_now f)) as [|c r]; [discriminate|]. cbn. eauto.
Qed.

End UploadThenStream.

(** X2. What was uploaded can be streamed.  After an upload of at most
    twenty files that are stored under different names and whose uuids are
    fresh (different from each other and from the ids of the store), a
    request for the id of any of them without a Range header is answered
    200 with the size of the file as Content-Length, and streams the bytes
    that were uploaded. *)
Theorem upload_then_stream
    (mime_getType : string -> option string) (w : World)
    (files : list UploadedFile) (f : UploadedFile) :
  (length files <= 20)%nat ->
  f ∈ files ->
  NoDup (filename <$> files) ->
  NoDup (file_uuid <$> files) ->
  file_uuid f ∉ Track.id <$> tracks (current w) ->
  get_music_stream mime_getType (file_uuid f) None
    (step mime_getType w (PostMusicUpload files))
  = (Ok {| status := 200;
           headers :=
             [("Content-Length", HNum (JS.Int (Z.of_nat (length (content f)))));
              ("Content-Type",
               HStr (default "audio/mpeg" (mime_getType (filename f))))];
           body := FileStream (filename f) None |},
     step mime_getType w (PostMusicUpload files))
  /\ stream_bytes (step mime_getType w (PostMusicUpload files))
       (FileStream (filename f) None)
     = Some (content f).
Proof.
  intros Hlen Hf Hnames Hids Hfresh.
  unfold step. rewrite (post_music_upload_run mime_getType w files Hlen).
  cbn [snd].
  set (w' := {| data_file := _; uploads := _; written := _; proto_name := _ |}).
  assert (Hfile : uploads w' !! filename f = Some (content f))
    by (by apply multer_lookup_stored).
  split; [|exact Hfile].
  assert (Hfind : find (has_id (file_uuid f)) (tracks (current w'))
                  = Some (track_of_upload f)).
  { subst w'. rewrite current_Json. cbn [tracks].
    rewrite (find_app_fresh _ _ _ Hfresh), <- (track_of_upload_id f).
    apply find_unique.
    - by rewrite created_ids.
    - by apply list_elem_of_fmap_2. }
  destruct (track_of_upload_file f) as (Htype & Hpath & _).
  rewrite (get_music_stream_found mime_getType w' _ None _ _ _
             Hfind Htype Hpath Hfile).
  reflexivity.
Qed.

(** X2 on the sample disk: the second of two uploaded files. *)
Lemma upload_then_stream_witness :
  stream_bytes
    (step sample_mime sample_world
       (PostMusicUpload [sample_upload_a; sample_upload_b]))
    (FileStream (filename sample_upload_b) None)
  = Some [Byte.x66; Byte.x4c; Byte.x61; Byte.x43].
Proof.
  apply (upload_then_stream sample_mime sample_world
           [sample_upload_a; sample_upload_b] sample_upload_b
           (proj1 (Nat.leb_le 2 20) eq_refl)).
  - right. left.
  - apply (bool_decide_unpack _). vm_compute. exact I.
  - apply (bool_decide_unpack _). vm_compute. exact I.
  - apply (bool_decide_unpack _). vm_compute. exact I.
Defined.

Section UploadMetadata.

Lemma or_else_truthy_r a b : JS.truthy b = true -> JS.truthy (JS.or_else a b) = true.
Proof. intros Hb. unfold JS.or_else. destruct (JS.truthy a) eqn:Ha; assumption. Qed.

Lemma or_else_truthy_l a b : JS.truthy a = true -> JS.or_else a b = a.
Proof. intros Ha. unfold JS.or_else. by rewrite Ha. Qed.

Lemma or_else_empty a : JS.or_else a EmptyString = a.
Proof. by destruct a. Qed.

Lemma truthy_nonempty s : JS.truthy s = true <-> s <> EmptyString.
Proof. destruct s; cbn; split; congruence. Qed.

End UploadMetadata.

(** X3. The track of an uploaded file never has an empty title when the
    file has a name.  When the tags cannot be read the title, artist and
    genre are the hints of the file name (the whole name when the hint for
    the title is empty), the album is empty and the duration is 0; when the
    tags hold a title, that title is used whatever the file name says. *)
Theorem upload_title_never_empty (f : UploadedFile) :
  originalname f <> EmptyString ->
  Track.title (track_of_upload f) <> EmptyString
  /\ (forall e,
        parsed f = Throw e ->
        Track.title (track_of_upload f)
        = JS.or_else (hint_title (parseFromFilename (originalname f))) (originalname f)
        /\ Track.artist (track_of_upload f)
           = hint_artist (parseFromFilename (originalname f))
        /\ Track.genre (track_of_upload f)
           = hint_genre (parseFromFilename (originalname f))
        /\ Track.album (track_of_upload f) = EmptyString
        /\ Track.duration (track_of_upload f) = 0%Q)
  /\ (forall metadata s,
        parsed f = Ok metadata ->
        common_title metadata = Some s -> s <> EmptyString ->
        Track.title (track_of_upload f) = s).
Proof.
  intros Hname. apply truthy_nonempty in Hname.
  unfold track_of_upload. destruct (parsed f) as [metadata|e0]; cbn.
  - split; [apply truthy_nonempty; by apply or_else_truthy_r|].
    split; [discriminate|].
    intros md s [= <-] Hs Hne. rewrite Hs. cbn.
    apply truthy_nonempty in Hne.
    rewrite (or_else_truthy_l s _ Hne), (or_else_truthy_l s _ Hne).
    by apply or_else_truthy_l.
  - split; [apply truthy_nonempty; by apply or_else_truthy_r|].
    split; [|discriminate].
    intros e _. rewrite !or_else_empty. repeat split.
Qed.

(** X3 on the two sample files. *)
Lemma upload_title_never_empty_witness :
  Track.title (track_of_upload sample_upload_a) = "One More Time"
  /\ Track.title (track_of_upload sample_upload_b) = "Veridis Quo".
Proof.
  split.
  - exact (proj1 (proj1 (proj2 (upload_title_never_empty sample_upload_a
                                   ltac:(discriminate)))
                    "no tags" eq_refl)).
  - exact (proj2 (proj2 (upload_title_never_empty sample_upload_b
                           ltac:(discriminate)))
             _ "Veridis Quo" eq_refl eq_refl ltac:(discriminate)).
Defined.

(* ===================================================================== *)
(** ** Registering a remote track, and taking a track back *)
(* ===================================================================== *)

Section RemoteTracks.

Context (mime_getType : string -> option string).

(** The last track of the list is found by an id no other track has. *)
Lemma findIndex_snoc id (l : list Track.t) t :
  id ∉ Track.id <$> l -> Track.id t = id ->
  findIndex (has_id id) (l ++ [t]) = Some (length l).
Proof.
  intros Hnot Hid. induction l as [|x l IH]; cbn.
  - by rewrite (proj2 (has_id_true id t) Hid).
  - rewrite fmap_cons in Hnot. apply not_elem_of_cons in Hnot as [Hne Hnot].
    rewrite (proj2 (has_id_false id x)) by congruence.
    by rewrite (IH Hnot).
Qed.

Lemma delete_snoc {A} (l : list A) x : delete (length l) (l ++ [x]) = l.
Proof. induction l as [|y l IH]; cbn; [reflexivity | by f_equal]. Qed.

Lemma unlink_track_absent id pl :
  id ∉ Playlist.trackIds pl -> unlink_track id pl = pl.
Proof.
  intros Hnot. destruct pl as [pid name ids]. unfold unlink_track. cbn in *.
  f_equal. induction ids as [|x ids IH]; [reflexivity|].
  apply not_elem_of_cons in Hnot as [Hne Hnot].
  rewrite filter_cons_True by congruence. f_equal. auto.
Qed.

Lemma unlink_track_nowhere id (m : gmap string Playlist.t) :
  (forall pid pl, m !! pid = Some pl -> id ∉ Playlist.trackIds pl) ->
  unlink_track id <$> m = m.
Proof.
  intros Hno. apply map_eq. intros pid. rewrite lookup_fmap.
  destruct (m !! pid) as [pl|] eqn:Hpl; [|reflexivity]. cbn.
  f_equal. apply unlink_track_absent. eauto.
Qed.

(** An id that is the id of no track is in no playlist of a store with
    referential integrity. *)
Lemma fresh_id_in_no_playlist db id :
  ref_integrity db -> id ∉ Track.id <$> tracks db ->
  forall pid pl, playlists db !! pid = Some pl -> id ∉ Playlist.trackIds pl.
Proof.
  intros Hinv Hfresh pid pl Hpl Hin. apply Hfresh.
  eapply ref_integrity_lookup; eauto.
Qed.

(** The registration route on a body with a url. *)
Lemma post_music_url_run w b uuid url :
  body_url b = Some url -> url <> EmptyString ->
  exists track,
    post_music_url b uuid w
    = (Ok (json 200 (JsonOkTrack track)),
       {| data_file := Some (Json {| tracks := tracks (current w) ++ [track];
                                     playlists := playlists (current w) |});
          uploads := uploads w;
          written := {| tracks := tracks (current w) ++ [track];
                        playlists := playlists (current w) |} :: written w;
          proto_name := proto_name w |})
    /\ Track.id track = uuid /\ Track.type track = TUrl
    /\ Track.src track = Some url /\ Track.path track = None
    /\ Track.duration track = 0%Q
    /\ Track.album track = default EmptyString (body_album b)
    /\ Track.title track
       = JS.or_else (default EmptyString (body_title b))
           (JS.or_else
              (hint_title (parseFromFilename
                 (JS.or_else (default EmptyString (JS.pop (JS.split "/" url)))
                             "Stream")))
              (JS.or_else (default EmptyString (JS.pop (JS.split "/" url)))
                          "Stream")).
Proof.
  intros Hurl Hne. unfold post_music_url, bind. rewrite Hurl.
  destruct url as [|c r]; [congruence|]. cbn [JS.truthy negb].
  rewrite readDB_current, writeDB_run. eexists. split; [reflexivity|].
  cbn. repeat split. apply or_else_empty.
Qed.

End RemoteTracks.

(** X4. Registering a remote track with a url that is not empty is
    answered ok with a track of kind url that has the uuid drawn for it,
    the url as its source, no file, duration 0 and a title that is never
    empty (a title sent in the body is used as it is).  The track is
    appended to the tracks of the store; the playlists and the uploads
    directory stay as they were. *)
Theorem url_registration (w : World) (b : UrlBody) (uuid url : string) :
  body_url b = Some url ->
  url <> EmptyString ->
  exists track w',
    post_music_url b uuid w = (Ok (json 200 (JsonOkTrack track)), w')
    /\ Track.id track = uuid
    /\ Track.type track = TUrl
    /\ Track.src track = Some url
    /\ Track.path track = None
    /\ Track.duration track = 0%Q
    /\ Track.title track <> EmptyString
    /\ (forall s, body_title b = Some s -> s <> EmptyString -> Track.title track = s)
    /\ tracks (current w') = tracks (current w) ++ [track]
    /\ playlists (current w') = playlists (current w)
    /\ uploads w' = uploads w
    /\ written w' = current w' :: written w.
Proof.
  intros Hurl Hne.
  destruct (post_music_url_run w b uuid url Hurl Hne)
    as (track & Hrun & Hid & Htype & Hsrc & Hpath & Hdur & _ & Htitle).
  eexists track, _. split; [exact Hrun|].
  rewrite current_Json. cbn [tracks playlists uploads written].
  repeat apply conj; try assumption; try reflexivity.
  - rewrite Htitle. apply truthy_nonempty.
    apply or_else_truthy_r, or_else_truthy_r, or_else_truthy_r. reflexivity.
  - intros s Hs Hs'. rewrite Htitle, Hs. cbn.
    apply or_else_truthy_l. by apply truthy_nonempty.
Qed.

(** X4 on the sample disk: a url that ends in a slash. *)
Lemma url_registration_witness :
  exists track w',
    post_music_url (mkUrlBody (Some "http://radio.example/streams/") None None None None)
      "u-9" sample_world
    = (Ok (json 200 (JsonOkTrack track)), w')
    /\ Track.id track = "u-9"
    /\ Track.title track <> EmptyString
    /\ tracks (current w') = tracks sample_store ++ [track].
Proof.
  destruct (url_registration sample_world
              (mkUrlBody (Some "http://radio.example/streams/") None None None None)
              "u-9" "http://radio.example/streams/" eq_refl ltac:(discriminate))
    as (track & w' & Hrun & Hid & _ & _ & _ & _ & Htitle & _ & Htracks & _).
  exists track, w'. auto.
Defined.

(** X5. A remote track cannot be streamed through the server: after a
    registration with a fresh uuid, the streaming route answers 400 for
    that id, whatever the Range header. *)
Theorem remote_track_not_streamed
    (mime_getType : string -> option string) (w : World) (b : UrlBody)
    (uuid url : string) (range : option string) :
  body_url b = Some url ->
  url <> EmptyString ->
  uuid ∉ Track.id <$> tracks (current w) ->
  get_music_stream mime_getType uuid range (snd (post_music_url b uuid w))
  = (Ok (end_ 400), snd (post_music_url b uuid w)).
Proof.
  intros Hurl Hne Hfresh.
  destruct (post_music_url_run w b uuid url Hurl Hne)
    as (track & Hrun & Hid & Htype & _).
  rewrite Hrun. cbn [snd].
  unfold get_music_stream, bind. rewrite readDB_current, current_Json.
  cbn [tracks]. rewrite (find_app_fresh _ _ _ Hfresh). cbn [find].
  rewrite (proj2 (has_id_true uuid track) Hid), Htype. reflexivity.
Qed.

(** X5 on the sample disk. *)
Lemma remote_track_not_streamed_witness :
  status_of sample_mime (GetMusicStream "u-9" (Some "bytes=0-"))
    (snd (post_music_url
            (mkUrlBody (Some "http://radio.example/live.mp3") None None None None)
            "u-9" sample_world))
  = Some 400.
Proof.
  unfold status_of. cbn [handle].
  rewrite (remote_track_not_streamed sample_mime sample_world
             (mkUrlBody (Some "http://radio.example/live.mp3") None None None None)
             "u-9" "http://radio.example/live.mp3" (Some "bytes=0-")
             eq_refl ltac:(discriminate)
             ltac:(apply (bool_decide_unpack _); vm_compute; exact I)).
  reflexivity.
Defined.

(** X6. Registering a remote track and deleting it again gives the store
    back: when the uuid is fresh and the store has referential integrity,
    the delete is answered ok and leaves the tracks, the playlists and the
    uploads directory as they were before the registration. *)
Theorem register_then_delete (w : World) (b : UrlBody) (uuid url : string) :
  body_url b = Some url ->
  url <> EmptyString ->
  uuid ∉ Track.id <$> tracks (current w) ->
  ref_integrity (current w) ->
  exists w2,
    delete_music uuid (snd (post_music_url b uuid w)) = (Ok (json 200 JsonOk), w2)
    /\ current w2 = current w
    /\ uploads w2 = uploads w.
Proof.
  intros Hurl Hne Hfresh Hinv.
  destruct (post_music_url_run w b uuid url Hurl Hne)
    as (track & Hrun & Hid & Htype & _).
  rewrite Hrun. cbn [snd].
  set (w1 := {| data_file := _; uploads := _; written := _; proto_name := _ |}).
  assert (Hidx : findIndex (has_id uuid) (tracks (current w1))
                 = Some (length (tracks (current w))))
    by (by apply findIndex_snoc).
  assert (Ht : tracks (current w1) !! length (tracks (current w)) = Some track)
    by apply list_lookup_middle, eq_refl.
  pose proof (delete_music_run w1 uuid _ track Hidx Ht) as Hdel.
  cbv zeta in Hdel. rewrite Htype in Hdel.
  eexists. split; [exact Hdel|]. rewrite current_Json.
  subst w1. rewrite current_Json. cbn [tracks playlists uploads].
  split; [|reflexivity].
  rewrite delete_snoc, unlink_track_nowhere; [apply store_eta|].
  by apply fresh_id_in_no_playlist.
Qed.

(** X6 on the sample disk. *)
Lemma register_then_delete_witness :
  exists w2,
    delete_music "u-9"
      (snd (post_music_url
              (mkUrlBody (Some "http://radio.example/live.mp3") None None None None)
              "u-9" sample_world))
    = (Ok (json 200 JsonOk), w2)
    /\ current w2 = sample_store
    /\ uploads w2 = uploads sample_world.
Proof.
  apply (register_then_delete sample_world
           (mkUrlBody (Some "http://radio.example/live.mp3") None None None None)
           "u-9" "http://radio.example/live.mp3" eq_refl ltac:(discriminate)).
  - apply (bool_decide_unpack _). vm_compute. exact I.
  - apply (bool_decide_unpack _). vm_compute. exact I.
Defined.

(** X7. Uploading one file and deleting its track again gives the store
    and the uploads directory back: when the uuid is fresh, the store has
    referential integrity and no file is stored under the name multer
    picks, the delete is answered ok, removes the stored file, and leaves
    the tracks, the playlists and the directory as they were before the
    upload. *)
Theorem upload_then_delete
    (mime_getType : string -> option string) (w : World) (f : UploadedFile) :
  file_uuid f ∉ Track.id <$> tracks (current w) ->
  ref_integrity (current w) ->
  uploads w !! filename f = None ->
  exists w2,
    delete_music (file_uuid f) (step mime_getType w (PostMusicUpload [f]))
    = (Ok (json 200 JsonOk), w2)
    /\ current w2 = current w
    /\ uploads w2 = uploads w.
Proof.
  intros Hfresh Hinv Hnew. unfold step.
  rewrite (post_music_upload_run mime_getType w [f] ltac:(cbn; lia)).
  cbn [snd fmap list_fmap foldl].
  set (w1 := {| data_file := _; uploads := _; written := _; proto_name := _ |}).
  assert (Hidx : findIndex (has_id (file_uuid f)) (tracks (current w1))
                 = Some (length (tracks (current w))))
    by (apply findIndex_snoc; [assumption | apply track_of_upload_id]).
  assert (Ht : tracks (current w1) !! length (tracks (current w))
               = Some (track_of_upload f))
    by apply list_lookup_middle, eq_refl.
  pose proof (delete_music_run w1 (file_uuid f) _ _ Hidx Ht) as Hdel.
  cbv zeta in Hdel.
  destruct (track_of_upload_file f) as (Htype & Hpath & _).
  destruct (filename_nonempty f) as (c & r & Hname).
  rewrite Htype, Hpath, Hname in Hdel.
  eexists. split; [exact Hdel|]. rewrite current_Json.
  subst w1. rewrite current_Json. cbn [tracks playlists uploads].
  split.
  - rewrite delete_snoc, unlink_track_nowhere; [apply store_eta|].
    by apply fresh_id_in_no_playlist.
  - rewrite Hname, delete_insert_eq. apply delete_id. by rewrite <- Hname.
Qed.

(** X7 on the sample disk. *)
Lemma upload_then_delete_witness :
  exists w2,
    delete_music "u-1"
      (step sample_mime sample_world (PostMusicUpload [sample_upload_a]))
    = (Ok (json 200 JsonOk), w2)
    /\ current w2 = sample_store
    /\ uploads w2 = uploads sample_world.
Proof.
  apply (upload_then_delete sample_mime sample_world sample_upload_a).
  - apply (bool_decide_unpack _). vm_compute. exact I.
  - apply (bool_decide_unpack _). vm_compute. exact I.
  - vm_compute. reflexivity.
Defined.

(** X8. Deleting a track of kind file removes its file from the uploads
    directory and no other file; when the file is already gone the failure
    of the removal is swallowed and the delete is still answered ok with
    the record removed.  Deleting a track of kind url leaves the directory
    as it was. *)
Theorem delete_music_removes_file (w : World) (id : string) (idx : nat) (t : Track.t) :
  findIndex (has_id id) (tracks (current w)) = Some idx ->
  tracks (current w) !! idx = Some t ->
  exists w',
    delete_music id w = (Ok (json 200 JsonOk), w')
    /\ tracks (current w') = delete idx (tracks (current w))
    /\ written w' = current w' :: written w
    /\ (forall p, Track.type t = TFile -> Track.path t = Some p ->
                  p <> EmptyString ->
                  uploads w' !! p = None
                  /\ forall q, q <> p -> uploads w' !! q = uploads w !! q)
    /\ (Track.type t = TUrl -> uploads w' = uploads w).
Proof.
  intros Hidx Ht.
  pose proof (delete_music_run w id idx t Hidx Ht) as Hrun. cbv zeta in Hrun.
  eexists. split; [exact Hrun|]. rewrite current_Json.
  cbn [tracks uploads written]. repeat apply conj; try reflexivity.
  - intros p -> -> Hp. destruct p as [|c r]; [congruence|]. split.
    + apply lookup_delete_eq.
    + intros q Hq. by apply lookup_delete_ne.
  - by intros ->.
Qed.

(** X8 on the sample disk: the track whose file is gone. *)
Lemma delete_music_removes_file_witness :
  exists w',
    delete_music "t3" sample_world = (Ok (json 200 JsonOk), w')
    /\ tracks (current w') = [sample_file_track; sample_url_track]
    /\ uploads w' !! "1700000000000-song.mp3" = Some sample_content.
Proof.
  destruct (delete_music_removes_file sample_world "t3" 2 sample_lost_track
              eq_refl eq_refl)
    as (w' & Hrun & Htracks & _ & Hfile & _).
  exists w'. repeat apply conj; [exact Hrun | exact Htracks |].
  rewrite (proj2 (Hfile "1700000000001-gone.mp3" eq_refl eq_refl
                    ltac:(discriminate))
             "1700000000000-song.mp3" ltac:(discriminate)).
  reflexivity.
Defined.

(** X9. A deleted track is gone for the other routes: with unique track
    ids, after a delete that was answered ok the streaming route answers
    404 for the id and a second delete answers 404 and writes nothing. *)
Theorem delete_music_then_gone
    (mime_getType : string -> option string) (w w' : World) (id : string)
    (range : option string) :
  NoDup (Track.id <$> tracks (current w)) ->
  delete_music id w = (Ok (json 200 JsonOk), w') ->
  get_music_stream mime_getType id range w' = (Ok (end_ 404), w')
  /\ delete_music id w' = (Ok (json 404 (JsonError "not found")), w').
Proof.
  intros Hnd Hdel.
  assert (Hgone : id ∉ Track.id <$> tracks (current w')).
  { destruct (findIndex (has_id id) (tracks (current w))) as [idx|] eqn:Hidx.
    - destruct (findIndex_Some _ _ _ Hidx) as (t & Ht & Hid).
      rewrite (delete_music_run w id idx t Hidx Ht) in Hdel. simplify_eq.
      rewrite current_Json. cbn [tracks]. by apply id_gone_after_delete.
    - apply findIndex_None in Hidx.
      rewrite (delete_music_absent w id Hidx) in Hdel. discriminate. }
  split; [|by apply delete_music_absent].
  unfold get_music_stream, bind. rewrite readDB_current.
  by rewrite (proj2 (find_None_id _ _) Hgone).
Qed.

(** X9 on the sample disk. *)
Lemma delete_music_then_gone_witness :
  status_of sample_mime (GetMusicStream "t1" None)
    (step sample_mime sample_world (DeleteMusic "t1")) = Some 404
  /\ status_of sample_mime (DeleteMusic "t1")
       (step sample_mime sample_world (DeleteMusic "t1")) = Some 404.
Proof.
  destruct (delete_music_then_gone sample_mime sample_world
              (step sample_mime sample_world (DeleteMusic "t1")) "t1" None
              ltac:(apply (bool_decide_unpack _); vm_compute; exact I)
              eq_refl)
    as [Hstream Hdel].
  unfold status_of. cbn [handle]. rewrite Hstream, Hdel. split; reflexivity.
Defined.

(* ===================================================================== *)
(** ** More on streaming *)
(* ===================================================================== *)

(** X10. Without a Range header, or with an empty one, the streaming
    route answers 200 with the size of the file as Content-Length, no
    Content-Range, and streams the whole file; the Content-Type is the one
    the mime table knows for the name, and audio/mpeg when it knows none. *)
Theorem stream_whole_file
    (mime_getType : string -> option string) (w : World) (id : string)
    (t : Track.t) (p : string) (content : list Byte.byte) (range : option string) :
  find (has_id id) (tracks (current w)) = Some t ->
  Track.type t = TFile ->
  Track.path t = Some p ->
  uploads w !! p = Some content ->
  range = None \/ range = Some EmptyString ->
  exists contentType,
    get_music_stream mime_getType id range w
    = (Ok {| status := 200;
             headers := [("Content-Length", HNum (JS.Int (Z.of_nat (length content))));
                         ("Content-Type", HStr contentType)];
             body := FileStream p None |}, w)
    /\ stream_bytes w (FileStream p None) = Some content
    /\ (mime_getType p = None -> contentType = "audio/mpeg")
    /\ (forall ty, mime_getType p = Some ty -> contentType = ty).
Proof.
  intros Hfind Htype Hpath Hfile Hrange.
  exists (default "audio/mpeg" (mime_getType p)).
  rewrite (get_music_stream_found mime_getType w id range t p content
             Hfind Htype Hpath Hfile).
  repeat apply conj.
  - by destruct Hrange as [-> | ->].
  - exact Hfile.
  - by intros ->.
  - by intros ty ->.
Qed.

(** X10 on the sample disk. *)
Lemma stream_whole_file_witness :
  exists contentType,
    get_music_stream (fun _ => None) "t1" (Some "") sample_world
    = (Ok {| status := 200;
             headers := [("Content-Length", HNum (JS.Int 300));
                         ("Content-Type", HStr contentType)];
             body := FileStream "1700000000000-song.mp3" None |}, sample_world)
    /\ contentType = "audio/mpeg".
Proof.
  destruct (stream_whole_file (fun _ => None) sample_world "t1" sample_file_track
              "1700000000000-song.mp3" sample_content (Some "")
              eq_refl eq_refl eq_refl eq_refl (or_intror eq_refl))
    as (ty & Hrun & _ & Hdefault & _).
  exists ty. split; [exact Hrun | exact (Hdefault eq_refl)].
Defined.

(** X11. A download can be resumed: for a file of T bytes and an offset
    0 < k < T, the bytes streamed for [bytes=0-(k-1)] followed by the bytes
    streamed for [bytes=k-] are the file, and each answer is 206 with the
    number of bytes it streams as Content-Length. *)
Theorem stream_resume
    (mime_getType : string -> option string) (w : World) (id : string)
    (t : Track.t) (p : string) (content : list Byte.byte) (k : Z) :
  find (has_id id) (tracks (current w)) = Some t ->
  Track.type t = TFile ->
  Track.path t = Some p ->
  uploads w !! p = Some content ->
  0 < k < Z.of_nat (length content) ->
  Z.of_nat (length content) < 2 ^ 53 ->
  exists res1 res2 head tail,
    get_music_stream mime_getType id
      (Some ("bytes=" +:+ JS.show_Z 0 +:+ "-" +:+ JS.show_Z (k - 1))) w
    = (Ok res1, w)
    /\ get_music_stream mime_getType id
         (Some ("bytes=" +:+ JS.show_Z k +:+ "-")) w
       = (Ok res2, w)
    /\ status res1 = 206 /\ status res2 = 206
    /\ stream_bytes w (body res1) = Some head
    /\ stream_bytes w (body res2) = Some tail
    /\ head ++ tail = content
    /\ headers res1 !! 2%nat
       = Some ("Content-Length", HNum (JS.Int (Z.of_nat (length head))))
    /\ headers res2 !! 2%nat
       = Some ("Content-Length", HNum (JS.Int (Z.of_nat (length tail)))).
Proof.
  intros Hfind Htype Hpath Hfile Hk Hbound.
  pose proof (fun r => get_music_stream_found mime_getType w id r t p content
                         Hfind Htype Hpath Hfile) as Hrun.
  pose proof (stream_file_closed mime_getType p (Z.of_nat (length content))
                0 (k - 1) w ltac:(lia) ltac:(lia)) as Hhead.
  pose proof (stream_file_open mime_getType p (Z.of_nat (length content))
                k w ltac:(lia) ltac:(lia)) as Htail.
  destruct (Z.leb_spec 0 (k - 1)); [|lia].
  destruct (Z.ltb_spec k (Z.of_nat (length content))); [|lia].
  eexists _, _, (take (Z.to_nat k) content), (drop (Z.to_nat k) content).
  split; [rewrite Hrun; exact Hhead|]. split; [rewrite Hrun; exact Htail|].
  cbn [status headers body stream_bytes lookup list_lookup].
  rewrite !valid_span_safe by lia. rewrite Hfile.
  destruct (Z.leb_spec k (Z.of_nat (length content) - 1)); [|lia].
  destruct (Z.leb_spec 0 (k - 1)); [|lia].
  cbn [fmap option_fmap option_map].
  unfold read_span.
  replace (Z.to_nat (k - 1 - 0 + 1)) with (Z.to_nat k) by lia.
  replace (Z.to_nat (Z.of_nat (length content) - 1 - k + 1))
    with (length content - Z.to_nat k)%nat by lia.
  change (Z.to_nat 0) with 0%nat. rewrite drop_0.
  rewrite (take_ge (drop _ _)) by (rewrite length_drop; lia).
  repeat apply conj; try reflexivity.
  - apply take_drop.
  - do 4 f_equal. rewrite length_take. lia.
  - do 4 f_equal. rewrite length_drop. lia.
Qed.

(** X11 on the sample disk: the file of 300 bytes, cut at 120. *)
Lemma stream_resume_witness :
  exists head tail,
    stream_bytes sample_world
      (FileStream "1700000000000-song.mp3" (Some (JS.Int 0, JS.Int 119))) = Some head
    /\ stream_bytes sample_world
         (FileStream "1700000000000-song.mp3" (Some (JS.Int 120, JS.Int 299)))
       = Some tail
    /\ head ++ tail = sample_content.
Proof.
  destruct (stream_resume sample_mime sample_world "t1" sample_file_track
              "1700000000000-song.mp3" sample_content 120
              eq_refl eq_refl eq_refl eq_refl
              ltac:(split; reflexivity) ltac:(reflexivity))
    as (res1 & res2 & head & tail & H1 & H2 & _ & _ & Hb1 & Hb2 & Happ & _).
  exists head, tail.
  apply (f_equal fst) in H1, H2. vm_compute in H1, H2.
  injection H1 as <-. injection H2 as <-.
  repeat apply conj; [exact Hb1 | exact Hb2 | exact Happ].
Defined.



(** X13. The three GET routes never change the disk, not even when they
    fail: db.json, the uploads directory and the list of written stores
    are what they were.  The listing routes answer 200 with the tracks (in
    the order of the store) and the playlists that [readDB] returns, which
    is the empty store when db.json is absent or does not parse. *)
Theorem reads_change_nothing
    (mime_getType : string -> option string) (w : World) (req : Request) :
  mutating req = false ->
  snd (handle mime_getType req w) = w
  /\ (req = GetMusic ->
      fst (handle mime_getType req w) = Ok (json 200 (JsonTracks (tracks (current w)))))
  /\ (req = GetPlaylists ->
      fst (handle mime_getType req w)
      = Ok (json 200 (JsonPlaylists (playlists (current w)))))
  /\ (forall raw, data_file w = None \/ data_file w = Some (Malformed raw) ->
        current w = empty_store).
Proof.
  intros Hread. repeat apply conj.
  - destruct req; try discriminate Hread; cbn [handle].
    + unfold get_music, bind. by rewrite readDB_current.
    + apply get_music_stream_world.
    + unfold get_playlists, bind. by rewrite readDB_current.
  - intros ->. cbn [handle]. unfold get_music, bind. by rewrite readDB_current.
  - intros ->. cbn [handle]. unfold get_playlists, bind. by rewrite readDB_current.
  - intros raw. unfold current, readDB, try_catch, bind, fs_readFile.
    by intros [-> | ->].
Qed.

(** X13 on a disk whose db.json does not parse. *)
Lemma reads_change_nothing_witness :
  handle sample_mime GetMusic sample_broken
  = (Ok (json 200 (JsonTracks [])), sample_broken).
Proof.
  destruct (reads_change_nothing sample_mime sample_broken GetMusic eq_refl)
    as (Hsame & Hlist & _ & Hempty).
  rewrite (surjective_pairing (handle sample_mime GetMusic sample_broken)).
  rewrite Hsame, (Hlist eq_refl), (Hempty "{ tracks: " (or_intror eq_refl)).
  reflexivity.
Defined.

(* ===================================================================== *)
(** ** More on playlists *)
(* ===================================================================== *)

Section PlaylistRoutes.

(** The name a handler reads from the body: the body's own, else the one
    [Object.prototype] has. *)
Lemma body_name_run name w :
  body_name name w
  = (Ok (match name with Some s => Some s | None => proto_name w end), w).
Proof. by destruct name. Qed.

Lemma put_playlist_run w pid pl name :
  playlists (current w) !! pid = Some pl ->
  let name' := match name with Some s => Some s | None => proto_name w end in
  let pl' := if negb (name_missing name')
             then {| Playlist.id := Playlist.id pl;
                     Playlist.name := JS.trim (default EmptyString name');
                     Playlist.trackIds := Playlist.trackIds pl |}
             else pl in
  let db' := {| tracks := tracks (current w);
                playlists := <[pid := pl']> (playlists (current w)) |} in
  put_playlist pid name w
  = (Ok (json 200 (JsonOkPlaylist pl')),
     {| data_file := Some (Json db'); uploads := uploads w;
        written := db' :: written w; proto_name := proto_name w |}).
Proof.
  intros Hpl. cbv zeta. unfold put_playlist, bind.
  by rewrite body_name_run, readDB_current, (playlists_get_own _ _ _ _ Hpl),
       writeDB_run.
Qed.

Lemma put_playlist_absent w pid name :
  playlists (current w) !! pid = None ->
  inherited_property (proto_name w) pid = None ->
  put_playlist pid name w = (Ok (json 404 (JsonError "not found")), w).
Proof.
  intros Hpl Hproto. unfold put_playlist, bind.
  by rewrite body_name_run, readDB_current, (playlists_get_absent _ _ _ Hpl Hproto).
Qed.

(** The rename route on an id that only [Object.prototype] knows. *)
Lemma put_playlist_inherited w pid v name :
  playlists (current w) !! pid = None ->
  inherited_property (proto_name w) pid = Some v ->
  truthy_property (Some (inr v)) = true ->
  let name' := match name with Some s => Some s | None => proto_name w end in
  put_playlist pid name w
  = if name_missing name'
    then (Ok (json 200 (JsonOkInherited v)),
          {| data_file := Some (Json (current w)); uploads := uploads w;
             written := current w :: written w; proto_name := proto_name w |})
    else match v with
         | ProtoObject =>
             (Ok (json 200 (JsonOkInherited v)),
              {| data_file := Some (Json (current w)); uploads := uploads w;
                 written := current w :: written w;
                 proto_name := Some (JS.trim (default EmptyString name')) |})
         | _ => (Throw "TypeError", w)
         end.
Proof.
  intros Hpl Hproto Htruthy. cbv zeta. unfold put_playlist, bind.
  rewrite body_name_run, readDB_current,
    (playlists_get_inherited _ _ _ _ Hpl Hproto Htruthy).
  destruct (name_missing _); [reflexivity|].
  destruct v; reflexivity.
Qed.

Lemma delete_playlist_run w pid pl :
  playlists (current w) !! pid = Some pl ->
  let db' := {| tracks := tracks (current w);
                playlists := delete pid (playlists (current w)) |} in
  delete_playlist pid w
  = (Ok (json 200 JsonOk),
     {| data_file := Some (Json db'); uploads := uploads w;
        written := db' :: written w; proto_name := proto_name w |}).
Proof.
  intros Hpl. cbv zeta. unfold delete_playlist, bind.
  by rewrite readDB_current, (playlists_get_own _ _ _ _ Hpl), writeDB_run.
Qed.

Lemma delete_playlist_absent w pid :
  playlists (current w) !! pid = None ->
  inherited_property (proto_name w) pid = None ->
  delete_playlist pid w = (Ok (json 404 (JsonError "not found")), w).
Proof.
  intros Hpl Hproto. unfold delete_playlist, bind.
  by rewrite readDB_current, (playlists_get_absent _ _ _ Hpl Hproto).
Qed.

(** The delete route on an id that only [Object.prototype] knows: there
    is nothing to delete, and the store is written back as it is. *)
Lemma delete_playlist_inherited w pid v :
  playlists (current w) !! pid = None ->
  inherited_property (proto_name w) pid = Some v ->
  truthy_property (Some (inr v)) = true ->
  delete_playlist pid w
  = (Ok (json 200 JsonOk),
     {| data_file := Some (Json (current w)); uploads := uploads w;
        written := current w :: written w; proto_name := proto_name w |}).
Proof.
  intros Hpl Hproto Htruthy. unfold delete_playlist, bind.
  rewrite readDB_current, (playlists_get_inherited _ _ _ _ Hpl Hproto Htruthy),
    writeDB_run.
  by rewrite (delete_id _ _ Hpl), store_eta.
Qed.

Lemma delete_playlist_tracks_run w pid pl tid :
  playlists (current w) !! pid = Some pl ->
  let db' := {| tracks := tracks (current w);
                playlists := <[pid := unlink_track tid pl]> (playlists (current w)) |} in
  delete_playlist_tracks pid tid w
  = (Ok (json 200 (JsonOkPlaylist (unlink_track tid pl))),
     {| data_file := Some (Json db'); uploads := uploads w;
        written := db' :: written w; proto_name := proto_name w |}).
Proof.
  intros Hpl. cbv zeta. unfold delete_playlist_tracks, bind.
  by rewrite readDB_current, (playlists_get_own _ _ _ _ Hpl), writeDB_run.
Qed.

Lemma unlink_track_twice tid pl :
  unlink_track tid (unlink_track tid pl) = unlink_track tid pl.
Proof. apply unlink_track_absent, unlink_track_ids. Qed.

End PlaylistRoutes.

(** X14. Renaming a playlist.  An id that no playlist has and that is no
    property of [Object.prototype] is answered 404 and nothing is written.
    For a playlist of the store, an empty or blank name, and a body
    without a name while [Object.prototype] has none, is answered ok with
    the playlist as it is: the store is written back unchanged.  Any other
    name is trimmed and becomes the name of the playlist, whose id and
    sequence stay; the tracks and the other playlists stay too.  An id
    that no playlist has but [Object.prototype] has is let through like a
    playlist: with a blank name the store is written back unchanged and
    the answer is ok; with another name the assignment throws on a method
    such as "constructor", while for "__proto__" the answer is ok and the
    trimmed name becomes the property [name] of [Object.prototype], which
    every body without a name inherits from then on. *)
Theorem rename_playlist (w : World) (pid : string) (name : option string) :
  (playlists (current w) !! pid = None ->
   inherited_property (proto_name w) pid = None ->
   put_playlist pid name w = (Ok (json 404 (JsonError "not found")), w))
  /\ (forall pl,
        playlists (current w) !! pid = Some pl ->
        (name = None /\ proto_name w = None)
        \/ (exists s, name = Some s /\ JS.all_chars JS.is_whitespace s = true) ->
        exists w',
          put_playlist pid name w = (Ok (json 200 (JsonOkPlaylist pl)), w')
          /\ current w' = current w
          /\ written w' = current w :: written w)
  /\ (forall pl s,
        playlists (current w) !! pid = Some pl ->
        name = Some s ->
        JS.all_chars JS.is_whitespace s = false ->
        exists w' pl',
          put_playlist pid name w = (Ok (json 200 (JsonOkPlaylist pl')), w')
          /\ Playlist.name pl' = JS.trim s
          /\ Playlist.id pl' = Playlist.id pl
          /\ Playlist.trackIds pl' = Playlist.trackIds pl
          /\ tracks (current w') = tracks (current w)
          /\ playlists (current w') !! pid = Some pl'
          /\ (forall other, other <> pid ->
                playlists (current w') !! other = playlists (current w) !! other))
  /\ (forall v,
        playlists (current w) !! pid = None ->
        inherited_property (proto_name w) pid = Some v ->
        truthy_property (Some (inr v)) = true ->
        ((exists s, name = Some s /\ JS.all_chars JS.is_whitespace s = true) ->
         exists w',
           put_playlist pid name w = (Ok (json 200 (JsonOkInherited v)), w')
           /\ current w' = current w
           /\ written w' = current w :: written w
           /\ proto_name w' = proto_name w)
        /\ (forall s,
              name = Some s -> JS.all_chars JS.is_whitespace s = false ->
              v <> ProtoObject ->
              put_playlist pid name w = (Throw "TypeError", w))
        /\ (forall s,
              name = Some s -> JS.all_chars JS.is_whitespace s = false ->
              v = ProtoObject ->
              exists w',
                put_playlist pid name w = (Ok (json 200 (JsonOkInherited v)), w')
                /\ current w' = current w
                /\ written w' = current w :: written w
                /\ proto_name w' = Some (JS.trim s)))
  /\ (forall pl s,
        playlists (current w) !! pid = Some pl ->
        name = None ->
        proto_name w = Some s ->
        JS.all_chars JS.is_whitespace s = false ->
        exists w' pl',
          put_playlist pid name w = (Ok (json 200 (JsonOkPlaylist pl')), w')
          /\ Playlist.name pl' = JS.trim s
          /\ playlists (current w') !! pid = Some pl').
Proof.
  refine (conj _ (conj _ (conj _ (conj _ _)))).
  - apply put_playlist_absent.
  - intros pl Hpl Hblank.
    pose proof (put_playlist_run w pid pl name Hpl) as Hrun. cbv zeta in Hrun.
    assert (Hmissing : name_missing
                         match name with Some s => Some s | None => proto_name w end
                       = true).
    { destruct Hblank as [[-> ->]|(s & -> & Hs)]; [reflexivity|].
      apply name_missing_ws. eauto. }
    rewrite Hmissing in Hrun. cbn [negb] in Hrun.
    rewrite (insert_id _ _ _ Hpl), store_eta in Hrun.
    eexists. split; [exact Hrun|]. by rewrite current_Json.
  - intros pl s Hpl -> Hs.
    pose proof (put_playlist_run w pid pl (Some s) Hpl) as Hrun.
    cbv beta iota zeta in Hrun.
    rewrite (name_missing_named s Hs) in Hrun. cbn [negb] in Hrun.
    eexists _, _. split; [exact Hrun|]. rewrite current_Json.
    cbn [tracks playlists]. repeat apply conj; try reflexivity.
    + apply lookup_insert_eq.
    + intros other Hne. by apply lookup_insert_ne.
  - intros v Hpl Hproto Htruthy.
    pose proof (put_playlist_inherited w pid v name Hpl Hproto Htruthy) as Hrun.
    cbv zeta in Hrun.
    refine (conj _ (conj _ _)).
    + intros (s & -> & Hs). cbn beta iota in Hrun.
      rewrite (name_missing_ws (Some s)) in Hrun by eauto.
      eexists. split; [exact Hrun|]. by rewrite current_Json.
    + intros s -> Hs Hv. cbn beta iota in Hrun.
      rewrite (name_missing_named s Hs) in Hrun.
      by destruct v.
    + intros s -> Hs ->. cbn beta iota in Hrun.
      rewrite (name_missing_named s Hs) in Hrun.
      eexists. split; [exact Hrun|]. by rewrite current_Json.
  - intros pl s Hpl -> Hproto Hs.
    pose proof (put_playlist_run w pid pl None Hpl) as Hrun.
    cbv beta iota zeta in Hrun.
    rewrite Hproto, (name_missing_named s Hs) in Hrun. cbn [negb] in Hrun.
    eexists _, _. split; [exact Hrun|]. rewrite current_Json.
    split; [reflexivity|]. apply lookup_insert_eq.
Qed.

(** X14 on the sample disk: a blank name and a name between blanks for
    the playlist "p1"; the id "p9", which nothing knows; and a name for
    "constructor" and for "__proto__". *)
Lemma rename_playlist_witness :
  (exists w',
      put_playlist "p1" (Some "  ") sample_world
      = (Ok (json 200 (JsonOkPlaylist (Playlist.mk "p1" "Mix" ["t1"]))), w')
      /\ current w' = sample_store)
  /\ (exists w' pl',
       put_playlist "p1" (Some " Evening ") sample_world
       = (Ok (json 200 (JsonOkPlaylist pl')), w')
       /\ Playlist.name pl' = "Evening"
       /\ Playlist.trackIds pl' = ["t1"])
  /\ put_playlist "p9" (Some "x") sample_world
     = (Ok (json 404 (JsonError "not found")), sample_world)
  /\ put_playlist "constructor" (Some "x") sample_world
     = (Throw "TypeError", sample_world)
  /\ (exists w',
       put_playlist "__proto__" (Some " x ") sample_world
       = (Ok (json 200 (JsonOkInherited ProtoObject)), w')
       /\ current w' = sample_store
       /\ proto_name w' = Some "x").
Proof.
  destruct (rename_playlist sample_world "p1" (Some "  ")) as (_ & Hblank & _).
  destruct (rename_playlist sample_world "p1" (Some " Evening "))
    as (_ & _ & Hname & _).
  refine (conj _ (conj _ (conj _ (conj _ _)))).
  - destruct (Hblank (Playlist.mk "p1" "Mix" ["t1"]) eq_refl
                (or_intror (ex_intro _ "  " (conj eq_refl eq_refl))))
      as (w' & Hrun & Hsame & _).
    exists w'. split; [exact Hrun | exact Hsame].
  - destruct (Hname (Playlist.mk "p1" "Mix" ["t1"]) " Evening "
                eq_refl eq_refl eq_refl)
      as (w' & pl' & Hrun & Hn & _ & Hids & _).
    exists w', pl'. repeat apply conj; assumption.
  - exact (proj1 (rename_playlist sample_world "p9" (Some "x")) eq_refl eq_refl).
  - exact (proj1 (proj2 (proj1 (proj2 (proj2 (proj2
             (rename_playlist sample_world "constructor" (Some "x")))))
             ProtoFunction eq_refl eq_refl eq_refl))
             "x" eq_refl eq_refl ltac:(discriminate)).
  - destruct (proj2 (proj2 (proj1 (proj2 (proj2 (proj2
                (rename_playlist sample_world "__proto__" (Some " x ")))))
                ProtoObject eq_refl eq_refl eq_refl))
                " x " eq_refl eq_refl eq_refl)
      as (w' & Hrun & Hsame & _ & Hproto).
    exists w'. repeat apply conj; assumption.
Defined.

(** X15. Deleting a playlist removes that playlist and nothing else: the
    other playlists, the tracks (also those the playlist held) and the
    uploads directory stay as they were.  The delete of an id that no
    playlist has and that is no property of [Object.prototype] is answered
    404 and writes nothing; so is a second delete of a playlist with such
    an id.  An id that no playlist has but [Object.prototype] has
    ("constructor", "__proto__", ...) is answered ok, and the store is
    written back as it is. *)
Theorem delete_playlist_removes (w : World) (pid : string) :
  (playlists (current w) !! pid = None ->
   inherited_property (proto_name w) pid = None ->
   delete_playlist pid w = (Ok (json 404 (JsonError "not found")), w))
  /\ (forall v,
        playlists (current w) !! pid = None ->
        inherited_property (proto_name w) pid = Some v ->
        truthy_property (Some (inr v)) = true ->
        exists w',
          delete_playlist pid w = (Ok (json 200 JsonOk), w')
          /\ current w' = current w
          /\ written w' = current w :: written w
          /\ uploads w' = uploads w)
  /\ (forall pl,
        playlists (current w) !! pid = Some pl ->
        exists w',
          delete_playlist pid w = (Ok (json 200 JsonOk), w')
          /\ playlists (current w') !! pid = None
          /\ (forall other, other <> pid ->
                playlists (current w') !! other = playlists (current w) !! other)
          /\ tracks (current w') = tracks (current w)
          /\ uploads w' = uploads w
          /\ (inherited_property (proto_name w) pid = None ->
              delete_playlist pid w' = (Ok (json 404 (JsonError "not found")), w'))).
Proof.
  split; [apply delete_playlist_absent|]. split.
  { intros v Hpl Hproto Htruthy.
    rewrite (delete_playlist_inherited _ _ _ Hpl Hproto Htruthy).
    eexists. split; [reflexivity|]. by rewrite current_Json. }
  intros pl Hpl.
  pose proof (delete_playlist_run w pid pl Hpl) as Hrun. cbv zeta in Hrun.
  eexists. split; [exact Hrun|].
  assert (Hgone : forall u l n,
             playlists (current {| data_file :=
                                     Some (Json {| tracks := tracks (current w);
                                                   playlists := delete pid (playlists (current w)) |});
                                   uploads := u; written := l; proto_name := n |}) !! pid = None)
    by (intros; apply lookup_delete_eq).
  repeat apply conj; try reflexivity.
  - apply Hgone.
  - intros other Hne. rewrite current_Json. by apply lookup_delete_ne.
  - intros Hproto. by apply delete_playlist_absent.
Qed.

(** X15 on the sample disk: the playlist "p1", the id "p9", which nothing
    knows, and the id "constructor". *)
Lemma delete_playlist_removes_witness :
  (exists w',
    delete_playlist "p1" sample_world = (Ok (json 200 JsonOk), w')
    /\ playlists (current w') !! "p1" = None
    /\ tracks (current w') = tracks sample_store
    /\ delete_playlist "p1" w' = (Ok (json 404 (JsonError "not found")), w'))
  /\ delete_playlist "p9" sample_world
     = (Ok (json 404 (JsonError "not found")), sample_world)
  /\ exists w',
       delete_playlist "constructor" sample_world = (Ok (json 200 JsonOk), w')
       /\ current w' = sample_store
       /\ written w' = [sample_store].
Proof.
  refine (conj _ (conj _ _)).
  - destruct (proj2 (proj2 (delete_playlist_removes sample_world "p1"))
                (Playlist.mk "p1" "Mix" ["t1"]) eq_refl)
      as (w' & Hrun & Hgone & _ & Htracks & _ & Hagain).
    exists w'. repeat apply conj; try assumption. exact (Hagain eq_refl).
  - exact (proj1 (delete_playlist_removes sample_world "p9") eq_refl eq_refl).
  - destruct (proj1 (proj2 (delete_playlist_removes sample_world "constructor"))
                ProtoFunction eq_refl eq_refl eq_refl)
      as (w' & Hrun & Hsame & Hwritten & _).
    exists w'. repeat apply conj; assumption.
Defined.

(** X16. Creating a playlist and deleting it again gives the store back,
    when the name is not blank and the uuid is fresh. *)
Theorem create_then_delete_playlist (w : World) (s uuid : string) :
  JS.all_chars JS.is_whitespace s = false ->
  playlists (current w) !! uuid = None ->
  exists w2,
    delete_playlist uuid (snd (post_playlists (Some s) uuid w))
    = (Ok (json 200 JsonOk), w2)
    /\ current w2 = current w.
Proof.
  intros Hs Hfresh.
  unfold post_playlists at 1, body_name, bind, ret.
  rewrite (name_missing_named s Hs), readDB_current, writeDB_run.
  cbn [playlists default from_option id]. rewrite lookup_insert_eq. cbn [snd].
  set (w1 := {| data_file := _; uploads := _; written := _; proto_name := _ |}).
  assert (Hpl : playlists (current w1) !! uuid
                = Some {| Playlist.id := uuid; Playlist.name := JS.trim s;
                          Playlist.trackIds := [] |})
    by apply lookup_insert_eq.
  pose proof (delete_playlist_run w1 uuid _ Hpl) as Hrun. cbv zeta in Hrun.
  eexists. split; [exact Hrun|]. rewrite current_Json.
  subst w1. rewrite current_Json. cbn [tracks playlists].
  rewrite delete_insert_eq, (delete_id _ _ Hfresh). apply store_eta.
Qed.

(** X16 on the sample disk. *)
Lemma create_then_delete_playlist_witness :
  exists w2,
    delete_playlist "u1" (snd (post_playlists (Some "Late") "u1" sample_world))
    = (Ok (json 200 JsonOk), w2)
    /\ current w2 = sample_store.
Proof.
  exact (create_then_delete_playlist sample_world "Late" "u1" eq_refl eq_refl).
Defined.

(** X17. Removing a track id from a playlist takes every occurrence of the
    id out of the sequence and keeps the other ids in their order; it is
    answered ok whether or not the sequence held the id and whether or not
    the id is the id of a track, and when the sequence did not hold it the
    store is written back unchanged.  Removing the id a second time leaves
    the store as the first removal left it.  The tracks and the other
    playlists stay as they were.  A playlist id that no playlist has and
    that is no property of [Object.prototype] is answered 404 with nothing
    written; one that [Object.prototype] has ("constructor", "__proto__",
    ...) is let through, and the handler throws on the sequence that is
    not there, with nothing written. *)
Theorem remove_track_from_playlist (w : World) (pid tid : string) :
  (playlists (current w) !! pid = None ->
   inherited_property (proto_name w) pid = None ->
   delete_playlist_tracks pid tid w
   = (Ok (json 404 (JsonError "playlist not found")), w))
  /\ (forall v,
        playlists (current w) !! pid = None ->
        inherited_property (proto_name w) pid = Some v ->
        truthy_property (Some (inr v)) = true ->
        delete_playlist_tracks pid tid w = (Throw "TypeError", w))
  /\ (forall pl,
        playlists (current w) !! pid = Some pl ->
        exists pl' w1 w2,
          delete_playlist_tracks pid tid w = (Ok (json 200 (JsonOkPlaylist pl')), w1)
          /\ Playlist.trackIds pl' = filter (fun x => x <> tid) (Playlist.trackIds pl)
          /\ (tid ∉ Playlist.trackIds pl')
          /\ Playlist.id pl' = Playlist.id pl
          /\ Playlist.name pl' = Playlist.name pl
          /\ playlists (current w1) !! pid = Some pl'
          /\ (forall other, other <> pid ->
                playlists (current w1) !! other = playlists (current w) !! other)
          /\ tracks (current w1) = tracks (current w)
          /\ (tid ∉ Playlist.trackIds pl -> current w1 = current w)
          /\ delete_playlist_tracks pid tid w1
             = (Ok (json 200 (JsonOkPlaylist pl')), w2)
          /\ current w2 = current w1).
Proof.
  refine (conj _ (conj _ _)).
  - intros Hpl Hproto. unfold delete_playlist_tracks, bind.
    by rewrite readDB_current, (playlists_get_absent _ _ _ Hpl Hproto).
  - intros v Hpl Hproto Htruthy. unfold delete_playlist_tracks, bind.
    by rewrite readDB_current, (playlists_get_inherited _ _ _ _ Hpl Hproto Htruthy).
  - intros pl Hpl.
    pose proof (delete_playlist_tracks_run w pid pl tid Hpl) as Hrun1.
    cbv zeta in Hrun1.
    set (w1 := {| data_file := _; uploads := _; written := _; proto_name := _ |}) in Hrun1.
    assert (Hpl1 : playlists (current w1) !! pid = Some (unlink_track tid pl))
      by apply lookup_insert_eq.
    pose proof (delete_playlist_tracks_run w1 pid _ tid Hpl1) as Hrun2.
    cbv zeta in Hrun2. rewrite unlink_track_twice in Hrun2.
    eexists _, w1, _. split; [exact Hrun1|].
    split; [reflexivity|]. split; [apply unlink_track_ids|].
    split; [reflexivity|]. split; [reflexivity|]. split; [exact Hpl1|].
    split.
    { intros other Hne. subst w1. rewrite current_Json.
      by apply lookup_insert_ne. }
    split; [reflexivity|]. split.
    { intros Hnot. subst w1. rewrite current_Json.
      rewrite (unlink_track_absent _ _ Hnot), (insert_id _ _ _ Hpl).
      apply store_eta. }
    split; [exact Hrun2|].
    rewrite current_Json. subst w1. rewrite current_Json.
    cbn [tracks playlists]. by rewrite insert_insert_eq.
Qed.

(** X17 on the sample disk: the playlist "p1", the id "p9", which nothing
    knows, and the id "toString". *)
Lemma remove_track_from_playlist_witness :
  (exists pl' w1,
    delete_playlist_tracks "p1" "t1" sample_world
    = (Ok (json 200 (JsonOkPlaylist pl')), w1)
    /\ Playlist.trackIds pl' = []
    /\ tracks (current w1) = tracks sample_store)
  /\ delete_playlist_tracks "p9" "t1" sample_world
     = (Ok (json 404 (JsonError "playlist not found")), sample_world)
  /\ delete_playlist_tracks "toString" "t1" sample_world
     = (Throw "TypeError", sample_world).
Proof.
  refine (conj _ (conj _ _)).
  - destruct (proj2 (proj2 (remove_track_from_playlist sample_world "p1" "t1"))
                (Playlist.mk "p1" "Mix" ["t1"]) eq_refl)
      as (pl' & w1 & w2 & Hrun & Hids & _ & _ & _ & _ & _ & Htracks & _).
    exists pl', w1. repeat apply conj; assumption.
  - exact (proj1 (remove_track_from_playlist sample_world "p9" "t1")
             eq_refl eq_refl).
  - exact (proj1 (proj2 (remove_track_from_playlist sample_world "toString" "t1"))
             ProtoFunction eq_refl eq_refl eq_refl).
Defined.

(** X18. Adding a track to a playlist that does not hold it and removing
    it again gives the store back. *)
Theorem add_then_remove_track (w : World) (pid tid : string) (pl : Playlist.t) :
  playlists (current w) !! pid = Some pl ->
  tid ∈ Track.id <$> tracks (current w) ->
  tid ∉ Playlist.trackIds pl ->
  exists w2,
    delete_playlist_tracks pid tid (snd (post_playlist_tracks pid (Some tid) w))
    = (Ok (json 200 (JsonOkPlaylist pl)), w2)
    /\ current w2 = current w.
Proof.
  intros Hpl Htid Hnot.
  pose proof (post_playlist_tracks_run w pid pl tid Hpl Htid) as Hadd.
  cbv zeta in Hadd. rewrite (proj2 (includes_false _ _) Hnot) in Hadd.
  cbn [negb] in Hadd. rewrite Hadd. cbn [snd].
  set (pl1 := {| Playlist.id := Playlist.id pl; Playlist.name := Playlist.name pl;
                 Playlist.trackIds := Playlist.trackIds pl ++ [tid] |}).
  set (w1 := {| data_file := _; uploads := _; written := _; proto_name := _ |}).
  assert (Hpl1 : playlists (current w1) !! pid = Some pl1)
    by apply lookup_insert_eq.
  pose proof (delete_playlist_tracks_run w1 pid pl1 tid Hpl1) as Hdel.
  cbv zeta in Hdel.
  assert (Hback : unlink_track tid pl1 = pl).
  { subst pl1. unfold unlink_track. cbn. destruct pl as [i n ids]. cbn in *.
    f_equal. rewrite filter_app, filter_cons_False, filter_nil, app_nil_r by tauto.
    pose proof (unlink_track_absent tid (Playlist.mk i n ids) Hnot) as Hsame.
    by injection Hsame. }
  rewrite Hback in Hdel. eexists. split; [exact Hdel|].
  rewrite current_Json. subst w1. rewrite current_Json. cbn [tracks playlists].
  rewrite insert_insert_eq, (insert_id _ _ _ Hpl). apply store_eta.
Qed.

(** X18 on the sample disk: the remote track joins the playlist and
    leaves it. *)
Lemma add_then_remove_track_witness :
  exists w2,
    delete_playlist_tracks "p1" "t2"
      (snd (post_playlist_tracks "p1" (Some "t2") sample_world))
    = (Ok (json 200 (JsonOkPlaylist (Playlist.mk "p1" "Mix" ["t1"]))), w2)
    /\ current w2 = sample_store.
Proof.
  apply (add_then_remove_track sample_world "p1" "t2"
           (Playlist.mk "p1" "Mix" ["t1"]) eq_refl).
  - apply (bool_decide_unpack _). vm_compute. exact I.
  - apply (bool_decide_unpack _). vm_compute. exact I.
Defined.

(* ===================================================================== *)
(** ** What the server does to db.json *)
(* ===================================================================== *)

Section Writes.

Context (mime_getType : string -> option string).

(** One request either leaves db.json and the list of written stores as
    they were, or writes one store, which is then what db.json holds. *)
Lemma step_writes w req :
  (written (step mime_getType w req) = written w
   /\ data_file (step mime_getType w req) = data_file w)
  \/ (exists db,
         written (step mime_getType w req) = db :: written w
         /\ data_file (step mime_getType w req) = Some (Json db)).
Proof.
  unfold step.
  destruct (handle mime_getType req w) as [r w'] eqn:Hrun. cbn [snd].
  destruct req; cbn [handle] in Hrun.
  - unfold_handlers Hrun.
    destruct (20 <? length files)%nat; [left; by simplify_eq|].
    step_handler Hrun. simplify_eq. right. eauto.
  - unfold_handlers Hrun. step_handler Hrun; simplify_eq; eauto.
  - unfold_handlers Hrun. step_handler Hrun; simplify_eq; eauto.
  - destruct (findIndex (has_id id) (tracks (current w))) as [idx|] eqn:Hidx.
    + destruct (findIndex_Some _ _ _ Hidx) as (t & Ht & _).
      rewrite (delete_music_run w id idx t Hidx Ht) in Hrun. simplify_eq.
      right. eauto.
    + apply findIndex_None in Hidx.
      rewrite (delete_music_absent w id Hidx) in Hrun. simplify_eq. eauto.
  - pose proof (get_music_stream_world mime_getType w id range) as Hsame.
    rewrite Hrun in Hsame. cbn [snd] in Hsame. subst w'. eauto.
  - unfold_handlers Hrun. step_handler Hrun; simplify_eq; eauto.
  - unfold_handlers Hrun. step_handler Hrun; simplify_eq; eauto.
  - unfold_handlers Hrun. step_handler Hrun; simplify_eq; eauto.
  - unfold_handlers Hrun. step_handler Hrun; simplify_eq; eauto.
  - unfold_handlers Hrun. step_handler Hrun; simplify_eq; eauto.
  - unfold_handlers Hrun. step_handler Hrun; simplify_eq; eauto.
Qed.

End Writes.

(** X19. The server writes db.json at most once per request, and always a
    whole store: after a request either db.json is what it was and nothing
    was written, or one store was written and db.json holds it.  So after
    any sequence of requests, either nothing was written, or db.json holds
    the store that was written last and [readDB] returns it; a db.json
    that parses is never replaced by one that does not. *)
Theorem one_whole_write_per_request
    (mime_getType : string -> option string) (w : World) :
  (forall req,
      (written (step mime_getType w req) = written w
       /\ data_file (step mime_getType w req) = data_file w)
      \/ (exists db,
             written (step mime_getType w req) = db :: written w
             /\ data_file (step mime_getType w req) = Some (Json db)))
  /\ (forall reqs,
        (written (run mime_getType w reqs) = written w
         /\ data_file (run mime_getType w reqs) = data_file w)
        \/ (exists db rest,
               written (run mime_getType w reqs) = db :: rest
               /\ data_file (run mime_getType w reqs) = Some (Json db)
               /\ current (run mime_getType w reqs) = db))
  /\ (forall reqs db,
        data_file w = Some (Json db) ->
        exists db', data_file (run mime_getType w reqs) = Some (Json db')).
Proof.
  assert (Hrun : forall reqs v,
             (written (run mime_getType v reqs) = written v
              /\ data_file (run mime_getType v reqs) = data_file v)
             \/ (exists db rest,
                    written (run mime_getType v reqs) = db :: rest
                    /\ data_file (run mime_getType v reqs) = Some (Json db)
                    /\ current (run mime_getType v reqs) = db)).
  { unfold run. induction reqs as [|req reqs IH]; intros v; [by left|].
    cbn [foldl].
    destruct (IH (step mime_getType v req)) as [[Hw Hd]|Hlater]; [|by right].
    destruct (step_writes mime_getType v req) as [[Hw' Hd']|(db & Hw' & Hd')].
    - left. split; congruence.
    - right. exists db, (written v). rewrite Hw, Hd. repeat split; try assumption.
      unfold current, readDB, try_catch, bind, fs_readFile. by rewrite Hd, Hd'. }
  repeat apply conj.
  - apply step_writes.
  - intros reqs. apply Hrun.
  - intros reqs db Hdb.
    destruct (Hrun reqs w) as [[_ Hd]|(db' & rest & _ & Hd & _)].
    + exists db. congruence.
    + by exists db'.
Qed.

(** X19 on the sample disk: a failed delete, a rename and a listing. *)
Lemma one_whole_write_per_request_witness :
  exists db',
    data_file (run sample_mime sample_world
                 [DeleteMusic "zz"; PutPlaylist "p1" (Some "Night"); GetMusic])
    = Some (Json db').
Proof.
  exact (proj2 (proj2 (one_whole_write_per_request sample_mime sample_world))
           [DeleteMusic "zz"; PutPlaylist "p1" (Some "Night"); GetMusic]
           sample_store eq_refl).
Defined.

Section StoreOnly.

Context (mime_getType : string -> option string).

Lemma current_same_file w u l n :
  current {| data_file := data_file w; uploads := u; written := l; proto_name := n |} = current w.
Proof. by apply current_data_file. Qed.

(** The handlers see db.json only through [readDB]: on two disks with the
    same store, the same uploads and the same list of written stores they
    answer the same, and either both leave their disk alone or both end
    with the same disk. *)
Lemma stream_file_fst full total range w v :
  fst (stream_file mime_getType full total range w)
  = fst (stream_file mime_getType full total range v).
Proof.
  destruct range as [[|c r]|]; try reflexivity.
  cbv beta iota delta [stream_file]. unfold createReadStream, bind, ret, throw.
  match goal with
  | |- context [valid_span ?s ?e] => destruct (valid_span s e)
  end; reflexivity.
Qed.

Lemma get_music_stream_fst id range w v :
  current w = current v -> uploads w = uploads v ->
  fst (get_music_stream mime_getType id range w)
  = fst (get_music_stream mime_getType id range v).
Proof.
  intros Hc Hu. unfold get_music_stream, bind.
  rewrite !readDB_current, Hc.
  destruct (find (has_id id) (tracks (current v))) as [t|]; [|reflexivity].
  destruct (negb (kind_eqb (Track.type t) TFile)); [reflexivity|].
  destruct (Track.path t) as [p|]; [|reflexivity].
  cbn. unfold try_catch, bind, statSync_size. rewrite Hu.
  destruct (uploads v !! p); cbn; [apply stream_file_fst|reflexivity].
Qed.

Lemma handle_sees_store req w v :
  current w = current v -> uploads w = uploads v -> written w = written v ->
  proto_name w = proto_name v ->
  fst (handle mime_getType req w) = fst (handle mime_getType req v)
  /\ ((snd (handle mime_getType req w) = w /\ snd (handle mime_getType req v) = v)
      \/ snd (handle mime_getType req w) = snd (handle mime_getType req v)).
Proof.
  intros Hc Hu Hw Hn.
  destruct req; cbn [handle].
  5: { split; [by apply get_music_stream_fst|].
       left. split; apply get_music_stream_world. }
  all: unfold upload_array, multer_store, post_music_upload, post_music_url,
      get_music, get_playlists, delete_music, post_playlists,
      put_playlist, delete_playlist, post_playlist_tracks, delete_playlist_tracks,
      playlists_get, body_name, Object_prototype_name, set_Object_prototype_name,
      path_join_uploads, try_catch, fs_unlink, statSync_size, bind, ret, throw;
    rewrite ?readDB_current, ?writeDB_run; cbn [uploads written proto_name];
    rewrite ?Hc, ?Hu, ?Hw, ?Hn.
  all: repeat first
    [ rewrite readDB_current
    | rewrite writeDB_run
    | progress cbn [fst snd uploads written proto_name]
    | progress rewrite ?current_same_file, ?Hc, ?Hu, ?Hw, ?Hn
    | match goal with
      | |- context [match ?x with _ => _ end] =>
          lazymatch x with
          | context [match _ with _ => _ end] => fail
          | _ => destruct x eqn:?
          end
      end ].
  all: split; [reflexivity | auto].
Qed.

End StoreOnly.

(** X20. A db.json that does not parse is treated like no db.json at all,
    by every route: the answer is the same, and so are the uploads
    directory, the stores written and the store the next request finds.
    When the request writes, the text that did not parse is overwritten
    and the two disks are the same afterwards: what the document held
    before is lost without an error. *)
Theorem broken_like_absent
    (mime_getType : string -> option string) (req : Request) (raw : string)
    (u : gmap string (list Byte.byte)) (l : list Store) (n : option string) :
  fst (handle mime_getType req
         {| data_file := Some (Malformed raw); uploads := u; written := l; proto_name := n |})
  = fst (handle mime_getType req
           {| data_file := None; uploads := u; written := l; proto_name := n |})
  /\ uploads (step mime_getType
                {| data_file := Some (Malformed raw); uploads := u; written := l; proto_name := n |} req)
     = uploads (step mime_getType
                  {| data_file := None; uploads := u; written := l; proto_name := n |} req)
  /\ written (step mime_getType
                {| data_file := Some (Malformed raw); uploads := u; written := l; proto_name := n |} req)
     = written (step mime_getType
                  {| data_file := None; uploads := u; written := l; proto_name := n |} req)
  /\ current (step mime_getType
                {| data_file := Some (Malformed raw); uploads := u; written := l; proto_name := n |} req)
     = current (step mime_getType
                  {| data_file := None; uploads := u; written := l; proto_name := n |} req)
  /\ (written (step mime_getType
                 {| data_file := Some (Malformed raw); uploads := u; written := l; proto_name := n |} req)
      <> l ->
      step mime_getType
        {| data_file := Some (Malformed raw); uploads := u; written := l; proto_name := n |} req
      = step mime_getType {| data_file := None; uploads := u; written := l; proto_name := n |} req).
Proof.
  destruct (handle_sees_store mime_getType req
              {| data_file := Some (Malformed raw); uploads := u; written := l; proto_name := n |}
              {| data_file := None; uploads := u; written := l; proto_name := n |}
              eq_refl eq_refl eq_refl eq_refl) as [Hres [[Hb Ha]|Hsame]];
    unfold step.
  - rewrite Hb, Ha. repeat apply conj; try assumption; try reflexivity.
    intros Hne. by destruct Hne.
  - rewrite Hsame. repeat apply conj; try assumption; reflexivity.
Qed.

(** X20 with a playlist created on a disk whose db.json is broken: the
    store afterwards holds that playlist and nothing else. *)
Lemma broken_like_absent_witness :
  current (step sample_mime sample_broken (PostPlaylists (Some "Mix") "p9"))
  = {| tracks := []; playlists := {[ "p9" := Playlist.mk "p9" "Mix" [] ]} |}.
Proof.
  rewrite (proj1 (proj2 (proj2 (proj2
             (broken_like_absent sample_mime (PostPlaylists (Some "Mix") "p9")
                "{ tracks: " ∅ [] None))))).
  vm_compute. reflexivity.
Defined.

(* ===================================================================== *)
(** ** The rules of the data model along a run *)
(* ===================================================================== *)

(** X21. No sequence of requests puts an id twice into a playlist: from a
    store whose playlists hold no duplicates (the empty store of a fresh
    server is one), the playlists of the store hold no duplicates after
    any sequence of requests. *)
Theorem playlists_stay_duplicate_free
    (mime_getType : string -> option string) (w : World) (reqs : list Request) :
  playlists_nodup (current w) ->
  playlists_nodup (current (run mime_getType w reqs))
  /\ forall pid pl,
       playlists (current (run mime_getType w reqs)) !! pid = Some pl ->
       NoDup (Playlist.trackIds pl).
Proof.
  intros Hinv.
  pose proof (run_playlists_nodup mime_getType w reqs Hinv) as Hrun.
  split; [exact Hrun|].
  intros pid pl Hpl. exact (map_Forall_lookup_1 _ _ _ _ Hrun Hpl).
Qed.

(** X21 from a fresh server: a playlist is created and the same track is
    added to it three times. *)
Lemma playlists_stay_duplicate_free_witness :
  playlists_nodup
    (current
       (run sample_mime sample_absent
          [PostMusicUrl (mkUrlBody (Some "http://radio.example/a.mp3") None None None None) "t9";
           PostPlaylists (Some "Mix") "p9";
           PostPlaylistTracks "p9" (Some "t9");
           PostPlaylistTracks "p9" (Some "t9");
           PostPlaylistTracks "p9" (Some "t9")])).
Proof.
  apply (playlists_stay_duplicate_free sample_mime sample_absent).
  apply map_Forall_empty.
Defined.

(** X22. No two tracks share an id as long as the uuids are fresh: from a
    store with unique track ids, after any sequence of requests in which
    every uuid drawn for a track differs from the ids of the store its
    request finds (and the uuids of one upload differ from each other),
    the track ids are unique. *)
Theorem track_ids_stay_unique
    (mime_getType : string -> option string) (w : World) (reqs : list Request) :
  unique_ids (current w) ->
  run_fresh mime_getType w reqs ->
  unique_ids (current (run mime_getType w reqs)).
Proof.
  unfold run. revert w. induction reqs as [|req reqs IH]; intros w Hinv Hfresh.
  - exact Hinv.
  - destruct Hfresh as [Hreq Hrest]. cbn [foldl]. apply IH; [|exact Hrest].
    by apply step_unique_ids.
Qed.

(** X22 on the sample disk: an upload of two files and a registration. *)
Lemma track_ids_stay_unique_witness :
  unique_ids
    (current
       (run sample_mime sample_world
          [PostMusicUpload [sample_upload_a; sample_upload_b];
           PostMusicUrl (mkUrlBody (Some "http://radio.example/a.mp3") None None None None) "u-3"])).
Proof.
  apply (track_ids_stay_unique sample_mime sample_world).
  - apply (bool_decide_unpack _). vm_compute. exact I.
  - cbn [run_fresh fresh_uuids]. repeat apply conj; try exact I.
    + apply (bool_decide_unpack _). vm_compute. exact I.
    + intros f Hf.
      apply elem_of_cons in Hf as [->|Hf];
        [|apply list_elem_of_singleton in Hf as ->];
        apply (bool_decide_unpack _); vm_compute; exact I.
    + apply (bool_decide_unpack _). vm_compute. exact I.
Defined.

(* ===================================================================== *)
(** ** More on the filename-hint parser *)
(* ===================================================================== *)

Section HintPattern.

Lemma append_assoc (a b c : string) : (a +:+ b) +:+ c = a +:+ (b +:+ c).
Proof.
  induction a as [|x a IH]; [reflexivity|]. by rewrite !append_String, IH.
Qed.

Lemma append_empty_r (a : string) : a +:+ EmptyString = a.
Proof.
  induction a as [|x a IH]; [reflexivity|]. by rewrite append_String, IH.
Qed.

Lemma all_chars_app p a b :
  JS.all_chars p (a +:+ b) = JS.all_chars p a && JS.all_chars p b.
Proof.
  induction a as [|x a IH]; simpl; [reflexivity|].
  rewrite IH. apply andb_assoc.
Qed.

(** Trimming and trailing white space. *)
Lemma trim_end_ws u :
  JS.all_chars JS.is_whitespace u = true -> JS.trim_end u = EmptyString.
Proof.
  induction u as [|c u IH]; cbn; intros H; [reflexivity|].
  apply andb_true_iff in H as [Hc Hu]. by rewrite (IH Hu), Hc.
Qed.

Lemma trim_end_app_ws y u :
  JS.all_chars JS.is_whitespace u = true -> JS.trim_end (y +:+ u) = JS.trim_end y.
Proof.
  intros Hu. induction y as [|c y IH]; [by apply trim_end_ws|].
  rewrite append_String. cbn [JS.trim_end]. by rewrite IH.
Qed.

Lemma trim_start_app y u :
  JS.all_chars JS.is_whitespace y = false ->
  JS.trim_start (y +:+ u) = JS.trim_start y +:+ u.
Proof.
  induction y as [|c y IH]; [discriminate|].
  rewrite append_String. cbn [JS.trim_start JS.all_chars].
  destruct (JS.is_whitespace c); cbn [andb]; [exact IH | reflexivity].
Qed.

Lemma trim_app_ws y u :
  JS.all_chars JS.is_whitespace u = true -> JS.trim (y +:+ u) = JS.trim y.
Proof.
  intros Hu. unfold JS.trim.
  destruct (JS.all_chars JS.is_whitespace y) eqn:Hy.
  - rewrite (trim_start_ws y Hy), trim_start_ws; [reflexivity|].
    rewrite all_chars_app, Hy, Hu. reflexivity.
  - rewrite (trim_start_app y u Hy). by apply trim_end_app_ws.
Qed.

(** The bracket group: [(.*?)\]$] on a genre followed by the last bracket. *)
Lemma genre_close_end g :
  JS.all_chars JS.is_dot g = true ->
  genre_close (g +:+ "]") = Some g.
Proof.
  induction g as [|c g IH]; intros H; [reflexivity|].
  cbn [JS.all_chars] in H. apply andb_true_iff in H as [Hc Hg].
  rewrite append_String. cbn [genre_close].
  assert (JS.truthy (g +:+ "]") = true) as -> by (by destruct g).
  cbn [negb]. rewrite andb_false_r, Hc, (IH Hg). reflexivity.
Qed.

Lemma genre_group_ws u r :
  JS.all_chars JS.is_whitespace u = true ->
  genre_group (u +:+ String "[" r) = genre_close r.
Proof.
  intros Hu. unfold genre_group.
  replace (JS.trim_start (u +:+ String "[" r)) with (String "[" r); [reflexivity|].
  induction u as [|c u IH]; [reflexivity|].
  cbn [JS.all_chars] in Hu. apply andb_true_iff in Hu as [Hc Hu].
  rewrite append_String. cbn [JS.trim_start]. rewrite Hc. auto.
Qed.

(** Without a bracket in front of it the group cannot start. *)
Lemma trim_start_head t :
  JS.all_chars JS.is_whitespace t = false ->
  exists c r, JS.trim_start t = String c r /\ JS.has_char c t = true.
Proof.
  induction t as [|c t IH]; cbn; [discriminate|].
  destruct (JS.is_whitespace c) eqn:Hc; cbn.
  - intros H. destruct (IH H) as (d & r & Heq & Hd).
    exists d, r. split; [assumption|]. rewrite Hd. apply orb_true_r.
  - intros _. exists c, t. split; [reflexivity|].
    by rewrite Ascii.eqb_refl.
Qed.

Lemma genre_group_blocked t rest :
  JS.all_chars JS.is_whitespace t = false ->
  JS.has_char "[" t = false ->
  genre_group (t +:+ rest) = None.
Proof.
  intros Hws Hno. unfold genre_group. rewrite (trim_start_app t rest Hws).
  destruct (trim_start_head t Hws) as (c & r & -> & Hc).
  rewrite append_String.
  destruct (Ascii.eqb_spec c "[") as [->|_]; [congruence | reflexivity].
Qed.

Lemma genre_group_no_bracket s :
  JS.has_char "[" s = false -> genre_group s = None.
Proof.
  intros Hno. destruct (JS.all_chars JS.is_whitespace s) eqn:Hws.
  - unfold genre_group. by rewrite (trim_start_ws s Hws).
  - rewrite <- (append_empty_r s). by apply genre_group_blocked.
Qed.

Lemma title_tail_unfold s :
  title_tail s
  = match genre_group s with
    | Some g => Some (EmptyString, Some g)
    | None =>
        match s with
        | EmptyString => Some (EmptyString, None)
        | String c r =>
            if JS.is_dot c
            then (fun '(t, g) => (String c t, g)) <$> title_tail r
            else None
        end
    end.
Proof. by destruct s. Qed.

(** White space in front of a bracketed genre: the second group is empty. *)
Lemma title_tail_ws_bracket s g :
  JS.all_chars JS.is_whitespace s = true ->
  JS.all_chars JS.is_dot g = true ->
  title_tail (s +:+ String "[" (g +:+ "]")) = Some (EmptyString, Some g).
Proof.
  intros Hs Hg.
  by rewrite title_tail_unfold, (genre_group_ws _ _ Hs), (genre_close_end g Hg).
Qed.

(** A title without a bracket, then white space, then a bracketed genre:
    the second group is the title without its trailing white space. *)
Lemma title_tail_bracket t ws g :
  JS.all_chars JS.is_dot t = true ->
  JS.has_char "[" t = false ->
  JS.all_chars JS.is_whitespace ws = true ->
  JS.all_chars JS.is_dot g = true ->
  exists t' u,
    title_tail (t +:+ ws +:+ String "[" (g +:+ "]")) = Some (t', Some g)
    /\ t = t' +:+ u /\ JS.all_chars JS.is_whitespace u = true.
Proof.
  intros Hdot Hno Hws Hg. induction t as [|c t IH].
  - exists EmptyString, EmptyString.
    change (EmptyString +:+ ws +:+ String "[" (g +:+ "]"))
      with (ws +:+ String "[" (g +:+ "]")).
    by rewrite (title_tail_ws_bracket ws g Hws Hg).
  - cbn [JS.all_chars JS.has_char] in Hdot, Hno.
    apply andb_true_iff in Hdot as [Hc Hdot].
    apply orb_false_iff in Hno as [Hc' Hno].
    destruct (JS.all_chars JS.is_whitespace (String c t)) eqn:Hall.
    + exists EmptyString, (String c t).
      rewrite <- append_assoc, title_tail_ws_bracket; [auto| |assumption].
      by rewrite all_chars_app, Hall, Hws.
    + destruct (IH Hdot Hno) as (t' & u & Htail & Heq & Hu).
      exists (String c t'), u.
      rewrite title_tail_unfold, (genre_group_blocked (String c t) _ Hall).
      * rewrite append_String, Hc, Htail. cbn. subst t. auto.
      * cbn [JS.has_char]. by rewrite Hc', Hno.
Qed.

(** A title without a bracket is the whole second group. *)
Lemma title_tail_plain s :
  JS.all_chars JS.is_dot s = true ->
  JS.has_char "[" s = false ->
  title_tail s = Some (s, None).
Proof.
  induction s as [|c s IH]; intros Hdot Hno.
  - reflexivity.
  - rewrite title_tail_unfold, (genre_group_no_bracket _ Hno).
    cbn [JS.all_chars JS.has_char] in Hdot, Hno.
    apply andb_true_iff in Hdot as [Hc Hdot].
    apply orb_false_iff in Hno as [_ Hno].
    by rewrite Hc, (IH Hdot Hno).
Qed.

(** The first group ends at the first hyphen. *)
Lemma match_from_first_hyphen a b t g :
  JS.all_chars JS.is_dot a = true ->
  JS.has_char "-" a = false ->
  title_tail b = Some (t, g) ->
  match_from (a +:+ String "-" b) = Some (a, t, g).
Proof.
  intros Hdot Hno Htail. induction a as [|c a IH].
  - change (EmptyString +:+ String "-" b) with (String "-" b).
    cbn [match_from]. by rewrite Ascii.eqb_refl, Htail.
  - cbn [JS.all_chars JS.has_char] in Hdot, Hno.
    apply andb_true_iff in Hdot as [Hc Hdot].
    apply orb_false_iff in Hno as [Hc' Hno].
    rewrite append_String. cbn [match_from].
    by rewrite Hc', Hc, (IH Hdot Hno).
Qed.

Lemma regex_match_at_start s m :
  match_from s = Some m -> regex_match s = Some m.
Proof. intros H. destruct s; cbn [regex_match]; by rewrite H. Qed.

End HintPattern.

Section HintTheorems.

Lemma title_tail_total b :
  JS.all_chars JS.is_dot b = true -> exists t g, title_tail b = Some (t, g).
Proof.
  induction b as [|c b IH]; intros Hdot; rewrite title_tail_unfold;
    destruct (genre_group _); eauto.
  cbn [JS.all_chars] in Hdot. apply andb_true_iff in Hdot as [Hc Hdot].
  rewrite Hc. destruct (IH Hdot) as (t & g & ->). cbn. eauto.
Qed.

Lemma parse_with_match name a t g :
  regex_match (strip_ext name) = Some (a, t, g) ->
  parseFromFilename name
  = {| hint_artist := JS.trim a;
       hint_title := JS.trim t;
       hint_genre := JS.trim (default EmptyString g) |}.
Proof. intros H. unfold parseFromFilename. by rewrite H. Qed.

(** The extension regex cuts at the last dot only. *)
Lemma ext_tail_with_dot a b : ext_tail (a +:+ String "." b) = false.
Proof.
  unfold ext_tail. rewrite all_chars_app. cbn [JS.all_chars].
  rewrite Ascii.eqb_refl. cbn. by rewrite !andb_false_r.
Qed.

Lemma strip_ext_cut stem e :
  ext_tail e = true -> strip_ext (stem +:+ String "." e) = stem.
Proof.
  intros He. induction stem as [|c stem IH].
  - change (EmptyString +:+ String "." e) with (String "." e).
    cbn [strip_ext]. by rewrite Ascii.eqb_refl, He.
  - rewrite append_String. cbn [strip_ext]. rewrite ext_tail_with_dot.
    by rewrite andb_false_r, IH.
Qed.

Lemma strip_ext_no_dot name :
  JS.has_char "." name = false -> strip_ext name = name.
Proof.
  induction name as [|c name IH]; intros Hno; [reflexivity|].
  cbn [JS.has_char] in Hno. apply orb_false_iff in Hno as [Hc Hno].
  cbn [strip_ext]. by rewrite Hc, (IH Hno).
Qed.

Lemma strip_ext_prefix name : exists ext, name = strip_ext name +:+ ext.
Proof.
  induction name as [|c name IH]; [by exists EmptyString|].
  cbn [strip_ext]. destruct (_ && _).
  - by exists (String c name).
  - destruct IH as [ext Hext]. exists ext. by rewrite append_String, <- Hext.
Qed.

End HintTheorems.

(** X23. The documented pattern parses as documented.  When the stem of a
    name reads [A-T W[G]], where A holds no hyphen, T holds no opening
    bracket, W is white space (possibly none) and none of A, T and G holds
    a line break, the hints are A, T and G, each trimmed.  T may hold
    hyphens and G may hold brackets. *)
Theorem hints_of_documented_pattern (name a t ws g : string) :
  strip_ext name = a +:+ String "-" (t +:+ ws +:+ String "[" (g +:+ "]")) ->
  JS.has_char "-" a = false ->
  JS.all_chars JS.is_dot a = true ->
  JS.has_char "[" t = false ->
  JS.all_chars JS.is_dot t = true ->
  JS.all_chars JS.is_whitespace ws = true ->
  JS.all_chars JS.is_dot g = true ->
  parseFromFilename name
  = {| hint_artist := JS.trim a;
       hint_title := JS.trim t;
       hint_genre := JS.trim g |}.
Proof.
  intros Hstem Ha Hadot Ht Htdot Hws Hg.
  destruct (title_tail_bracket t ws g Htdot Ht Hws Hg) as (t' & u & Htail & Heq & Hu).
  rewrite (parse_with_match name a t' (Some g)).
  - cbn [default from_option id]. f_equal. rewrite Heq. symmetry.
    by apply trim_app_ws.
  - rewrite Hstem. apply regex_match_at_start.
    by apply match_from_first_hyphen.
Qed.

(** X23 on a name whose title holds a hyphen. *)
Lemma hints_of_documented_pattern_witness :
  parseFromFilename "Jay Z - 99 Problems - Live  [Hip Hop].mp3"
  = {| hint_artist := "Jay Z";
       hint_title := "99 Problems - Live";
       hint_genre := "Hip Hop" |}.
Proof.
  exact (hints_of_documented_pattern "Jay Z - 99 Problems - Live  [Hip Hop].mp3"
           "Jay Z " " 99 Problems - Live" "  " "Hip Hop"
           eq_refl eq_refl eq_refl eq_refl eq_refl eq_refl eq_refl).
Defined.

(** X24. The artist is whatever stands in front of the first hyphen.
    When the stem of a name reads [A-B], where A holds no hyphen and
    neither A nor B holds a line break, the artist hint is A trimmed; and
    when B holds no opening bracket the title hint is B trimmed, with the
    hyphens it may hold, and the genre hint is empty.  So an artist whose
    name holds a hyphen is cut at that hyphen. *)
Theorem hints_split_at_first_hyphen (name a b : string) :
  strip_ext name = a +:+ String "-" b ->
  JS.has_char "-" a = false ->
  JS.all_chars JS.is_dot a = true ->
  JS.all_chars JS.is_dot b = true ->
  hint_artist (parseFromFilename name) = JS.trim a
  /\ (JS.has_char "[" b = false ->
      parseFromFilename name
      = {| hint_artist := JS.trim a;
           hint_title := JS.trim b;
           hint_genre := EmptyString |}).
Proof.
  intros Hstem Ha Hadot Hbdot. split.
  - destruct (title_tail_total b Hbdot) as (t & g & Htail).
    rewrite (parse_with_match name a t g); [reflexivity|].
    rewrite Hstem. apply regex_match_at_start.
    by apply match_from_first_hyphen.
  - intros Hb. rewrite (parse_with_match name a b None); [reflexivity|].
    rewrite Hstem. apply regex_match_at_start.
    apply match_from_first_hyphen; [assumption..|].
    by apply title_tail_plain.
Qed.

(** X24 on a name whose artist holds a hyphen. *)
Lemma hints_split_at_first_hyphen_witness :
  parseFromFilename "AC-DC - Thunderstruck.mp3"
  = {| hint_artist := "AC";
       hint_title := "DC - Thunderstruck";
       hint_genre := EmptyString |}.
Proof.
  exact (proj2 (hints_split_at_first_hyphen "AC-DC - Thunderstruck.mp3"
                  "AC" "DC - Thunderstruck" eq_refl eq_refl eq_refl eq_refl)
           eq_refl).
Defined.

(** X25. Only the last extension is stripped.  A name that ends in a dot
    followed by one or more characters other than dot and slash loses
    exactly that ending, whatever stands in front of it (also nothing, so
    a name that is only an extension has an empty stem); a name without a
    dot, and a name that ends in a dot, are their own stem; and the stem is
    always a prefix of the name. *)
Theorem strip_ext_last_extension :
  (forall stem e,
      e <> EmptyString ->
      JS.has_char "." e = false ->
      JS.has_char "/" e = false ->
      strip_ext (stem +:+ String "." e) = stem)
  /\ (forall name, JS.has_char "." name = false -> strip_ext name = name)
  /\ (forall stem, strip_ext (stem +:+ ".") = stem +:+ ".")
  /\ (forall name, exists ext, name = strip_ext name +:+ ext).
Proof.
  repeat apply conj.
  - intros stem e Hne Hdot Hslash. apply strip_ext_cut.
    unfold ext_tail. rewrite (proj2 (truthy_nonempty e) Hne). cbn [andb].
    clear Hne. induction e as [|c e IH]; [reflexivity|].
    cbn [JS.has_char JS.all_chars] in *.
    apply orb_false_iff in Hdot as [Hc Hdot].
    apply orb_false_iff in Hslash as [Hc' Hslash].
    by rewrite Hc, Hc', (IH Hdot Hslash).
  - apply strip_ext_no_dot.
  - intros stem. induction stem as [|c stem IH]; [reflexivity|].
    rewrite append_String. cbn [strip_ext].
    by rewrite (ext_tail_with_dot stem EmptyString), andb_false_r, IH.
  - apply strip_ext_prefix.
Qed.

(** X25 on a name with two extensions. *)
Lemma strip_ext_last_extension_witness :
  strip_ext "mix.final.mp3" = "mix.final".
Proof.
  exact (proj1 strip_ext_last_extension "mix.final" "mp3"
           ltac:(discriminate) eq_refl eq_refl).
Defined.

(* ===================================================================== *)
(** ** The player: queue and playback *)
(* ===================================================================== *)

Section PlayerLemmas.

(** The scan leaves the queue and the tracks alone and ends inside the
    entries it was given. *)
Lemma play_scan_bounds st rest i :
  rest <> [] ->
  Player.queue (play_scan st rest i) = Player.queue st
  /\ Player.tracks (play_scan st rest i) = Player.tracks st
  /\ i <= Player.currentIndex (play_scan st rest i)
       <= i + Z.of_nat (length rest) - 1.
Proof.
  revert i. induction rest as [|id rest IH]; intros i Hne; [done|].
  cbn [play_scan]. destruct (getTrackById st id) as [track|].
  - cbn. repeat split; lia.
  - destruct rest as [|id' rest'].
    + cbn. repeat split; lia.
    + destruct (IH (i + 1) ltac:(done)) as (Hq & Ht & Hi).
      repeat split; try assumption; cbn [length] in *; lia.
Qed.

(** What the scan finds: the first entry whose track is known, or none. *)
Lemma play_scan_spec st rest i :
  rest <> [] ->
  (exists k id track,
      rest !! k = Some id
      /\ getTrackById st id = Some track
      /\ (forall j id', (j < k)%nat -> rest !! j = Some id' ->
                        getTrackById st id' = None)
      /\ play_scan st rest i = start_track st (i + Z.of_nat k) track)
  \/ ((forall j id', rest !! j = Some id' -> getTrackById st id' = None)
      /\ play_scan st rest i = stop_at st (i + Z.of_nat (length rest) - 1)).
Proof.
  revert i. induction rest as [|id rest IH]; intros i Hne; [done|].
  cbn [play_scan]. destruct (getTrackById st id) as [track|] eqn:Hid.
  - left. exists 0%nat, id, track. repeat split; try assumption.
    + intros j id' Hj. lia.
    + f_equal. lia.
  - destruct rest as [|id' rest'].
    + right. split.
      * intros [|j] id'' Hj; cbn in Hj; [by simplify_eq | discriminate].
      * f_equal. cbn. lia.
    + destruct (IH (i + 1) ltac:(done))
        as [(k & id1 & track & Hk & Htrack & Hbefore & Hrun)|[Hnone Hrun]].
      * left. exists (S k), id1, track. repeat split; try assumption.
        -- intros [|j] id'' Hj Hlook; cbn in Hlook; [by simplify_eq|].
           apply (Hbefore j); [lia | assumption].
        -- rewrite Hrun. f_equal. lia.
      * right. split.
        -- intros [|j] id'' Hlook; cbn in Hlook; [by simplify_eq|]. by eapply Hnone.
        -- rewrite Hrun. f_equal. cbn [length]. lia.
Qed.

(** The index the scan is started with does not matter to it. *)
Lemma play_scan_set_index st rest i j :
  rest <> [] -> play_scan (set_index st j) rest i = play_scan st rest i.
Proof.
  revert i. induction rest as [|id rest IH]; intros i Hne; [done|].
  cbn [play_scan]. change (getTrackById (set_index st j) id) with (getTrackById st id).
  destruct (getTrackById st id); [reflexivity|].
  destruct rest as [|id' rest']; [reflexivity|]. by apply IH.
Qed.

Lemma drop_in_range (q : list string) (n : nat) :
  (n < length q)%nat -> exists id, q !! n = Some id /\ drop n q = id :: drop (S n) q.
Proof.
  intros Hn. destruct (q !! n) as [id|] eqn:Hid.
  - exists id. split; [reflexivity|]. by apply drop_S.
  - apply lookup_ge_None in Hid. lia.
Qed.

(** [playCurrent] and [next] as the source writes them: with the index
    inside the queue, [playCurrent] starts the track of the current entry
    or, when that track is gone, does what [next] does. *)
Lemma playCurrent_unfold st id :
  0 <= Player.currentIndex st < Z.of_nat (length (Player.queue st)) ->
  Player.queue st !! Z.to_nat (Player.currentIndex st) = Some id ->
  playCurrent st
  = match getTrackById st id with
    | Some track => start_track st (Player.currentIndex st) track
    | None => next st
    end.
Proof.
  intros Hidx Hid. unfold playCurrent.
  destruct (Z.ltb_spec (Player.currentIndex st) 0); [lia|].
  destruct (Z.leb_spec (Z.of_nat (length (Player.queue st))) (Player.currentIndex st));
    [lia|].
  cbn [orb].
  destruct (drop_in_range (Player.queue st) (Z.to_nat (Player.currentIndex st))
              ltac:(lia)) as (id' & Hid' & ->).
  assert (id' = id) as -> by congruence.
  cbn [play_scan]. destruct (getTrackById st id); [reflexivity|].
  unfold next.
  destruct (Z.ltb_spec (Player.currentIndex st)
              (Z.of_nat (length (Player.queue st)) - 1)) as [Hlt|Hge].
  - unfold playCurrent. cbn [set_index Player.currentIndex Player.queue].
    destruct (Z.ltb_spec (Player.currentIndex st + 1) 0); [lia|].
    destruct (Z.leb_spec (Z.of_nat (length (Player.queue st)))
                (Player.currentIndex st + 1)); [lia|].
    cbn [orb].
    replace (Z.to_nat (Player.currentIndex st + 1))
      with (S (Z.to_nat (Player.currentIndex st))) by lia.
    destruct (drop_in_range (Player.queue st) (S (Z.to_nat (Player.currentIndex st)))
                ltac:(lia)) as (id2 & _ & Hdrop).
    rewrite Hdrop, play_scan_set_index by done. reflexivity.
  - rewrite drop_ge by lia. reflexivity.
Qed.

(** [playCurrent] keeps the queue and the tracks, and keeps an index
    between -1 and the length of the queue there. *)
Lemma playCurrent_keeps st :
  Player.queue (playCurrent st) = Player.queue st
  /\ Player.tracks (playCurrent st) = Player.tracks st
  /\ (-1 <= Player.currentIndex st <= Z.of_nat (length (Player.queue st)) ->
      -1 <= Player.currentIndex (playCurrent st)
         <= Z.of_nat (length (Player.queue st)))
  /\ (0 <= Player.currentIndex st < Z.of_nat (length (Player.queue st)) ->
      Player.currentIndex st <= Player.currentIndex (playCurrent st)
         < Z.of_nat (length (Player.queue st))).
Proof.
  unfold playCurrent.
  destruct (Z.ltb_spec (Player.currentIndex st) 0);
    [cbn; repeat split; lia|].
  destruct (Z.leb_spec (Z.of_nat (length (Player.queue st))) (Player.currentIndex st));
    [cbn; repeat split; lia|].
  cbn [orb].
  destruct (drop_in_range (Player.queue st) (Z.to_nat (Player.currentIndex st))
              ltac:(lia)) as (id & _ & Hdrop).
  destruct (play_scan_bounds st (drop (Z.to_nat (Player.currentIndex st)) (Player.queue st))
              (Player.currentIndex st) ltac:(by rewrite Hdrop))
    as (Hq & Ht & Hi).
  rewrite length_drop in Hi. repeat split; try assumption; lia.
Qed.

End PlayerLemmas.

Section PlayerSteps.

Lemma splice_insert_length start x l :
  length (splice_insert start x l) = S (length l).
Proof.
  unfold splice_insert. rewrite length_app. cbn [length].
  rewrite length_take, length_drop. lia.
Qed.

Lemma rendered_in_range st idx :
  rendered st idx = true -> (idx < length (Player.queue st))%nat.
Proof.
  unfold rendered. destruct (Player.queue st !! idx) eqn:Hid; [|discriminate].
  intros _. by apply lookup_lt_Some in Hid.
Qed.

(** One action keeps the index between -1 and the length of the queue. *)
Lemma act_index_in_bounds st a :
  -1 <= Player.currentIndex st <= Z.of_nat (length (Player.queue st)) ->
  -1 <= Player.currentIndex (act st a)
     <= Z.of_nat (length (Player.queue (act st a))).
Proof.
  intros Hinv. destruct a; cbn [act].
  - unfold enqueueTrack. destruct playNow.
    + destruct (Z.eqb_spec (Player.currentIndex st) (-1)).
      * destruct (playCurrent_keeps (set_index (set_queue st [id]) 0))
          as (Hq & _ & Hi & _).
        rewrite Hq. apply Hi. cbn. lia.
      * match goal with
        | |- context [playCurrent ?s] =>
            destruct (playCurrent_keeps s) as (Hq & _ & Hi & _)
        end.
        rewrite Hq. apply Hi. cbn [set_index set_queue Player.currentIndex Player.queue].
        rewrite splice_insert_length. lia.
    + destruct (Z.eqb_spec (Player.currentIndex st) (-1)).
      * match goal with
        | |- context [playCurrent ?s] =>
            destruct (playCurrent_keeps s) as (Hq & _ & Hi & _)
        end.
        rewrite Hq. apply Hi. cbn. rewrite length_app. cbn. lia.
      * cbn. rewrite length_app. cbn. lia.
  - unfold click_play. destruct (rendered st idx) eqn:Hr; [|assumption].
    apply rendered_in_range in Hr.
    destruct (playCurrent_keeps (set_index st (Z.of_nat idx))) as (Hq & _ & Hi & _).
    rewrite Hq. apply Hi. cbn. lia.
  - unfold click_remove. destruct (rendered st idx) eqn:Hr; [|assumption].
    apply rendered_in_range in Hr.
    destruct (Z.eqb_spec (Z.of_nat idx) (Player.currentIndex st)).
    + cbn. lia.
    + destruct (Z.ltb_spec (Z.of_nat idx) (Player.currentIndex st));
        cbn; rewrite length_delete by (by apply lookup_lt_is_Some); lia.
  - unfold play_playlist.
    match goal with
    | |- context [playCurrent ?s] =>
        destruct (playCurrent_keeps s) as (Hq & _ & Hi & _)
    end.
    rewrite Hq. apply Hi. cbn. lia.
  - cbn. lia.
  - unfold next.
    destruct (Z.ltb_spec (Player.currentIndex st)
                (Z.of_nat (length (Player.queue st)) - 1)); [|assumption].
    destruct (playCurrent_keeps (set_index st (Player.currentIndex st + 1)))
      as (Hq & _ & Hi & _).
    rewrite Hq. apply Hi. cbn. lia.
  - unfold prev. destruct (Qlt_le_dec _ _); [assumption|].
    destruct (Z.ltb_spec 0 (Player.currentIndex st)); [|assumption].
    destruct (playCurrent_keeps (set_index st (Player.currentIndex st - 1)))
      as (Hq & _ & Hi & _).
    rewrite Hq. apply Hi. cbn. lia.
  - unfold next.
    destruct (Z.ltb_spec (Player.currentIndex st)
                (Z.of_nat (length (Player.queue st)) - 1)); [|assumption].
    destruct (playCurrent_keeps (set_index st (Player.currentIndex st + 1)))
      as (Hq & _ & Hi & _).
    rewrite Hq. apply Hi. cbn. lia.
  - assumption.
  - assumption.
  - assumption.
Qed.

End PlayerSteps.

(** X26. The index of the player never leaves the queue by more than one
    place: from a state with -1 <= currentIndex <= queue.length (the page
    starts with -1 and an empty queue), after any sequence of clicks and
    events the index is again between -1 and the length of the queue.  The
    length itself is reached: playing an empty playlist leaves the index
    at 0 with an empty queue and nothing playing, and a track that is then
    queued is added without being started. *)
Theorem queue_index_in_bounds (st : Player.t) (l : list Action) :
  -1 <= Player.currentIndex st <= Z.of_nat (length (Player.queue st)) ->
  -1 <= Player.currentIndex (acts st l)
     <= Z.of_nat (length (Player.queue (acts st l)))
  /\ (forall pl id,
        Playlist.trackIds pl = [] ->
        Player.currentIndex (play_playlist st pl) = 0
        /\ Player.queue (play_playlist st pl) = []
        /\ Audio.paused (Player.audio (play_playlist st pl)) = true
        /\ Player.queue (enqueueTrack (play_playlist st pl) id false) = [id]
        /\ Player.audio (enqueueTrack (play_playlist st pl) id false)
           = Player.audio (play_playlist st pl)).
Proof.
  intros Hinv. split.
  - unfold acts. revert st Hinv. induction l as [|a l IH]; intros st Hinv;
      [exact Hinv|].
    cbn [foldl]. apply IH. by apply act_index_in_bounds.
  - intros pl id Hempty. unfold play_playlist. rewrite Hempty. cbn. auto.
Qed.

(** X26 from the page as it is loaded. *)
Lemma queue_index_in_bounds_witness :
  -1 <= Player.currentIndex
          (acts initial_player
             [Refresh [sample_file_track; sample_url_track];
              Enqueue "t1" false; Enqueue "t2" true; ClickRemove 1; Prev; Next; Next])
     <= 1.
Proof.
  exact (proj1 (queue_index_in_bounds initial_player
                  [Refresh [sample_file_track; sample_url_track];
                   Enqueue "t1" false; Enqueue "t2" true; ClickRemove 1; Prev; Next; Next]
                  ltac:(split; discriminate))).
Defined.

(** X27. [playCurrent] with the index inside the queue plays the first
    entry, from the current one on, whose track is known: the index moves
    to that entry, the audio element gets the source of the track and
    plays, and the track is shown as playing.  When no entry from the
    current one on has a known track, the index stops at the last entry
    and the audio is paused, but the track shown as playing is not
    changed.  With the index outside the queue the audio is paused and
    nothing is shown as playing.  The queue is never changed. *)
Theorem playCurrent_skips_missing (st : Player.t) :
  Player.queue (playCurrent st) = Player.queue st
  /\ (Player.currentIndex st < 0
      \/ Z.of_nat (length (Player.queue st)) <= Player.currentIndex st ->
      Player.currentIndex (playCurrent st) = Player.currentIndex st
      /\ Audio.paused (Player.audio (playCurrent st)) = true
      /\ Player.nowPlaying (playCurrent st) = None)
  /\ (0 <= Player.currentIndex st < Z.of_nat (length (Player.queue st)) ->
      (exists k id track,
          Player.queue st !! (Z.to_nat (Player.currentIndex st) + k)%nat = Some id
          /\ getTrackById st id = Some track
          /\ (forall j id', (j < k)%nat ->
                Player.queue st !! (Z.to_nat (Player.currentIndex st) + j)%nat = Some id' ->
                getTrackById st id' = None)
          /\ Player.currentIndex (playCurrent st) = Player.currentIndex st + Z.of_nat k
          /\ Player.nowPlaying (playCurrent st) = Some track
          /\ Audio.paused (Player.audio (playCurrent st)) = false
          /\ Audio.src (Player.audio (playCurrent st))
             = default "undefined" (trackToSrc track))
      \/ ((forall j id', (Z.to_nat (Player.currentIndex st) <= j)%nat ->
             Player.queue st !! j = Some id' -> getTrackById st id' = None)
          /\ Player.currentIndex (playCurrent st)
             = Z.of_nat (length (Player.queue st)) - 1
          /\ Audio.paused (Player.audio (playCurrent st)) = true
          /\ Player.nowPlaying (playCurrent st) = Player.nowPlaying st)).
Proof.
  split; [apply playCurrent_keeps|]. split.
  - intros Hout. unfold playCurrent.
    destruct (Z.ltb_spec (Player.currentIndex st) 0); [cbn; auto|].
    destruct (Z.leb_spec (Z.of_nat (length (Player.queue st))) (Player.currentIndex st));
      [cbn; auto | lia].
  - intros Hin. unfold playCurrent.
    destruct (Z.ltb_spec (Player.currentIndex st) 0); [lia|].
    destruct (Z.leb_spec (Z.of_nat (length (Player.queue st))) (Player.currentIndex st));
      [lia|].
    cbn [orb].
    destruct (drop_in_range (Player.queue st) (Z.to_nat (Player.currentIndex st))
                ltac:(lia)) as (id0 & _ & Hdrop).
    destruct (play_scan_spec st
                (drop (Z.to_nat (Player.currentIndex st)) (Player.queue st))
                (Player.currentIndex st) ltac:(by rewrite Hdrop))
      as [(k & id & track & Hk & Htrack & Hbefore & ->)|[Hnone ->]].
    + left. exists k, id, track. rewrite lookup_drop in Hk.
      repeat split; try assumption.
      intros j id' Hj Hlook. apply (Hbefore j id' Hj). by rewrite lookup_drop.
    + right. rewrite length_drop. cbn. repeat split; try lia.
      intros j id' Hj Hlook.
      apply (Hnone (j - Z.to_nat (Player.currentIndex st))%nat id').
      rewrite lookup_drop. rewrite <- Hlook. f_equal. lia.
Qed.

(** X27 on the sample player, moved to its second entry, whose track is
    gone: the third entry is played. *)
Lemma playCurrent_skips_missing_witness :
  Player.currentIndex (playCurrent (set_index sample_player 1)) = 2
  /\ Player.nowPlaying (playCurrent (set_index sample_player 1))
     = Some sample_url_track.
Proof.
  destruct (proj2 (proj2 (playCurrent_skips_missing (set_index sample_player 1)))
              ltac:(split; [discriminate | reflexivity]))
    as [(k & id & track & Hk & Htrack & _ & Hidx & Hnp & _)|(Hnone & _)].
  - destruct k as [|[|k]]; vm_compute in Hk; try discriminate Hk;
      injection Hk as <-; vm_compute in Htrack; try discriminate Htrack.
    injection Htrack as <-. split; [exact Hidx | exact Hnp].
  - discriminate (Hnone 2%nat "t2" ltac:(cbn; lia) eq_refl).
Defined.

(** X28. Queueing a track.  Without "play now" the id is appended to the
    queue, and when an entry is current (the index is not -1) nothing else
    changes: not the index, not the audio element, not what is shown as
    playing.  With "play now" on an idle player (index -1) the queue is
    replaced by the one id, whatever it held; with an entry current the id
    is inserted right behind it and the entries before and behind stay;
    in both cases a track that is known is started at once. *)
Theorem enqueue_track (st : Player.t) (id : string) :
  Player.queue (enqueueTrack st id false) = Player.queue st ++ [id]
  /\ (Player.currentIndex st <> -1 ->
      Player.currentIndex (enqueueTrack st id false) = Player.currentIndex st
      /\ Player.audio (enqueueTrack st id false) = Player.audio st
      /\ Player.nowPlaying (enqueueTrack st id false) = Player.nowPlaying st)
  /\ (Player.currentIndex st = -1 ->
      Player.queue (enqueueTrack st id true) = [id]
      /\ forall track,
           getTrackById st id = Some track ->
           enqueueTrack st id true = start_track (set_queue st [id]) 0 track)
  /\ (0 <= Player.currentIndex st < Z.of_nat (length (Player.queue st)) ->
      Player.queue (enqueueTrack st id true)
      = take (S (Z.to_nat (Player.currentIndex st))) (Player.queue st)
        ++ id :: drop (S (Z.to_nat (Player.currentIndex st))) (Player.queue st)
      /\ forall track,
           getTrackById st id = Some track ->
           Player.currentIndex (enqueueTrack st id true) = Player.currentIndex st + 1
           /\ Player.nowPlaying (enqueueTrack st id true) = Some track
           /\ Audio.paused (Player.audio (enqueueTrack st id true)) = false
           /\ Audio.src (Player.audio (enqueueTrack st id true))
              = default "undefined" (trackToSrc track)).
Proof.
  repeat apply conj.
  - unfold enqueueTrack. destruct (Z.eqb_spec (Player.currentIndex st) (-1));
      [|reflexivity].
    match goal with
    | |- context [playCurrent ?s] => by destruct (playCurrent_keeps s) as (-> & _)
    end.
  - intros Hne. unfold enqueueTrack.
    destruct (Z.eqb_spec (Player.currentIndex st) (-1)); [lia|]. by cbn.
  - intros Hidle. unfold enqueueTrack.
    destruct (Z.eqb_spec (Player.currentIndex st) (-1)); [|lia].
    split.
    + match goal with
      | |- context [playCurrent ?s] => by destruct (playCurrent_keeps s) as (-> & _)
      end.
    + intros track Htrack.
      rewrite (playCurrent_unfold (set_index (set_queue st [id]) 0) id);
        [|cbn; lia | reflexivity].
      change (getTrackById (set_index (set_queue st [id]) 0) id)
        with (getTrackById st id).
      by rewrite Htrack.
  - intros Hin. unfold enqueueTrack.
    destruct (Z.eqb_spec (Player.currentIndex st) (-1)); [lia|].
    assert (Hsplice : splice_insert (Player.currentIndex st + 1) id (Player.queue st)
                      = take (S (Z.to_nat (Player.currentIndex st))) (Player.queue st)
                        ++ id :: drop (S (Z.to_nat (Player.currentIndex st)))
                                   (Player.queue st)).
    { unfold splice_insert.
      destruct (Z.ltb_spec (Player.currentIndex st + 1) 0); [lia|].
      replace (Z.to_nat (Z.min (Player.currentIndex st + 1)
                           (Z.of_nat (length (Player.queue st)))))
        with (S (Z.to_nat (Player.currentIndex st))) by lia.
      reflexivity. }
    rewrite Hsplice.
    set (st1 := set_index (set_queue st _) _).
    split; [by destruct (playCurrent_keeps st1) as (-> & _)|].
    intros track Htrack.
    rewrite (playCurrent_unfold st1 id).
    + change (getTrackById st1 id) with (getTrackById st id).
      rewrite Htrack. cbn. auto.
    + subst st1. cbn [set_index set_queue Player.currentIndex Player.queue].
      rewrite length_app, length_take. cbn [length]. rewrite length_drop. lia.
    + subst st1. cbn [set_index set_queue Player.currentIndex Player.queue].
      replace (Z.to_nat (Player.currentIndex st + 1))
        with (length (take (S (Z.to_nat (Player.currentIndex st))) (Player.queue st)))
        by (rewrite length_take; lia).
      apply list_lookup_middle. reflexivity.
Qed.

(** X28 on the sample player: the uploaded track is played now. *)
Lemma enqueue_track_witness :
  Player.queue (enqueueTrack sample_player "t1" true) = ["t1"; "t1"; "gone"; "t2"]
  /\ Player.currentIndex (enqueueTrack sample_player "t1" true) = 1
  /\ Player.nowPlaying (enqueueTrack sample_player "t1" true) = Some sample_file_track.
Proof.
  destruct (proj2 (proj2 (proj2 (enqueue_track sample_player "t1")))
              ltac:(split; [discriminate | reflexivity]))
    as (Hq & Hplay).
  destruct (Hplay sample_file_track eq_refl) as (Hidx & Hnp & _).
  repeat apply conj; [exact Hq | exact Hidx | exact Hnp].
Defined.

(** X29. Removing an entry of the queue.  The Remove button exists for the
    entries whose track is known; it takes that entry out of the queue and
    leaves the tracks alone.  Removing the current entry pauses and rewinds
    the audio, shows nothing as playing and sets the index to -1.
    Removing another entry changes neither the audio element nor what is
    shown as playing, and the entry that was current is still the current
    one: the index follows it. *)
Theorem remove_from_queue (st : Player.t) (idx : nat) :
  (rendered st idx = false -> click_remove st idx = st)
  /\ (rendered st idx = true ->
      Player.queue (click_remove st idx) = delete idx (Player.queue st)
      /\ length (Player.queue (click_remove st idx))
         = (length (Player.queue st) - 1)%nat
      /\ Player.tracks (click_remove st idx) = Player.tracks st
      /\ (Z.of_nat idx = Player.currentIndex st ->
          Player.currentIndex (click_remove st idx) = -1
          /\ Audio.paused (Player.audio (click_remove st idx)) = true
          /\ Audio.currentTime (Player.audio (click_remove st idx)) = 0%Q
          /\ Player.nowPlaying (click_remove st idx) = None)
      /\ (Z.of_nat idx <> Player.currentIndex st ->
          Player.audio (click_remove st idx) = Player.audio st
          /\ Player.nowPlaying (click_remove st idx) = Player.nowPlaying st
          /\ (0 <= Player.currentIndex st ->
              0 <= Player.currentIndex (click_remove st idx)
              /\ Player.queue (click_remove st idx)
                   !! Z.to_nat (Player.currentIndex (click_remove st idx))
                 = Player.queue st !! Z.to_nat (Player.currentIndex st)))).
Proof.
  split; [by intros Hr; unfold click_remove; rewrite Hr|].
  intros Hr. pose proof (rendered_in_range st idx Hr) as Hlt.
  unfold click_remove. rewrite Hr.
  destruct (Z.eqb_spec (Z.of_nat idx) (Player.currentIndex st)) as [Heq|Hne].
  - cbn. repeat split; try lia.
    rewrite length_delete by (by apply lookup_lt_is_Some). lia.
  - destruct (Z.ltb_spec (Z.of_nat idx) (Player.currentIndex st)) as [Hbefore|Hafter];
      cbn; (repeat split; try lia;
            [rewrite length_delete by (by apply lookup_lt_is_Some); lia|]).
    + replace (Z.to_nat (Player.currentIndex st))
        with (S (Z.to_nat (Player.currentIndex st - 1))) by lia.
      apply list_lookup_delete_ge. lia.
    + apply list_lookup_delete_lt. lia.
Qed.

(** X29 on the sample player with its last entry current: the first
    entry is removed. *)
Lemma remove_from_queue_witness :
  Player.queue (click_remove (set_index sample_player 2) 0) = ["gone"; "t2"]
  /\ Player.currentIndex (click_remove (set_index sample_player 2) 0) = 1.
Proof.
  destruct (proj2 (remove_from_queue (set_index sample_player 2) 0) eq_refl)
    as (Hq & _).
  split; [exact Hq | reflexivity].
Defined.

(* ===================================================================== *)
(** ** The page and the server: adding a track to a playlist by name *)
(* ===================================================================== *)

Section Flow.

Lemma trim_end_cons c y :
  JS.trim_end (String c y)
  = match JS.trim_end y with
    | EmptyString => if JS.is_whitespace c then EmptyString
                     else String c EmptyString
    | r' => String c r'
    end.
Proof. reflexivity. Qed.

Lemma trim_end_idempotent y : JS.trim_end (JS.trim_end y) = JS.trim_end y.
Proof.
  induction y as [|c y IH]; [reflexivity|]. rewrite trim_end_cons.
  destruct (JS.trim_end y) as [|d r] eqn:Hy.
  - destruct (JS.is_whitespace c) eqn:Hc; [reflexivity|].
    rewrite trim_end_cons. cbn [JS.trim_end]. by rewrite Hc.
  - rewrite trim_end_cons, IH. reflexivity.
Qed.

(** What is left of a name that is not blank starts with a unit that is
    not white space. *)
Lemma trim_head s :
  JS.all_chars JS.is_whitespace s = false ->
  exists d r, JS.trim s = String d r /\ JS.is_whitespace d = false.
Proof.
  intros Hs. destruct (trim_start_nonempty s Hs) as (d & r & Heq & Hd).
  unfold JS.trim. rewrite Heq, trim_end_cons.
  destruct (JS.trim_end r); [rewrite Hd|]; eauto.
Qed.

Lemma trim_not_blank s :
  JS.all_chars JS.is_whitespace s = false ->
  JS.all_chars JS.is_whitespace (JS.trim s) = false.
Proof.
  intros Hs. destruct (trim_head s Hs) as (d & r & -> & Hd).
  cbn [JS.all_chars]. by rewrite Hd.
Qed.

Lemma trim_idempotent s : JS.trim (JS.trim s) = JS.trim s.
Proof.
  destruct (JS.all_chars JS.is_whitespace s) eqn:Hs.
  - by rewrite (trim_ws s Hs).
  - destruct (trim_head s Hs) as (d & r & Heq & Hd).
    unfold JS.trim at 1. rewrite Heq. cbn [JS.trim_start]. rewrite Hd, <- Heq.
    unfold JS.trim. apply trim_end_idempotent.
Qed.

(** The create route on a name that is not blank. *)
Lemma post_playlists_run w s uuid :
  JS.all_chars JS.is_whitespace s = false ->
  let pl := {| Playlist.id := uuid; Playlist.name := JS.trim s;
               Playlist.trackIds := [] |} in
  let db' := {| tracks := tracks (current w);
                playlists := <[uuid := pl]> (playlists (current w)) |} in
  post_playlists (Some s) uuid w
  = (Ok (json 200 (JsonOkPlaylist pl)),
     {| data_file := Some (Json db'); uploads := uploads w;
        written := db' :: written w; proto_name := proto_name w |}).
Proof.
  intros Hs. cbv zeta. unfold post_playlists, body_name, bind, ret.
  rewrite (name_missing_named s Hs), readDB_current, writeDB_run.
  cbn [playlists default from_option id]. by rewrite lookup_insert_eq.
Qed.

Lemma get_playlists_run w :
  get_playlists w = (Ok (json 200 (JsonPlaylists (playlists (current w)))), w).
Proof. unfold get_playlists, bind. by rewrite readDB_current. Qed.

(** The two requests at the end of the flow, for a playlist of the store. *)
Lemma add_and_refresh w pl trackId :
  playlists (current w) !! Playlist.id pl = Some pl ->
  exists w',
    (post_playlist_tracks (Playlist.id pl) (Some trackId) ;;
     res <- get_playlists ;;
     ret (Some (pl, match body res with
                    | JsonPlaylists all => all
                    | _ => ∅
                    end))) w
    = (Ok (Some (pl, playlists (current w'))), w')
    /\ tracks (current w') = tracks (current w)
    /\ (trackId ∈ Track.id <$> tracks (current w) ->
        exists pl', playlists (current w') !! Playlist.id pl = Some pl'
                    /\ trackId ∈ Playlist.trackIds pl'
                    /\ Playlist.name pl' = Playlist.name pl)
    /\ (trackId ∉ Track.id <$> tracks (current w) -> w' = w).
Proof.
  intros Hpl. destruct (decide (trackId ∈ Track.id <$> tracks (current w)))
    as [Hin|Hnot].
  - pose proof (post_playlist_tracks_run w _ pl trackId Hpl Hin) as Hadd.
    cbv zeta in Hadd. eexists. unfold bind at 1. rewrite Hadd.
    unfold bind, ret. rewrite get_playlists_run. cbn [body json].
    split; [reflexivity|]. rewrite current_Json. cbn [tracks playlists].
    split; [reflexivity|]. split; [|done].
    intros _. eexists. split; [apply lookup_insert_eq|].
    destruct (includes trackId (Playlist.trackIds pl)) eqn:Hinc; cbn;
      split; try reflexivity.
    + by apply includes_true.
    + apply elem_of_app. right. by left.
  - exists w. unfold bind at 1.
    rewrite (post_playlist_tracks_no_track w _ pl (Some trackId) Hpl)
      by (by intros tid [= <-]).
    unfold bind, ret. rewrite get_playlists_run. cbn [body json].
    repeat split; done.
Qed.

End Flow.

(** X30. Adding a track to a playlist by name, from the prompt of the page
    to the store of the server.  A cancelled prompt and a blank name send
    no request.  Otherwise the page takes the first playlist it knows
    whose name is the name typed, trimmed and compared without regard to
    case, or has the server create one with the trimmed name; it then asks
    for the track to be added and announces that playlist.  When the
    playlists the page knows are playlists of the store and the id is the
    id of a track, the playlist announced holds the track in the store
    afterwards.  When the id is the id of no track the page announces the
    playlist all the same, although the server refused and the playlist
    did not get the track. *)
Theorem add_to_playlist_by_name (w : World) (known : list Playlist.t)
    (choice : option string) (trackId uuid : string) :
  (choice = None
   \/ (exists c, choice = Some c /\ JS.all_chars JS.is_whitespace c = true) ->
   addTrackToPlaylistFlow known choice trackId uuid w = (Ok None, w))
  /\ (forall c,
        choice = Some c ->
        JS.all_chars JS.is_whitespace c = false ->
        (forall p, p ∈ known -> playlists (current w) !! Playlist.id p = Some p) ->
        exists pl w',
          addTrackToPlaylistFlow known choice trackId uuid w
          = (Ok (Some (pl, playlists (current w'))), w')
          /\ toLowerCase (Playlist.name pl) = toLowerCase (JS.trim c)
          /\ tracks (current w') = tracks (current w)
          /\ (find (same_name c) known = None ->
              pl = {| Playlist.id := uuid; Playlist.name := JS.trim c;
                      Playlist.trackIds := [] |})
          /\ (forall p, find (same_name c) known = Some p -> pl = p)
          /\ (trackId ∈ Track.id <$> tracks (current w) ->
              exists pl', playlists (current w') !! Playlist.id pl = Some pl'
                          /\ trackId ∈ Playlist.trackIds pl'
                          /\ Playlist.name pl' = Playlist.name pl)
          /\ (trackId ∉ Track.id <$> tracks (current w) ->
              playlists (current w') !! Playlist.id pl = Some pl)).
Proof.
  split.
  - intros [->|(c & -> & Hc)]; [reflexivity|].
    unfold addTrackToPlaylistFlow. rewrite (trim_ws c Hc). cbn [JS.truthy negb].
    by rewrite orb_true_r.
  - intros c -> Hc Hknown. unfold addTrackToPlaylistFlow.
    assert (JS.truthy c = true) as -> by (by destruct c).
    rewrite (trim_nonempty c Hc). cbn [negb orb].
    destruct (find (same_name c) known) as [p|] eqn:Hfind.
    + apply find_some in Hfind as [Hp Hsame]. apply list_elem_of_In in Hp.
      unfold bind at 1, ret at 1.
      destruct (add_and_refresh w p trackId (Hknown p Hp))
        as (w' & Hrun & Htracks & Hadded & Hrefused).
      exists p, w'. split; [exact Hrun|].
      repeat apply conj; try assumption.
      * by apply String.eqb_eq in Hsame.
      * discriminate.
      * by intros p' [= <-].
      * intros Hnot. rewrite (Hrefused Hnot). by apply Hknown.
    + unfold bind at 1, ensurePlaylist, bind at 1, ret at 1.
      pose proof (post_playlists_run w (JS.trim c) uuid (trim_not_blank c Hc))
        as Hcreate.
      cbv zeta in Hcreate. rewrite trim_idempotent in Hcreate.
      rewrite Hcreate. cbn [body json].
      set (pl := {| Playlist.id := uuid; Playlist.name := JS.trim c;
                    Playlist.trackIds := [] |}).
      set (w0 := {| data_file := _; uploads := _; written := _; proto_name := _ |}).
      assert (Hpl : playlists (current w0) !! Playlist.id pl = Some pl)
        by apply lookup_insert_eq.
      destruct (add_and_refresh w0 pl trackId Hpl)
        as (w' & Hrun & Htracks & Hadded & Hrefused).
      exists pl, w'. split; [exact Hrun|].
      repeat apply conj; try reflexivity; try assumption.
      * discriminate.
      * intros Hnot. by rewrite (Hrefused Hnot).
Qed.

(** X30 on the sample disk: the page knows the playlist "Mix", the user
    types " mix ", and the remote track joins that playlist. *)
Lemma add_to_playlist_by_name_witness :
  exists w' pl',
    addTrackToPlaylistFlow [Playlist.mk "p1" "Mix" ["t1"]] (Some " mix ") "t2" "u1"
      sample_world
    = (Ok (Some (Playlist.mk "p1" "Mix" ["t1"], playlists (current w'))), w')
    /\ playlists (current w') !! "p1" = Some pl'
    /\ "t2" ∈ Playlist.trackIds pl'.
Proof.
  destruct (proj2 (add_to_playlist_by_name sample_world
                     [Playlist.mk "p1" "Mix" ["t1"]] (Some " mix ") "t2" "u1")
              " mix " eq_refl eq_refl)
    as (pl & w' & Hrun & _ & _ & _ & Hfound & Hadded & _).
  { intros p Hp. apply list_elem_of_singleton in Hp as ->. reflexivity. }
  rewrite (Hfound (Playlist.mk "p1" "Mix" ["t1"]) eq_refl) in Hrun, Hadded.
  destruct (Hadded ltac:(apply (bool_decide_unpack _); vm_compute; exact I))
    as (pl' & Hlook & Hin & _).
  exists w', pl'. repeat apply conj; assumption.
Defined.
